(** * taring: recursive S3 listing, concurrent fetch, tar and gzip

    A shallow embedding of [taring.go] and of the benchmark command, with
    the properties of its listing / fetch / archive pipeline.

    Layout of the development:
    - [GoString], [Filepath] : the pieces of Go's [fmt], [strings], [strconv]
      and [path/filepath] (Unix flavour) that the program calls;
    - [S3] : the object-store client interface ([Bucket.List], [Bucket.Get]);
    - [Tar] : [io.Writer] and the [archive/tar] writer state machine;
    - [Taring] : the program itself ([fetchPath], [fetchAll], [tarify],
      [TarHeader], the body of [main]); [Bench] : the [tarify] of the
      benchmark command;
    - [Walk], [Archive], [Order] : namespaces as trees of listings, the
      layout of an archive and its reader, what a traversal returns;
    - [Os] : the ids of the process and what a file write leaves behind;
    - [Demo] : a concrete runtime and concrete buckets to run it all on;
    - [Cli], [Benchmark] : the command line of [taring.go], and the
      benchmark command around its [tarify]; [Demo2] : concrete pieces for
      both;
    - the lemmas, module by module, the properties of the specification,
      and further properties of the code.

    Concurrency is modelled by its outcome: the goroutines of a level join
    finish in an order the runtime chooses ([completion]), any permutation
    of the keys.  Logging ([infof], [errorf]) only prints diagnostics; it is
    left out, and with it the [sumKey] accumulation that feeds one log
    line. *)

From Stdlib Require Import List String Ascii Bool Arith ZArith Lia.
From Stdlib Require Import Permutation DecimalString DecimalNat.
From Stdlib.Strings Require Import Byte.
Import ListNotations.

Set Warnings "-register-all,-notation-for-abbreviation".

Local Open Scope string_scope.
Local Open Scope list_scope.
Local Open Scope nat_scope.

(** ** Go strings, [fmt] verbs, [strings.Join] *)

Module GoString.

(** The double quote character, U+0022. *)
Definition dquote : ascii := ascii_of_nat 34.
Definition backslash : ascii := ascii_of_nat 92.

Definition str1 (c : ascii) : string := String c EmptyString.

(** A horizontal tab. *)
Definition tab : string := str1 (ascii_of_nat 9).

(** Concatenation of strings, Go's [+]. *)
Infix "+++" := String.append (right associativity, at level 60).

(** [s[i]], with a default where Go would panic. *)
Definition at_ (s : string) (i : nat) : ascii :=
  match String.get i s with
  | Some c => c
  | None => zero
  end.

(** [s[lo:hi]]. *)
Definition slice (s : string) (lo hi : nat) : string :=
  String.substring lo (hi - lo) s.

(** [s[lo:]]. *)
Definition slice_from (s : string) (lo : nat) : string :=
  String.substring lo (String.length s - lo) s.

(** The [%d] verb on a non-negative [int]. *)
Definition fmt_d (n : nat) : string :=
  NilEmpty.string_of_uint (Nat.to_uint n).

Definition hexdigit (n : nat) : ascii :=
  if n <? 10 then ascii_of_nat (48 + n) else ascii_of_nat (87 + n).

(** [strconv.Quote] on one byte.  Bytes from 0x80 up are copied as they
    are: the decoding of UTF-8 sequences and the [\u] escapes of
    non-printable runes are not modelled. *)
Definition quote_byte (c : ascii) : string :=
  let n := nat_of_ascii c in
  if Ascii.eqb c dquote then String backslash (str1 dquote)
  else if Ascii.eqb c backslash then String backslash (str1 backslash)
  else if n =? 7 then String backslash "a"
  else if n =? 8 then String backslash "b"
  else if n =? 12 then String backslash "f"
  else if n =? 10 then String backslash "n"
  else if n =? 13 then String backslash "r"
  else if n =? 9 then String backslash "t"
  else if n =? 11 then String backslash "v"
  else if (n <? 32) || (n =? 127)
       then String backslash
              (String "x" (String (hexdigit (n / 16)) (str1 (hexdigit (n mod 16)))))
  else str1 c.

Fixpoint quote_body (s : string) : string :=
  match s with
  | EmptyString => EmptyString
  | String c s' => quote_byte c ++ quote_body s'
  end.

(** The [%q] verb on a string. *)
Definition fmt_q (s : string) : string :=
  str1 dquote ++ quote_body s ++ str1 dquote.

(** [strings.Join(elems, sep)]. *)
Fixpoint Join (elems : list string) (sep : string) : string :=
  match elems with
  | [] => EmptyString
  | [e] => e
  | e :: rest => e ++ sep ++ Join rest sep
  end.

(** [strings.Count(s, string(c))] for a one-byte separator. *)
Fixpoint Count (s : string) (c : ascii) : nat :=
  match s with
  | EmptyString => 0
  | String d s' => (if Ascii.eqb d c then 1 else 0) + Count s' c
  end.

End GoString.

(** ** Results of fallible calls

    A Go call returning [(T, error)] whose value is not looked at when the
    error is set is a [Result]: the message, or the value. *)

Inductive Result (A : Type) : Type :=
| Ok (a : A)
| Err (msg : string).
Arguments Ok {A} a.
Arguments Err {A} msg.

Definition is_ok {A} (r : Result A) : bool :=
  match r with Ok _ => true | Err _ => false end.

(** ** [path/filepath] on Unix: [Clean] and [Rel]

    After the Go standard library, loop by loop, with indices into the
    strings as there. *)

Module Filepath.
Import GoString.

Definition Separator : ascii := "/"%char.
Definition dot : ascii := "."%char.

Definition IsPathSeparator (c : ascii) : bool := Ascii.eqb c Separator.

(** A path that begins with a separator. *)
Definition rooted (path : string) : bool :=
  match path with
  | String c _ => IsPathSeparator c
  | EmptyString => false
  end.

(** The [..] case of [Clean]: after [out.w--], walk [out.w] back to the
    last separator, not below [dotdot]. *)
Fixpoint backtrack (out : string) (dotdot w : nat) : nat :=
  match w with
  | 0 => 0
  | S w' =>
      if (dotdot <? w) && negb (IsPathSeparator (at_ out w))
      then backtrack out dotdot w'
      else w
  end.

(** [for ; r < n && !IsPathSeparator(path[r]); r++ { out.append(path[r]) }];
    [k] bounds the iterations by [n - r]. *)
Fixpoint copy_element (k : nat) (path : string) (r : nat) (out : string)
  : nat * string :=
  match k with
  | 0 => (r, out)
  | S k' =>
      if (r <? String.length path) && negb (IsPathSeparator (at_ path r))
      then copy_element k' path (S r) (out ++ str1 (at_ path r))%string
      else (r, out)
  end.

(** The main loop of [Clean], [for r < n { switch ... }].  The lazy buffer
    is the string [out] of the [out.w] bytes written so far; every turn
    advances [r], so [fuel = n] turns are enough. *)
Fixpoint clean_loop (fuel : nat) (path : string) (rooted : bool)
         (r : nat) (out : string) (dotdot : nat) : string :=
  let n := String.length path in
  match fuel with
  | 0 => out
  | S fuel' =>
      if r <? n then
        if IsPathSeparator (at_ path r) then
          (* empty path element *)
          clean_loop fuel' path rooted (r + 1) out dotdot
        else if Ascii.eqb (at_ path r) dot
                && ((r + 1 =? n) || IsPathSeparator (at_ path (r + 1))) then
          (* . element *)
          clean_loop fuel' path rooted (r + 1) out dotdot
        else if Ascii.eqb (at_ path r) dot
                && Ascii.eqb (at_ path (r + 1)) dot
                && ((r + 2 =? n) || IsPathSeparator (at_ path (r + 2))) then
          (* .. element: remove to last separator *)
          let w := String.length out in
          if dotdot <? w then
            (* can backtrack *)
            let w' := backtrack out dotdot (w - 1) in
            clean_loop fuel' path rooted (r + 2) (slice out 0 w') dotdot
          else if negb rooted then
            (* cannot backtrack, but not rooted, so append .. element *)
            let out1 := if 0 <? w then (out ++ str1 Separator)%string else out in
            let out2 := (out1 ++ "..")%string in
            clean_loop fuel' path rooted (r + 2) out2 (String.length out2)
          else
            clean_loop fuel' path rooted (r + 2) out dotdot
        else
          (* real path element: add slash if needed, copy element *)
          let w := String.length out in
          let out1 :=
            if (rooted && negb (w =? 1)) || (negb rooted && negb (w =? 0))
            then (out ++ str1 Separator)%string else out in
          let '(r', out2) := copy_element (n - r) path r out1 in
          clean_loop fuel' path rooted r' out2 dotdot
      else out
  end.

(** [filepath.Clean]; there is no volume name on Unix and [FromSlash] is
    the identity. *)
Definition Clean (path : string) : string :=
  if String.eqb path "" then "."
  else
    let rooted := IsPathSeparator (at_ path 0) in
    let n := String.length path in
    let out :=
      if rooted
      then clean_loop n path rooted 1 (str1 Separator) 1
      else clean_loop n path rooted 0 "" 0 in
    if String.length out =? 0 then "." else out.

(** [for i < l && s[i] != Separator { i++ }]. *)
Fixpoint scan_element (k : nat) (s : string) (i : nat) : nat :=
  match k with
  | 0 => i
  | S k' =>
      if (i <? String.length s) && negb (Ascii.eqb (at_ s i) Separator)
      then scan_element k' s (S i)
      else i
  end.

(** The loop of [Rel] that positions [base[b0:bi]] and [targ[t0:ti]] at the
    first differing elements; it returns [(b0, bi, t0, ti)]. *)
Fixpoint rel_loop (fuel : nat) (base targ : string) (b0 bi t0 ti : nat)
  : nat * nat * nat * nat :=
  let bl := String.length base in
  let tl := String.length targ in
  match fuel with
  | 0 => (b0, bi, t0, ti)
  | S fuel' =>
      if (bi <? bl) && (ti <? tl) then
        let bi1 := scan_element (bl - bi) base bi in
        let ti1 := scan_element (tl - ti) targ ti in
        if negb (String.eqb (slice targ t0 ti1) (slice base b0 bi1))
        then (b0, bi1, t0, ti1)
        else
          let bi2 := if bi1 <? bl then bi1 + 1 else bi1 in
          let ti2 := if ti1 <? tl then ti1 + 1 else ti1 in
          rel_loop fuel' base targ bi2 bi2 ti2 ti2
      else (b0, bi, t0, ti)
  end.

Fixpoint updirs (seps : nat) : string :=
  match seps with
  | 0 => ""
  | S k => str1 Separator ++ ".." ++ updirs k
  end.

Definition rel_error (basepath targpath : string) : string :=
  "Rel: can't make " ++ targpath ++ " relative to " ++ basepath.

(** [filepath.Rel(basepath, targpath)]. *)
Definition Rel (basepath targpath : string) : Result string :=
  let base := Clean basepath in
  let targ := Clean targpath in
  if String.eqb targ base then Ok "."
  else
    let base := if String.eqb base "." then "" else base in
    let baseSlashed := (0 <? String.length base) && Ascii.eqb (at_ base 0) Separator in
    let targSlashed := (0 <? String.length targ) && Ascii.eqb (at_ targ 0) Separator in
    if negb (Bool.eqb baseSlashed targSlashed) then Err (rel_error basepath targpath)
    else
      let bl := String.length base in
      let tl := String.length targ in
      let '(b0, bi, t0, ti) := rel_loop (S bl) base targ 0 0 0 0 in
      if String.eqb (slice base b0 bi) ".." then Err (rel_error basepath targpath)
      else if negb (b0 =? bl) then
        (* Base elements left. Must go up before going down. *)
        let seps := Count (slice base b0 bl) Separator in
        Ok (".." ++ updirs seps
                 ++ (if negb (Nat.eqb t0 tl)
                     then str1 Separator ++ slice_from targ t0 else ""))%string
      else Ok (slice_from targ t0).

End Filepath.

(** ** The object-store client (goamz [s3]), at its interface *)

(** An instant, in nanoseconds since the Unix epoch. *)
Definition Time : Type := Z.

Module S3.

(** [s3.Key]: one entry of a listing. *)
Record Key : Type := mkKey {
  Key_ : string;
  LastModified : string;
  Size : Z
}.

(** [s3.ListResp], with the fields the program reads and the truncation
    flag it does not read. *)
Record ListResp : Type := mkListResp {
  Contents : list Key;
  CommonPrefixes : list string;
  IsTruncated : bool
}.

(** [s3.Bucket]: [List(prefix, delim, marker, max)] and [Get(path)].
    Both are remote calls that can fail. *)
Record Bucket : Type := mkBucket {
  List : string -> string -> string -> Z -> Result ListResp;
  Get : string -> Result (list byte)
}.

(** The arguments of one [List] call. *)
Record ListCall : Type := mkListCall {
  call_prefix : string;
  call_delim : string;
  call_marker : string;
  call_max : Z
}.

End S3.

(** ** [io.Writer] and the [archive/tar] writer

    The writer of Go's [archive/tar] (as of Go 1.10 and later), for entries
    that are regular files: [Flush], [WriteHeader], [Write] and [Close] over
    an [io.Writer].  How a header is laid out in blocks is left to a
    function [marshal]. *)

Module Tar.

Definition blockSize : nat := 512.

(** [tar.Header], with the fields [TarHeader] sets. *)
Record Header : Type := mkHeader {
  Name : string;
  Size : Z;
  Mode : Z;
  AccessTime : Time;
  ChangeTime : Time;
  ModTime : Time;
  Typeflag : ascii;
  Uid : Z;
  Gid : Z
}.

Definition TypeReg : ascii := "0"%char.
Definition TypeLink : ascii := "1"%char.
Definition TypeSymlink : ascii := "2"%char.
Definition TypeChar : ascii := "3"%char.
Definition TypeBlock : ascii := "4"%char.
Definition TypeDir : ascii := "5"%char.
Definition TypeFifo : ascii := "6"%char.

Definition isHeaderOnlyType (flag : ascii) : bool :=
  Ascii.eqb flag TypeLink || Ascii.eqb flag TypeSymlink
  || Ascii.eqb flag TypeChar || Ascii.eqb flag TypeBlock
  || Ascii.eqb flag TypeDir || Ascii.eqb flag TypeFifo.

Definition zeros (n : nat) : list byte := repeat x00 n.

(** [zeroBlock]. *)
Definition zeroBlock : list byte := zeros blockSize.

(** [blockPadding(offset)]: bytes missing to the next block boundary. *)
Definition blockPadding (size : nat) : nat :=
  (blockSize - size mod blockSize) mod blockSize.

(** [io.Writer].  [io_Write w p] is [w.Write(p)]: the writer afterwards,
    the count [n] of bytes taken and the error.  [written] is the byte
    stream the writer holds. *)
Class IoWriter (W : Type) : Type := {
  io_Write : W -> list byte -> W * nat * option string;
  written : W -> list byte
}.

(** The contract of [io.Writer], for a stream: a call appends the first
    [n] bytes of [p], [n] is at most [len(p)], and a short count comes
    with an error. *)
Record Stream (W : Type) `{IoWriter W} : Prop := {
  io_Write_appends : forall w p,
    written (fst (fst (io_Write w p)))
    = written w ++ firstn (snd (fst (io_Write w p))) p;
  io_Write_count : forall w p, snd (fst (io_Write w p)) <= List.length p;
  io_Write_short : forall w p,
    snd (fst (io_Write w p)) < List.length p -> snd (io_Write w p) <> None
}.

(** [bytes.Buffer]: [Write] appends and never fails. *)
Record Buffer : Type := mkBuffer { buf : list byte }.

Definition NewBuffer (b : list byte) : Buffer := mkBuffer b.

Definition Buffer_Write (b : Buffer) (p : list byte)
  : Buffer * nat * option string :=
  (mkBuffer (buf b ++ p), List.length p, None).

#[global] Instance Buffer_IoWriter : IoWriter Buffer :=
  {| io_Write := Buffer_Write; written := buf |}.

(** A sink with room for [room] more bytes (a full disk, a bounded pipe):
    [Write] takes what fits and reports an error for the rest. *)
Record Limited : Type := mkLimited { held : list byte; room : nat }.

Definition Limited_Write (s : Limited) (p : list byte)
  : Limited * nat * option string :=
  if List.length p <=? room s
  then (mkLimited (held s ++ p) (room s - List.length p), List.length p, None)
  else (mkLimited (held s ++ firstn (room s) p) 0, room s,
        Some "short write").

#[global] Instance Limited_IoWriter : IoWriter Limited :=
  {| io_Write := Limited_Write; written := held |}.

Section Writer.
Context {W : Type} `{IoWriter W}.

(** How [WriteHeader] lays a header out in blocks (USTAR, PAX or GNU
    records, chosen by the library), or the reason it cannot. *)
Variable marshal : Header -> Result (list byte).

(** [tar.Writer]: the underlying writer, the padding owed after the
    current entry, the bytes the current entry still expects
    ([regFileWriter.nb]) and the sticky error. *)
Record Writer : Type := mkWriter {
  tw_w : W;
  tw_pad : nat;
  tw_nb : Z;
  tw_err : option string
}.

Definition NewWriter (w : W) : Writer := mkWriter w 0 0%Z None.

Definition ErrWriteTooLong : string := "archive/tar: write too long".
Definition ErrWriteAfterClose : string := "archive/tar: write after close".

Definition missed (nb : Z) : string :=
  "archive/tar: missed writing "
    ++ GoString.fmt_d (Z.to_nat nb) ++ " bytes".

(** [Writer.Flush]: the current entry must be complete; its padding is
    written out. *)
Definition Flush (tw : Writer) : Writer * option string :=
  match tw_err tw with
  | Some e => (tw, Some e)
  | None =>
      if (0 <? tw_nb tw)%Z then (tw, Some (missed (tw_nb tw)))
      else
        let '(w', _, e) := io_Write (tw_w tw) (firstn (tw_pad tw) zeroBlock) in
        match e with
        | Some e => (mkWriter w' (tw_pad tw) (tw_nb tw) (Some e), Some e)
        | None => (mkWriter w' 0 (tw_nb tw) None, None)
        end
  end.

(** [Writer.WriteHeader]: flush the previous entry, write the header
    blocks, and expect [hdr.Size] bytes of payload. *)
Definition WriteHeader (tw : Writer) (hdr : Header) : Writer * option string :=
  match Flush tw with
  | (tw1, Some e) => (tw1, Some e)
  | (tw1, None) =>
      match marshal hdr with
      | Err e => (tw1, Some e)
      | Ok blk =>
          let '(w', _, e) := io_Write (tw_w tw1) blk in
          match e with
          | Some e => (mkWriter w' (tw_pad tw1) (tw_nb tw1) (Some e), Some e)
          | None =>
              let size := if isHeaderOnlyType (Typeflag hdr) then 0%Z else Size hdr in
              (mkWriter w' (blockPadding (Z.to_nat size)) size None, None)
          end
      end
  end.

(** [Writer.Write]: at most [nb] bytes go to the entry; more is
    [ErrWriteTooLong]. *)
Definition Write (tw : Writer) (b : list byte) : Writer * nat * option string :=
  match tw_err tw with
  | Some e => (tw, 0, Some e)
  | None =>
      let overwrite := (tw_nb tw <? Z.of_nat (List.length b))%Z in
      let b' := if overwrite then firstn (Z.to_nat (tw_nb tw)) b else b in
      let '(w', n, e) :=
        if 0 <? List.length b' then io_Write (tw_w tw) b' else (tw_w tw, 0, None) in
      let nb' := (tw_nb tw - Z.of_nat n)%Z in
      match e with
      | Some e => (mkWriter w' (tw_pad tw) nb' (Some e), n, Some e)
      | None =>
          if overwrite
          then (mkWriter w' (tw_pad tw) nb' None, n, Some ErrWriteTooLong)
          else (mkWriter w' (tw_pad tw) nb' None, n, None)
      end
  end.

(** The trailer loop of [Close]: [for i := 0; i < 2 && err == nil; i++]. *)
Fixpoint write_trailer (k : nat) (w : W) : W * option string :=
  match k with
  | 0 => (w, None)
  | S k' =>
      let '(w', _, e) := io_Write w zeroBlock in
      match e with
      | Some e => (w', Some e)
      | None => write_trailer k' w'
      end
  end.

(** [Writer.Close]: flush, then two zero blocks; afterwards every call
    fails with [ErrWriteAfterClose]. *)
Definition Close (tw : Writer) : Writer * option string :=
  match tw_err tw with
  | Some e =>
      if String.eqb e ErrWriteAfterClose then (tw, None) else (tw, Some e)
  | None =>
      match Flush tw with
      | (tw1, Some e) =>
          (mkWriter (tw_w tw1) (tw_pad tw1) (tw_nb tw1) (Some ErrWriteAfterClose),
           Some e)
      | (tw1, None) =>
          let '(w', e) := write_trailer 2 (tw_w tw1) in
          (mkWriter w' (tw_pad tw1) (tw_nb tw1) (Some ErrWriteAfterClose), e)
      end
  end.

End Writer.

Arguments Writer W : clear implicits.

End Tar.

(** ** The program *)

Module Taring.
Import GoString.

(** [S3Content]; [Data] is the content of the [bytes.Buffer], which is
    never read from, so [Data.Len()] is its length and [Data.Bytes()] the
    whole of it. *)
Record S3Content : Type := mkS3Content {
  Name : string;
  LastMod : Time;
  Data : list byte
}.

(** One [ioutil.WriteFile(filename, data, perm)] call. *)
Record FileWrite : Type := mkFileWrite {
  fw_name : string;
  fw_data : list byte;
  fw_perm : Z
}.

(** What the process has done to the outside so far: the [List] calls sent
    to the store, the number of level joins done, the number of readings of
    the clock that [TarHeader] has taken, and the calls of
    [ioutil.WriteFile] made.  The clock is also read in [doFetch], around
    its [Get], for a duration that only the log shows: those readings are
    left out with the log, and [ticks] does not count them. *)
Record World : Type := mkWorld {
  listCalls : list S3.ListCall;
  joins : nat;
  ticks : nat;
  fileWrites : list FileWrite
}.

Definition world0 : World := mkWorld [] 0 0 [].

(** What the process gets from its libraries and its operating system:
    - [time_Parse s] is [time.Parse(time.RFC3339Nano, s)];
    - [time_Now n] is the [n]-th reading of [time.Now()] by [TarHeader];
    - [os_Getuid], [os_Getgid] are the ids of the process;
    - [completion n keys] is the order in which the goroutines of the
      [n]-th level join send their result, a permutation of [keys] (see
      [fair]);
    - [tar_marshal hdr] is the blocks [tar.Writer.WriteHeader] emits for
      [hdr], or its refusal;
    - [gzip_compress data] is what a [gzip.Writer] produces for [data];
    - [ioutil_WriteFile name data perm] is the outcome of that call. *)
Record Runtime : Type := mkRuntime {
  time_Parse : string -> Result Time;
  time_Now : nat -> Time;
  os_Getuid : Z;
  os_Getgid : Z;
  completion : nat -> list S3.Key -> list S3.Key;
  tar_marshal : Tar.Header -> Result (list byte);
  gzip_compress : list byte -> list byte;
  ioutil_WriteFile : string -> list byte -> Z -> option string
}.

(** Every goroutine of a join finishes exactly once ([wg.Wait()]). *)
Definition fair (rt : Runtime) : Prop :=
  forall n keys, Permutation keys (completion rt n keys).

Definition ModePerm : Z := 511.

(** [filePerms = os.FileMode(os.ModePerm & 0644)] *)
Definition filePerms : Z := Z.land ModePerm 420.

Definition successes {A} (rs : list (Result A)) : list A :=
  flat_map (fun r => match r with Ok a => [a] | Err _ => [] end) rs.

Definition failures {A} (rs : list (Result A)) : list string :=
  flat_map (fun r => match r with Ok _ => [] | Err e => [e] end) rs.

Section Program.
Variable rt : Runtime.

(** The goroutine body of [fetchAll], a closure over [bkt] and [base] (and
    over [prfx], for its log line): [Err] is what it sends on [errc],
    [Ok] what it sends on [contentC].  [start := time.Now()] and
    [time.Since(start)] around the [Get] only feed the log line and are
    left out with it. *)
Definition doFetch (bkt : S3.Bucket) (base : string) (k : S3.Key)
  : Result S3Content :=
  match time_Parse rt (S3.LastModified k) with
  | Err err =>
      Err ("failed to parse time of " +++ fmt_q (S3.LastModified k)
             +++ ": " +++ err)
  | Ok lastMod =>
      match Filepath.Rel base (S3.Key_ k) with
      | Err err =>
          Err ("failed to find relative path for " +++ fmt_q (S3.Key_ k)
                 +++ ": " +++ err)
      | Ok relPath =>
          match S3.Get bkt (S3.Key_ k) with
          | Err err =>
              Err ("failed fetch of " +++ fmt_q (S3.Key_ k) +++ ": " +++ err)
          | Ok data =>
              Ok {| Name := relPath; Data := data; LastMod := lastMod |}
          end
      end
  end.

(** [fetchAll]: one goroutine per key, a join, then the two channels are
    drained.  The pair is Go's [([]S3Content, error)]. *)
Definition fetchAll (bkt : S3.Bucket) (prfx base : string)
           (keys : list S3.Key) (world : World)
  : (list S3Content * option string) * World :=
  let sent := map (doFetch bkt base) (completion rt (joins world) keys) in
  let world' := mkWorld (listCalls world) (S (joins world))
                        (ticks world) (fileWrites world) in
  let contents := successes sent in
  let errs := failures sent in
  if negb (List.length errs =? 0)
  then (([], Some (fmt_d (List.length errs) +++ " errors: " +++ Join errs ",")),
        world')
  else ((contents, None), world').

(** [fetchPath]; [None] when [fuel] levels of recursion were not
    enough. *)
Fixpoint fetchPath (fuel : nat) (bkt : S3.Bucket) (prfx root bktPath : string)
         (world : World)
  : option ((list S3Content * option string) * World) :=
  match fuel with
  | 0 => None
  | S fuel' =>
      let world1 :=
        mkWorld (listCalls world ++ [S3.mkListCall bktPath "/" "" 10000])
                (joins world) (ticks world) (fileWrites world) in
      match S3.List bkt bktPath "/" "" 10000%Z with
      | Err err =>
          Some (([], Some ("couldn't list bucket at path " +++ fmt_q bktPath
                             +++ ": " +++ err)), world1)
      | Ok list_ =>
          match fetchAll bkt prfx root (S3.Contents list_) world1 with
          | ((_, Some err), world2) =>
              Some (([], Some ("fetching content of keys at " +++ fmt_q bktPath
                                 +++ ", " +++ err)), world2)
          | ((contents, None), world2) =>
              (fix folders (l : list string) (contents : list S3Content)
                   (world : World) {struct l} :=
                 match l with
                 | [] => Some ((contents, None), world)
                 | folder :: l' =>
                     match fetchPath fuel' bkt (prfx +++ tab) root folder world with
                     | None => None
                     | Some ((_, Some err), world') => Some (([], Some err), world')
                     | Some ((newContent, None), world') =>
                         folders l' (contents ++ newContent) world'
                     end
                 end) (S3.CommonPrefixes list_) contents world2
          end
      end
  end.

(** The method [TarHeader] of [S3Content]; it reads the clock once. *)
Definition TarHeader (s : S3Content) (world : World) : Tar.Header * World :=
  ({| Tar.Name := Name s;
      Tar.Size := Z.of_nat (List.length (Data s));
      Tar.Mode := filePerms;
      Tar.AccessTime := time_Now rt (ticks world);
      Tar.ChangeTime := LastMod s;
      Tar.ModTime := LastMod s;
      Tar.Typeflag := Tar.TypeReg;
      Tar.Uid := os_Getuid rt;
      Tar.Gid := os_Getgid rt |},
   mkWorld (listCalls world) (joins world) (S (ticks world)) (fileWrites world)).

Section Tarify.
Context {W : Type} `{Tar.IoWriter W}.

(** The loop of [tarify] over [objects]. *)
Fixpoint tarify_loop (tarw : Tar.Writer W) (objects : list S3Content)
         (world : World) : Tar.Writer W * World * option string :=
  match objects with
  | [] => (tarw, world, None)
  | object :: rest =>
      let '(hdr, world1) := TarHeader object world in
      match Tar.WriteHeader (tar_marshal rt) tarw hdr with
      | (tarw1, Some err) =>
          (tarw1, world1,
           Some ("writing header of " +++ fmt_q (Name object) +++ ", " +++ err))
      | (tarw1, None) =>
          match Tar.Write tarw1 (Data object) with
          | (tarw2, _, Some err) =>
              (tarw2, world1,
               Some ("writing content of " +++ fmt_q (Name object)
                       +++ ", " +++ err))
          | (tarw2, _, None) => tarify_loop tarw2 rest world1
          end
      end
  end.

(** [tarify(w, objects)]; the writer [w] afterwards comes first. *)
Definition tarify (w : W) (objects : list S3Content) (world : World)
  : W * World * option string :=
  let tarw := Tar.NewWriter w in
  match tarify_loop tarw objects world with
  | (tarw1, world1, Some err) => (Tar.tw_w tarw1, world1, Some err)
  | (tarw1, world1, None) =>
      match Tar.Close tarw1 with
      | (tarw2, Some err) =>
          (Tar.tw_w tarw2, world1, Some ("closing tar buffer, " +++ err))
      | (tarw2, None) => (Tar.tw_w tarw2, world1, None)
      end
  end.

End Tarify.

(** How the process ends: [main] returns, or [fatalf] prints a
    diagnostic and calls [os.Exit(2)]. *)
Inductive Exit : Type :=
  | Returned
  | Fatal (diagnostic : string).

(** [main] from the first [fetchPath] on, for the bucket, the path
    [bktPath] inside it and the destination [tarDst] that the flags
    resolved to.  The gzip stage writes into a [bytes.Buffer], which
    never fails, so its two [fatalf] are out of reach. *)
Definition main (fuel : nat) (bkt : S3.Bucket) (bktPath tarDst : string)
           (world : World) : option (Exit * World) :=
  match fetchPath fuel bkt "" bktPath bktPath world with
  | None => None
  | Some ((_, Some err), world1) =>
      Some (Fatal ("couldn't fetch " +++ fmt_q bktPath +++ ": " +++ err +++ "."),
            world1)
  | Some ((contents, None), world1) =>
      let tarArch := Tar.NewBuffer [] in
      match tarify tarArch contents world1 with
      | (_, world2, Some err) =>
          Some (Fatal ("tarifying content, " +++ err +++ "."), world2)
      | (tarArch, world2, None) =>
          let gzipArch := gzip_compress rt (Tar.buf tarArch) in
          let world3 :=
            mkWorld (listCalls world2) (joins world2) (ticks world2)
                    (fileWrites world2 ++ [mkFileWrite tarDst gzipArch filePerms]) in
          match ioutil_WriteFile rt tarDst gzipArch filePerms with
          | Some err =>
              Some (Fatal ("writing tar/gzip buffer to " +++ fmt_q tarDst
                             +++ ", " +++ err), world3)
          | None => Some (Returned, world3)
          end
      end
  end.

End Program.

End Taring.

(** ** The benchmark command

    The [tarify] of the benchmark command is the [tarify] above with the two
    hooks of [benchkit.BenchEach] around every entry; its [TarFile] has the
    fields of [S3Content] and the same [TarHeader]. *)

Module Bench.
Import GoString Taring.

Definition TarFile : Type := S3Content.

(** [benchkit.BenchEach]: what [Before(i)] and [After(i)] do to the
    measurements taken so far. *)
Class BenchEach (K : Type) : Type := {
  Before : nat -> K -> K;
  After : nat -> K -> K
}.

Section Tarify.
Variable rt : Runtime.
Context {W : Type} `{Tar.IoWriter W} {K : Type} `{BenchEach K}.

(** The loop of [tarify] over [objects], from index [i]. *)
Fixpoint tarify_loop (i : nat) (tarw : Tar.Writer W) (objects : list TarFile)
         (world : World) (each : K)
  : Tar.Writer W * World * K * option string :=
  match objects with
  | [] => (tarw, world, each, None)
  | object :: rest =>
      let each1 := Before i each in
      let '(hdr, world1) := TarHeader rt object world in
      match Tar.WriteHeader (tar_marshal rt) tarw hdr with
      | (tarw1, Some err) =>
          (tarw1, world1, each1,
           Some ("writing header of " +++ fmt_q (Name object) +++ ", " +++ err))
      | (tarw1, None) =>
          match Tar.Write tarw1 (Data object) with
          | (tarw2, _, Some err) =>
              (tarw2, world1, each1,
               Some ("writing content of " +++ fmt_q (Name object)
                       +++ ", " +++ err))
          | (tarw2, _, None) =>
              tarify_loop (S i) tarw2 rest world1 (After i each1)
          end
      end
  end.

(** [tarify(w, objects, each)]. *)
Definition tarify (w : W) (objects : list TarFile) (each : K) (world : World)
  : W * World * K * option string :=
  let tarw := Tar.NewWriter w in
  match tarify_loop 0 tarw objects world each with
  | (tarw1, world1, each1, Some err) => (Tar.tw_w tarw1, world1, each1, Some err)
  | (tarw1, world1, each1, None) =>
      match Tar.Close tarw1 with
      | (tarw2, Some err) =>
          (Tar.tw_w tarw2, world1, each1, Some ("closing tar buffer, " +++ err))
      | (tarw2, None) => (Tar.tw_w tarw2, world1, each1, None)
      end
  end.

End Tarify.
End Bench.

(** ** Namespaces

    What the listings of a bucket look like from a starting path: a level
    with its leaf keys, its truncation flag and, per child prefix, the
    namespace below it; or a path whose listing fails. *)

Inductive Namespace : Type :=
| Level (leafKeys : list S3.Key) (truncated : bool)
  (childPrefixes : list (string * Namespace))
| Unlisted (err : string).

Section NamespaceInduction.
Variable P : Namespace -> Prop.
Hypothesis P_Level : forall ks tr ch,
  Forall (fun c => P (snd c)) ch -> P (Level ks tr ch).
Hypothesis P_Unlisted : forall e, P (Unlisted e).

Fixpoint Namespace_rect' (ns : Namespace) : P ns :=
  match ns with
  | Level ks tr ch =>
      P_Level ks tr ch
        ((fix all (l : list (string * Namespace)) : Forall (fun c => P (snd c)) l :=
            match l with
            | [] => Forall_nil _
            | c :: l' => Forall_cons c (Namespace_rect' (snd c)) (all l')
            end) ch)
  | Unlisted e => P_Unlisted e
  end.
End NamespaceInduction.

Module Walk.
Import GoString Taring.

(** The call every level makes. *)
Definition listing (bkt : S3.Bucket) (path : string) : Result S3.ListResp :=
  S3.List bkt path "/" "" 10000%Z.

(** [Listed bkt path ns]: listing [bkt] from [path] down gives [ns]. *)
Fixpoint Listed (bkt : S3.Bucket) (path : string) (ns : Namespace) {struct ns}
  : Prop :=
  match ns with
  | Unlisted e => listing bkt path = Err e
  | Level ks tr ch =>
      listing bkt path = Ok (S3.mkListResp ks (map fst ch) tr)
      /\ (fix all (l : list (string * Namespace)) : Prop :=
            match l with
            | [] => True
            | c :: l' => Listed bkt (fst c) (snd c) /\ all l'
            end) ch
  end.

Definition ListedAll (bkt : S3.Bucket) (ch : list (string * Namespace)) : Prop :=
  Forall (fun c => Listed bkt (fst c) (snd c)) ch.

(** The number of nested levels. *)
Fixpoint depth (ns : Namespace) : nat :=
  match ns with
  | Unlisted _ => 1
  | Level _ _ ch => S (fold_right (fun c d => Nat.max (depth (snd c)) d) 0 ch)
  end.

(** All leaf keys, a level's own before those of its children. *)
Fixpoint leaves (ns : Namespace) : list S3.Key :=
  match ns with
  | Unlisted _ => []
  | Level ks _ ch => ks ++ flat_map (fun c => leaves (snd c)) ch
  end.

(** The paths of the levels, parents first. *)
Fixpoint levels (path : string) (ns : Namespace) : list string :=
  match ns with
  | Unlisted _ => [path]
  | Level _ _ ch => path :: flat_map (fun c => levels (fst c) (snd c)) ch
  end.

(** No listing fails anywhere. *)
Fixpoint listable (ns : Namespace) : bool :=
  match ns with
  | Unlisted _ => false
  | Level _ _ ch => forallb (fun c => listable (snd c)) ch
  end.

(** The [List] call of a level. *)
Definition call (path : string) : S3.ListCall := S3.mkListCall path "/" "" 10000.

Definition children_levels (ch : list (string * Namespace)) : list string :=
  flat_map (fun c => levels (fst c) (snd c)) ch.

Definition children_leaves (ch : list (string * Namespace)) : list S3.Key :=
  flat_map (fun c => leaves (snd c)) ch.

(** The world after one more level join. *)
Definition joined (world : World) : World :=
  mkWorld (listCalls world) (S (joins world)) (ticks world) (fileWrites world).

(** The bucket that answers like [bkt] but never reports a truncated
    listing. *)
Definition untruncate (bkt : S3.Bucket) : S3.Bucket :=
  {| S3.List := fun prefix delim marker max =>
       match S3.List bkt prefix delim marker max with
       | Ok r => Ok (S3.mkListResp (S3.Contents r) (S3.CommonPrefixes r) false)
       | Err e => Err e
       end;
     S3.Get := S3.Get bkt |}.

Section Reference.
Variable rt : Runtime.
Variable bkt : S3.Bucket.
Variable root : string.

Definition logged (path : string) (world : World) : World :=
  mkWorld (listCalls world ++ [S3.mkListCall path "/" "" 10000])
          (joins world) (ticks world) (fileWrites world).

(** The traversal, by recursion on the namespace instead of on fuel. *)
Fixpoint walk (ns : Namespace) (prfx path : string) (world : World)
  : (list S3Content * option string) * World :=
  match ns with
  | Unlisted err =>
      (([], Some ("couldn't list bucket at path " +++ fmt_q path
                    +++ ": " +++ err)), logged path world)
  | Level ks _ ch =>
      match fetchAll rt bkt prfx root ks (logged path world) with
      | ((_, Some err), world2) =>
          (([], Some ("fetching content of keys at " +++ fmt_q path
                        +++ ", " +++ err)), world2)
      | ((contents, None), world2) =>
          (fix folders (l : list (string * Namespace))
               (contents : list S3Content) (world : World) {struct l} :=
             match l with
             | [] => ((contents, None), world)
             | c :: l' =>
                 match walk (snd c) (prfx +++ tab) (fst c) world with
                 | ((_, Some err), world') => (([], Some err), world')
                 | ((newContent, None), world') =>
                     folders l' (contents ++ newContent) world'
                 end
             end) ch contents world2
      end
  end.

(** The loop of [walk] over the children, on its own. *)
Fixpoint walk_children (l : list (string * Namespace)) (prfx : string)
         (contents : list S3Content) (world : World)
  : (list S3Content * option string) * World :=
  match l with
  | [] => ((contents, None), world)
  | c :: l' =>
      match walk (snd c) (prfx +++ tab) (fst c) world with
      | ((_, Some err), world') => (([], Some err), world')
      | ((newContent, None), world') =>
          walk_children l' prfx (contents ++ newContent) world'
      end
  end.

(** The loop of [fetchPath] over [list.CommonPrefixes], on its own. *)
Fixpoint fetch_children (fuel : nat) (l : list string) (prfx : string)
         (contents : list S3Content) (world : World)
  : option ((list S3Content * option string) * World) :=
  match l with
  | [] => Some ((contents, None), world)
  | folder :: l' =>
      match fetchPath rt fuel bkt (prfx +++ tab) root folder world with
      | None => None
      | Some ((_, Some err), world') => Some (([], Some err), world')
      | Some ((newContent, None), world') =>
          fetch_children fuel l' prfx (contents ++ newContent) world'
      end
  end.

End Reference.
End Walk.

(** ** The layout of an archive, and reading it back *)

Module Archive.
Import Taring.

(** The header blocks of a header; nothing when it cannot be encoded. *)
Definition blocks (rt : Runtime) (hdr : Tar.Header) : list byte :=
  match tar_marshal rt hdr with
  | Ok blk => blk
  | Err _ => []
  end.

(** The header [tarify] derives for the [i]-th object it writes, when the
    clock had been read [tick] times before the call. *)
Definition header (rt : Runtime) (tick i : nat) (s : S3Content) : Tar.Header :=
  fst (TarHeader rt s (mkWorld [] 0 (tick + i) [])).

(** Header blocks and payload of one entry. *)
Definition entry (rt : Runtime) (tick i : nat) (s : S3Content) : list byte :=
  blocks rt (header rt tick i s) ++ Data s.

(** Padding of one entry to the block boundary. *)
Definition padding (s : S3Content) : list byte :=
  Tar.zeros (Tar.blockPadding (List.length (Data s))).

(** The entries of [objects], each padded: the archive before its
    trailer. *)
Fixpoint body (rt : Runtime) (tick : nat) (objects : list S3Content)
  : list byte :=
  match objects with
  | [] => []
  | s :: rest => entry rt tick 0 s ++ padding s ++ body rt (S tick) rest
  end.

(** The same with the padding of the last entry still owed, which is what
    the underlying writer holds between two calls of [tarify]'s loop. *)
Fixpoint pending (rt : Runtime) (tick : nat) (objects : list S3Content)
  : list byte :=
  match objects with
  | [] => []
  | [s] => entry rt tick 0 s
  | s :: rest => entry rt tick 0 s ++ padding s ++ pending rt (S tick) rest
  end.

(** The two zero blocks that end an archive. *)
Definition trailer : list byte := Tar.zeroBlock ++ Tar.zeroBlock.

Definition is_prefix {A} (p l : list A) : Prop := exists q, l = p ++ q.

(** What the stream must hold once the entries of [l] have their headers
    and payloads written, starting with [pad] bytes of padding owed. *)
Definition lower (rt : Runtime) (tick pad : nat) (l : list S3Content) : list byte :=
  match l with
  | [] => []
  | _ :: _ => Tar.zeros pad ++ pending rt tick l
  end.

(** The entries [tarify] writes for [objects]: header and payload. *)
Fixpoint entries (rt : Runtime) (tick : nat) (objects : list S3Content)
  : list (Tar.Header * list byte) :=
  match objects with
  | [] => []
  | s :: rest => (header rt tick 0 s, Data s) :: entries rt (S tick) rest
  end.

(** The bytes of one entry: header blocks, payload, padding. *)
Definition record (rt : Runtime) (e : Tar.Header * list byte) : list byte :=
  blocks rt (fst e) ++ snd e ++ Tar.zeros (Tar.blockPadding (List.length (snd e))).

(** Objects whose headers can all be encoded, the first at clock reading
    [tick]. *)
Definition encodable (rt : Runtime) (tick : nat) (objects : list S3Content) : Prop :=
  forall i o, nth_error objects i = Some o ->
              is_ok (tar_marshal rt (header rt tick i o)) = true.

(** The tar writer between two entries: no error, nothing owed to the
    current entry, at most a block of padding owed. *)
Definition idle {W : Type} (tw : Tar.Writer W) : Prop :=
  Tar.tw_err tw = None /\ Tar.tw_nb tw = 0%Z /\ Tar.tw_pad tw <= Tar.blockSize.

(** A writer that never reports an error, like [bytes.Buffer]. *)
Definition reliable (W : Type) `{Tar.IoWriter W} : Prop :=
  forall (w : W) p, snd (Tar.io_Write w p) = None.

(** A [tarify] that failed on the header or the payload of an entry [i]
    with [err], the stream held by [w] before and by [w'] after: the stream
    has grown by the headers and payloads of the entries before [i], and by
    no more than the entries up to [i], so by less than the archive. *)
Definition Interrupted {W : Type} `{Tar.IoWriter W} (rt : Runtime) (tick : nat)
           (objects : list S3Content) (w w' : W) (err : string) : Prop :=
  exists i object e p,
    nth_error objects i = Some object
    /\ (err = "writing header of " ++ GoString.fmt_q (Name object) ++ ", " ++ e
        \/ err = "writing content of " ++ GoString.fmt_q (Name object) ++ ", " ++ e)%string
    /\ Tar.written w' = Tar.written w ++ p
    /\ is_prefix (pending rt tick (firstn i objects)) p
    /\ is_prefix p (body rt tick (firstn (S i) objects))
    /\ is_prefix p (body rt tick objects).

(** The file [main] writes for [contents], the clock having been read
    [tick] times before. *)
Definition archive_file (rt : Runtime) (tarDst : string) (tick : nat)
           (contents : list S3Content) : FileWrite :=
  mkFileWrite tarDst (gzip_compress rt (body rt tick contents ++ trailer)) filePerms.

(** An entry read back: the name and the payload of the object, and the
    length of the payload as the size. *)
Definition reads_as (o : S3Content) (e : Tar.Header * list byte) : Prop :=
  Tar.Name (fst e) = Name o
  /\ Tar.Size (fst e) = Z.of_nat (List.length (Data o))
  /\ snd e = Data o.

Definition is_zero (blk : list byte) : bool := forallb (Byte.eqb x00) blk.

Section Reader.
(** How the reader turns header blocks back into a header, leaving the
    rest of the stream. *)
Variable unmarshal : list byte -> option (Tar.Header * list byte).

(** [tar.Reader], used as [for { hdr, err := tr.Next(); ...; io.ReadAll(tr) }]:
    the headers with their payloads, or [None] for a stream that is not an
    archive.  Every entry takes bytes from the stream, so [fuel] bounds the
    entries by the length of the stream. *)
Fixpoint read_entries (fuel : nat) (s : list byte)
  : option (list (Tar.Header * list byte)) :=
  match fuel with
  | 0 => None
  | S fuel' =>
      match s with
      | [] => Some []
      | _ :: _ =>
          if List.length s <? Tar.blockSize then None
          else if is_zero (firstn Tar.blockSize s) then
            let s1 := skipn Tar.blockSize s in
            match s1 with
            | [] => Some []
            | _ :: _ =>
                if List.length s1 <? Tar.blockSize then None
                else if is_zero (firstn Tar.blockSize s1) then Some []
                else None
            end
          else
            match unmarshal s with
            | None => None
            | Some (hdr, rest) =>
                if (Tar.Size hdr <? 0)%Z then None
                else
                  let size :=
                    if Tar.isHeaderOnlyType (Tar.Typeflag hdr) then 0
                    else Z.to_nat (Tar.Size hdr) in
                  let total := size + Tar.blockPadding size in
                  if List.length rest <? total then None
                  else
                    match read_entries fuel' (skipn total rest) with
                    | None => None
                    | Some es => Some ((hdr, firstn size rest) :: es)
                    end
            end
      end
  end.

Definition untar (s : list byte) : option (list (Tar.Header * list byte)) :=
  read_entries (S (List.length s)) s.

End Reader.

(** What a reader and a writer of headers owe each other: header blocks
    are whole blocks, the first of them is not a zero block, and reading
    them back gives the name, the size and the type that were written. *)
Record Codec (marshal : Tar.Header -> Result (list byte))
       (unmarshal : list byte -> option (Tar.Header * list byte)) : Prop := {
  codec_block : forall hdr blk,
    marshal hdr = Ok blk ->
    Tar.blockSize <= List.length blk
    /\ is_zero (firstn Tar.blockSize blk) = false;
  codec_inverse : forall hdr blk rest,
    marshal hdr = Ok blk ->
    exists hdr',
      unmarshal (blk ++ rest) = Some (hdr', rest)
      /\ Tar.Name hdr' = Tar.Name hdr
      /\ Tar.Size hdr' = Tar.Size hdr
      /\ Tar.Typeflag hdr' = Tar.Typeflag hdr
}.

End Archive.

(** ** What a traversal returns, against the namespace *)

Module Order.
Import Taring.

(** [InOrder ns contents]: [contents] is the level's own objects, in some
    order, then the contents of the child prefixes, child after child in
    the order of the listing. *)
Inductive InOrder (rt : Runtime) (bkt : S3.Bucket) (root : string)
  : Namespace -> list S3Content -> Prop :=
| InOrder_Level ks tr ch own subs :
  Permutation (map Ok own) (map (doFetch rt bkt root) ks) ->
  Forall2 (fun c sub => InOrder rt bkt root (snd c) sub) ch subs ->
  InOrder rt bkt root (Level ks tr ch) (own ++ List.concat subs).


(** What a walk of [ns] from [path] that succeeds has done: the contents
    are in order, one [List] call per level was sent, parents first, every
    leaf key was fetched, and neither the clock nor the files were
    touched. *)
Record Walked (rt : Runtime) (bkt : S3.Bucket) (root : string)
       (ns : Namespace) (path : string) (world : World)
       (contents : list S3Content) (world' : World) : Prop := {
  walked_order : InOrder rt bkt root ns contents;
  walked_calls :
    listCalls world' = listCalls world ++ map Walk.call (Walk.levels path ns);
  walked_fetched :
    forallb (fun k => is_ok (doFetch rt bkt root k)) (Walk.leaves ns) = true;
  walked_ticks : ticks world' = ticks world;
  walked_files : fileWrites world' = fileWrites world
}.

(** A path element: no separator in it. *)
Fixpoint sepfree (e : string) : bool :=
  match e with
  | EmptyString => true
  | String c e' => negb (Filepath.IsPathSeparator c) && sepfree e'
  end.

(** [p] ends with a separator. *)
Fixpoint ends_sep (p : string) : bool :=
  match p with
  | EmptyString => false
  | String c p' =>
      match p' with
      | EmptyString => Filepath.IsPathSeparator c
      | String _ _ => ends_sep p'
      end
  end.

(** [p] as a directory: with a separator at its end. *)
Definition as_dir (p : string) : string :=
  if ends_sep p then p else (p ++ "/")%string.

(** [p] begins with the element [..]: it climbs out of where it starts. *)
Definition climbs (p : string) : bool :=
  String.eqb p ".." || String.prefix "../" p.

(** [lies_under root key]: after cleaning both, [key] is [root] or a path
    below it, that is, the root as a directory begins the key as a
    directory; below the root [.] (the empty root) are the relative paths
    that do not climb. *)
Definition lies_under (root key : string) : bool :=
  let b := Filepath.Clean root in
  let t := Filepath.Clean key in
  if String.eqb b "." then negb (Filepath.rooted t) && negb (climbs t)
  else String.prefix (as_dir b) (as_dir t).

End Order.

(** ** The operating system behind the runtime

    What the statements about owners and about persisted bytes need of
    the process and of the file system. *)

Module Os.
Import Taring.

(** The ids of a process: real and effective, of user and of group. *)
Record Ids : Type := mkIds {
  uid : Z;
  euid : Z;
  gid : Z;
  egid : Z
}.

(** [os.Getuid] and [os.Getgid] return the real ids of the calling
    process; the effective ones are returned by [os.Geteuid] and
    [os.Getegid], which the program does not call. *)
Definition runs_as (rt : Runtime) (p : Ids) : Prop :=
  os_Getuid rt = uid p /\ os_Getgid rt = gid p.





End Os.

(** ** A concrete runtime, a concrete bucket

    Small stand-ins for the libraries, to run the program on examples: a
    clock, a timestamp parser that knows one timestamp, goroutines that
    finish in reverse order, a header codec with the field layout of the
    classic tar header, and a compressor that stores its input behind the
    gzip magic number. *)

Module Demo.
Import GoString Taring.

Definition stamp : string := "2014-03-01T12:00:00.000Z".

Definition instant : Time := 1393675200000000000%Z.

Definition Parse (s : string) : Result Time :=
  if String.eqb s stamp then Ok instant
  else Err ("parsing time " +++ fmt_q s +++ ": cannot parse").

Definition digit (d : Z) : byte :=
  match Byte.of_N (48 + Z.to_N d) with
  | Some b => b
  | None => x00
  end.

(** [w] octal digits of [n], most significant first. *)
Fixpoint format_octal (w : nat) (n : Z) : list byte :=
  match w with
  | 0 => []
  | S w' => format_octal w' (n / 8) ++ [digit (n mod 8)]
  end.

Definition parse_octal (bs : list byte) : Z :=
  fold_left (fun acc b => (acc * 8 + (Z.of_N (Byte.to_N b) - 48))%Z) bs 0%Z.

(** The bytes up to the first NUL. *)
Fixpoint cstring (bs : list byte) : list byte :=
  match bs with
  | [] => []
  | b :: rest => if Byte.eqb b x00 then [] else b :: cstring rest
  end.

Definition nul_free (bs : list byte) : bool :=
  forallb (fun b => negb (Byte.eqb b x00)) bs.

Definition name_field (name : list byte) : list byte :=
  name ++ Tar.zeros (100 - List.length name).

Definition number_field (w : nat) (n : Z) : list byte :=
  format_octal w n ++ [x00].

Definition spaces (n : nat) : list byte := repeat x20 n.

Definition second : Z := 1000000000.

(** One header block: name, mode, uid, gid, size, mtime, checksum (left
    blank), type flag, and zeros to the end of the block. *)
Definition marshal (hdr : Tar.Header) : Result (list byte) :=
  let name := list_byte_of_string (Tar.Name hdr) in
  if negb (List.length name <=? 100) then Err "archive/tar: name too long"
  else if negb (nul_free name) then Err "archive/tar: NUL in name"
  else if negb ((0 <=? Tar.Size hdr) && (Tar.Size hdr <? 8 ^ 11))%Z
       then Err "archive/tar: size out of range"
  else
    Ok (name_field name
          ++ number_field 7 (Tar.Mode hdr)
          ++ number_field 7 (Tar.Uid hdr)
          ++ number_field 7 (Tar.Gid hdr)
          ++ number_field 11 (Tar.Size hdr)
          ++ number_field 11 (Tar.ModTime hdr / second)
          ++ spaces 8
          ++ [byte_of_ascii (Tar.Typeflag hdr)]
          ++ Tar.zeros 355).

Definition split_at {A} (n : nat) (l : list A) : list A * list A :=
  (firstn n l, skipn n l).

Definition unmarshal (s : list byte) : option (Tar.Header * list byte) :=
  if List.length s <? Tar.blockSize then None
  else
    let '(name, r1) := split_at 100 s in
    let '(mode, r2) := split_at 8 r1 in
    let '(uid, r3) := split_at 8 r2 in
    let '(gid, r4) := split_at 8 r3 in
    let '(size, r5) := split_at 12 r4 in
    let '(mtime, r6) := split_at 12 r5 in
    let '(_, r7) := split_at 8 r6 in
    let '(flag, r8) := split_at 1 r7 in
    let '(_, rest) := split_at 355 r8 in
    Some ({| Tar.Name := string_of_list_byte (cstring name);
             Tar.Size := parse_octal (firstn 11 size);
             Tar.Mode := parse_octal (firstn 7 mode);
             Tar.AccessTime := 0%Z;
             Tar.ChangeTime := 0%Z;
             Tar.ModTime := (parse_octal (firstn 11 mtime) * second)%Z;
             Tar.Typeflag := ascii_of_byte (hd x00 flag);
             Tar.Uid := parse_octal (firstn 7 uid);
             Tar.Gid := parse_octal (firstn 7 gid) |},
          rest).

Definition magic : list byte := [x1f; x8b].

Definition compress (data : list byte) : list byte := magic ++ data.

Definition gunzip (s : list byte) : option (list byte) :=
  match s with
  | x1f :: x8b :: data => Some data
  | _ => None
  end.

Definition rt : Runtime :=
  {| time_Parse := Parse;
     time_Now := fun n => (instant + Z.of_nat n * second)%Z;
     os_Getuid := 1000%Z;
     os_Getgid := 100%Z;
     completion := fun _ keys => rev keys;
     tar_marshal := marshal;
     gzip_compress := compress;
     ioutil_WriteFile := fun _ _ _ => None |}.

Definition hello : list byte := list_byte_of_string "hello".
Definition world : list byte := list_byte_of_string "world".

Definition keyX : S3.Key := S3.mkKey "x" stamp 5.
Definition keyY : S3.Key := S3.mkKey "sub/y" stamp 5.

Definition no_such_key : string := "The specified key does not exist.".

(** The bucket of the scenario: leaf [x] at the root, leaf [sub/y] under
    the child prefix [sub/]. *)
Definition bucket : S3.Bucket :=
  {| S3.List := fun prefix _ _ _ =>
       if String.eqb prefix "" then Ok (S3.mkListResp [keyX] ["sub/"] false)
       else if String.eqb prefix "sub/" then Ok (S3.mkListResp [keyY] [] false)
       else Ok (S3.mkListResp [] [] false);
     S3.Get := fun key =>
       if String.eqb key "x" then Ok hello
       else if String.eqb key "sub/y" then Ok world
       else Err no_such_key |}.

Definition namespace : Namespace :=
  Level [keyX] false [("sub/", Level [keyY] false [])].

(** A bucket with nothing under any path. *)
Definition empty_bucket : S3.Bucket :=
  {| S3.List := fun _ _ _ _ => Ok (S3.mkListResp [] [] false);
     S3.Get := fun _ => Err no_such_key |}.

(** A bucket that holds the one object [a/b.txt], listed with the
    delimiter [/]: a prefix from [a/] on that begins the key gets the key,
    a shorter one the common prefix [a/].  The prefix [a/b] begins the key
    [a/b.txt], which is not under the path [a/b]. *)
Definition stray : S3.Key := S3.mkKey "a/b.txt" stamp 5.

Definition stray_bucket : S3.Bucket :=
  {| S3.List := fun prefix _ _ _ =>
       if String.prefix "a/" prefix && String.prefix prefix "a/b.txt"
       then Ok (S3.mkListResp [stray] [] false)
       else if String.prefix prefix "a/"
            then Ok (S3.mkListResp [] ["a/"] false)
            else Ok (S3.mkListResp [] [] false);
     S3.Get := fun key =>
       if String.eqb key "a/b.txt" then Ok hello else Err no_such_key |}.

(** A bucket with one key whose timestamp does not parse and one that
    cannot be fetched. *)
Definition keyBad : S3.Key := S3.mkKey "bad" "yesterday" 5.
Definition keyGone : S3.Key := S3.mkKey "gone" stamp 5.

Definition faulty_bucket : S3.Bucket :=
  {| S3.List := fun _ _ _ _ => Ok (S3.mkListResp [keyX; keyBad; keyGone] [] false);
     S3.Get := fun key => if String.eqb key "x" then Ok hello else Err no_such_key |}.

(** A bucket whose listing is the first page of a longer one: [x] is
    reported, [z] is in the store but beyond the page. *)
Definition truncated_bucket : S3.Bucket :=
  {| S3.List := fun _ _ _ _ => Ok (S3.mkListResp [keyX] [] true);
     S3.Get := fun key =>
       if String.eqb key "x" then Ok hello
       else if String.eqb key "z" then Ok world
       else Err no_such_key |}.

(** A sink with room for 600 bytes. *)
Definition sink : Tar.Limited := Tar.mkLimited [] 600.

(** Hooks of a benchmark that counts its calls. *)
#[global] Instance counting : Bench.BenchEach nat :=
  {| Bench.Before := fun _ n => S n; Bench.After := fun _ n => S n |}.

(** A process that runs a set-uid root binary: real ids those of [rt],
    effective ids 0. *)
Definition setuid : Os.Ids := Os.mkIds 1000 0 100 0.




Definition objX : S3Content := mkS3Content "x" instant hello.
Definition objY : S3Content := mkS3Content "sub/y" instant world.

End Demo.


(** ** The command line of the main command

    [main] of [taring.go] before the pipeline: the five flags, their
    checks, the URL of the bucket. *)

Module Cli.
Import GoString Taring.

(** The flags after [flag.Parse()]. *)
Record Flags : Type := mkFlags {
  awsSecret : string;
  awsAccess : string;
  awsRegion : string;
  bucketSrc : string;
  tarDst : string
}.

(** [url.URL], with the fields [main] reads. *)
Record URL : Type := mkURL {
  Host : string;
  Path : string
}.

(** An [aws.Region], by its name. *)
Definition Region : Type := string.

(** What [main] gets from [aws], [url] and [s3]:
    - [aws_Regions name] is the lookup [aws.Regions[name]];
    - [url_Parse s] is [url.Parse(s)];
    - [s3_Bucket access secret region name] is
      [s3.New(auth, region).Bucket(name)]. *)
Record Env : Type := mkEnv {
  aws_Regions : string -> option Region;
  url_Parse : string -> Result URL;
  s3_Bucket : string -> string -> Region -> string -> S3.Bucket
}.

(** A line feed. *)
Definition nl : string := str1 (ascii_of_nat 10).

(** How the process ends: [fatalFlag] prints a message and the flag
    defaults and exits; the run-time panic of a slice out of bounds; or
    the ways of [Taring.Exit]. *)
Inductive Outcome : Type :=
| FlagError (msg : string)
| Panic
| Ended (e : Exit).

(** [(u *URL).Parse("/")]: the reference [/] resolved against [u] keeps
    the host of [u]. *)
Definition URL_Parse_root (u : URL) : Result URL := Ok (mkURL (Host u) "/").

(** [must(u, err)]. *)
Definition must {A} (r : Result URL) (k : URL -> option (Outcome * A)) (a : A)
  : option (Outcome * A) :=
  match r with
  | Err err => Some (Ended (Fatal ("not a URL, " +++ err)), a)
  | Ok u => k u
  end.

(** [main]. *)
Definition main (env : Env) (rt : Runtime) (fuel : nat) (flags : Flags)
           (world : World) : option (Outcome * World) :=
  let region := aws_Regions env (awsRegion flags) in
  if String.eqb (awsAccess flags) "" then
    Some (FlagError ("need an AWS access key." +++ nl), world)
  else if String.eqb (awsSecret flags) "" then
    Some (FlagError ("need an AWS secret key." +++ nl), world)
  else
    match region with
    | None =>
        Some (FlagError ("need a valid AWS region, " +++ fmt_q (awsRegion flags)
                           +++ " is not a valid one." +++ nl), world)
    | Some region =>
        if String.eqb (bucketSrc flags) "" then
          Some (FlagError ("need bucket path to read from." +++ nl), world)
        else if String.eqb (tarDst flags) "" then
          Some (FlagError ("need filepath to write TAR archive to." +++ nl), world)
        else
          must (url_Parse env (bucketSrc flags))
               (fun bktURL =>
                  must (URL_Parse_root bktURL)
                       (fun bktRoot =>
                          let bktName := Host bktRoot in
                          if String.length (Path bktURL) <? 1 then
                            Some (Panic, world)
                          else
                            let bktPath := slice_from (Path bktURL) 1 in
                            let bkt := s3_Bucket env (awsAccess flags) (awsSecret flags)
                                                 region bktName in
                            match Taring.main rt fuel bkt bktPath (tarDst flags) world with
                            | None => None
                            | Some (e, world') => Some (Ended e, world')
                            end)
                       world)
               world
    end.

End Cli.

(** ** The benchmark command, around its [tarify] *)

Module Benchmark.
Import GoString Taring.

(** [ioutil.Discard]: [Write] takes everything and keeps nothing; [taken]
    is the bytes that went into it, kept here to speak about them. *)
Record Discard : Type := mkDiscard { taken : list byte }.

Definition Discard_Write (d : Discard) (p : list byte)
  : Discard * nat * option string :=
  (mkDiscard (taken d ++ p), List.length p, None).

#[global] Instance Discard_IoWriter : Tar.IoWriter Discard :=
  {| Tar.io_Write := Discard_Write; Tar.written := taken |}.

(** The [dst] of [main]: [ioutil.Discard] or a [bytes.Buffer]. *)
Inductive Dst : Type :=
| ToDiscard (d : Discard)
| ToBuffer (b : Tar.Buffer).

Definition Dst_Write (dst : Dst) (p : list byte) : Dst * nat * option string :=
  match dst with
  | ToDiscard d => let '(d', n, e) := Discard_Write d p in (ToDiscard d', n, e)
  | ToBuffer b => let '(b', n, e) := Tar.Buffer_Write b p in (ToBuffer b', n, e)
  end.

Definition Dst_written (dst : Dst) : list byte :=
  match dst with
  | ToDiscard d => taken d
  | ToBuffer b => Tar.buf b
  end.

#[global] Instance Dst_IoWriter : Tar.IoWriter Dst :=
  {| Tar.io_Write := Dst_Write; Tar.written := Dst_written |}.

(** [benchkit.BenchKit] over the measurements [K]; [Each()] gives the
    hooks of [Bench.BenchEach] on the same measurements. *)
Class BenchKit (K : Type) `{Bench.BenchEach K} : Type := {
  Setup : K -> K;
  Starting : K -> K;
  Teardown : K -> K
}.

(** [int(size)] for a [uint64], on a 64-bit platform. *)
Definition int_of_uint64 (u : Z) : Z :=
  if (u <? 2 ^ 63)%Z then u else (u - 2 ^ 64)%Z.

(** A slice of [size] zero bytes after [rand.Read] has put [r] into it. *)
Definition filled (size : nat) (r : list byte) : list byte :=
  firstn size (r ++ Tar.zeros size).

(** The hooks of the entries [i], [i+1], ..., [i+count-1], each written in
    full. *)
Fixpoint hooks {K : Type} `{Bench.BenchEach K} (count i : nat) (each : K) : K :=
  match count with
  | 0 => each
  | S count' => hooks count' (S i) (Bench.After i (Bench.Before i each))
  end.

(** An entry with its padding takes [padded] bytes after its header. *)
Definition padded (size : nat) : nat := size + Tar.blockPadding size.

Section Benchmark.
Variable rt : Runtime.

(** What the [k]-th call of [rand.Read] puts into a slice of the given
    length. *)
Variable rand_Read : nat -> nat -> list byte.

(** Whether the runtime grants the memory of a [make]: [make] panics on
    a negative length, and also ([makeslice: len out of range]) on a
    length above the limit of the allocator, and the process dies when the
    memory is not there.  [make_files n] is the outcome of
    [make([]TarFile, n)] and [make_bytes k size] that of the
    [make([]byte, size)] of the [k]-th file made, for lengths that are not
    negative. *)
Variable make_files : Z -> bool.
Variable make_bytes : nat -> Z -> bool.

(** [humanize.ParseBytes], into a [uint64]. *)
Variable ParseBytes : string -> Result Z.

(** [GenTarFile(id, size)], at the [seed]-th call of [rand.Read], which is
    the [seed]-th file made; [None] is the process dying in [make], on a
    negative length or on one the runtime does not grant.  The clock is
    read once, for [LastMod]; [ticks] counts the readings that end up in a
    file or a header, here and in [TarHeader]. *)
Definition GenTarFile (id : nat) (size : Z) (seed : nat) (world : World)
  : option (Bench.TarFile * nat * World) :=
  if (size <? 0)%Z || negb (make_bytes seed size) then None
  else
    let data := filled (Z.to_nat size) (rand_Read seed (Z.to_nat size)) in
    Some ({| Name := fmt_d id;
             LastMod := time_Now rt (ticks world);
             Data := data |},
          S seed,
          mkWorld (listCalls world) (joins world) (S (ticks world))
                  (fileWrites world)).

(** The loop of [GenTarFiles] over the [count] places from [i] on. *)
Fixpoint gen_loop (count i : nat) (size : Z) (seed : nat) (world : World)
  : option (list Bench.TarFile * nat * World) :=
  match count with
  | 0 => Some ([], seed, world)
  | S count' =>
      match GenTarFile i size seed world with
      | None => None
      | Some (file, seed1, world1) =>
          match gen_loop count' (S i) size seed1 world1 with
          | None => None
          | Some (files, seed2, world2) => Some (file :: files, seed2, world2)
          end
      end
  end.

(** [GenTarFiles(n, size)]; [None] is the process dying in a [make], its
    own or one of [GenTarFile]. *)
Definition GenTarFiles (n size : Z) (seed : nat) (world : World)
  : option (list Bench.TarFile * nat * World) :=
  if (n <? 0)%Z || negb (make_files n) then None
  else gen_loop (Z.to_nat n) 0 size seed world.

Section Kit.
Context {W : Type} `{Tar.IoWriter W}.
Context {K : Type} `{Bench.BenchEach K} `{!BenchKit K}.

(** [benchmarkTar(n, size, dst, bench)]: the writer, the world, the
    measurements and the seed afterwards, and the error of [tarify]. *)
Definition benchmarkTar (n size : Z) (dst : W) (bench : K) (seed : nat)
           (world : World) : option (W * World * K * nat * option string) :=
  let bench1 := Setup bench in
  match GenTarFiles n size seed world with
  | None => None
  | Some (files, seed1, world1) =>
      let bench2 := Starting bench1 in
      let '(dst', world2, bench3, err) :=
        Bench.tarify rt dst files bench2 world1 in
      Some (dst', world2, Teardown bench3, seed1, err)
  end.

End Kit.

(** How the benchmark ends before it plots: a flag is refused, the
    process dies in a [make] of [GenTarFiles], [tarify] fails, or the
    measurements are there. *)
Inductive Outcome (K : Type) : Type :=
| FlagError (msg : string)
| Panic
| Fatal (msg : string)
| Measured (results : K) (dst : Dst).

(** [main] down to the return of [doBenchmark], for the flags [-n],
    [-size] and [-discard] and the measurements [kit] that
    [benchkit.Memory(n)] has returned. *)
Definition main {K : Type} `{Bench.BenchEach K} `{!BenchKit K}
           (n : Z) (sizeStr : string) (discard : bool) (kit : K)
           (seed : nat) (world : World) : Outcome K :=
  match ParseBytes sizeStr with
  | Err err => FlagError K ("flag -size must be a valid byte size: " +++ err)
  | Ok size =>
      if (n <=? 0)%Z then
        FlagError K "flag -n must specify at least 1 file to tar"
      else if (size <=? 0)%Z then
        FlagError K "flag -size must specify at least 1 byte per file"
      else
        let dst := if discard then ToDiscard (mkDiscard [])
                   else ToBuffer (Tar.NewBuffer []) in
        match benchmarkTar n (int_of_uint64 size) dst kit seed world with
        | None => Panic K
        | Some (_, _, _, _, Some err) => Fatal K ("failed to benchmark: " +++ err)
        | Some (dst', _, results, _, None) => Measured K results dst'
        end
  end.

End Benchmark.

Arguments FlagError {K} msg.
Arguments Panic {K}.
Arguments Fatal {K} msg.
Arguments Measured {K} results dst.

End Benchmark.

(** ** Concrete pieces for the two command lines *)

Module Demo2.
Import GoString Taring.

(** The regions [us-east-1] and [eu-west-1]. *)
Definition Regions (name : string) : option Cli.Region :=
  if String.eqb name "us-east-1" then Some "us-east-1"
  else if String.eqb name "eu-west-1" then Some "eu-west-1"
  else None.

(** A parser of URLs that knows three of them. *)
Definition Parse (s : string) : Result Cli.URL :=
  if String.eqb s "s3://mybucket/" then Ok (Cli.mkURL "mybucket" "/")
  else if String.eqb s "s3://mybucket" then Ok (Cli.mkURL "mybucket" "")
  else if String.eqb s "s3://mybucket/sub/" then Ok (Cli.mkURL "mybucket" "/sub/")
  else Err ("parse " +++ s +++ ": invalid URI for request").

Definition env : Cli.Env :=
  {| Cli.aws_Regions := Regions;
     Cli.url_Parse := Parse;
     Cli.s3_Bucket := fun _ _ _ _ => Demo.bucket |}.

Definition flags (src : string) : Cli.Flags :=
  Cli.mkFlags "secret" "access" "us-east-1" src "bucket.tar.gz".

(** A source of bytes that counts. *)
Definition rand_Read (seed n : nat) : list byte :=
  repeat (match Byte.of_nat (S seed) with Some b => b | None => x01 end) n.

(** A runtime that grants a million files and payloads up to a
    gibibyte. *)
Definition make_files (n : Z) : bool := (n <=? 2 ^ 20)%Z.
Definition make_bytes (k : nat) (size : Z) : bool := (size <=? 2 ^ 30)%Z.

(** A parser of sizes that knows five of them. *)
Definition ParseBytes (s : string) : Result Z :=
  if String.eqb s "5" then Ok 5%Z
  else if String.eqb s "0" then Ok 0%Z
  else if String.eqb s "1kB" then Ok 1000%Z
  else if String.eqb s "4EiB" then Ok (2 ^ 62)%Z
  else if String.eqb s "8EiB" then Ok (2 ^ 63)%Z
  else Err ("strconv.ParseFloat: parsing " +++ fmt_q s +++ ": invalid syntax").

(** A kit that counts its calls, with the hooks of [Demo.counting]. *)
#[global] Instance kit : Benchmark.BenchKit nat :=
  {| Benchmark.Setup := S; Benchmark.Starting := S; Benchmark.Teardown := S |}.

End Demo2.

(** * Properties *)

(** ** Rooted paths through [Clean] and [Rel] *)

Module FilepathFacts.
Import GoString Filepath.

Lemma rooted_app a b :
  rooted (a ++ b) = match a with EmptyString => rooted b | String _ _ => rooted a end.
Proof. destruct a; reflexivity. Qed.

Lemma rooted_substring0 k s : rooted s = false -> rooted (substring 0 k s) = false.
Proof. intros Hs. destruct s as [|c s], k as [|k]; simpl in *; auto. Qed.

Lemma rooted_substring0_pos k s :
  rooted s = true -> rooted (substring 0 (S k) s) = true.
Proof. intros Hs. destruct s as [|c s]; simpl in *; [discriminate|exact Hs]. Qed.

Lemma backtrack_ge out dotdot w : dotdot <= w -> dotdot <= backtrack out dotdot w.
Proof.
  induction w as [|w IH]; intros Hle; simpl; [lia|].
  destruct (dotdot <? S w) eqn:E; simpl; [|lia].
  destruct (negb (IsPathSeparator (at_ out (S w)))); [|lia].
  apply IH. apply Nat.ltb_lt in E. lia.
Qed.

Lemma copy_element_unrooted k path :
  forall r out,
    rooted out = false -> rooted (snd (copy_element k path r out)) = false.
Proof.
  induction k as [|k IH]; intros r out Hout; simpl; [exact Hout|].
  destruct ((r <? String.length path) && negb (IsPathSeparator (at_ path r))) eqn:E;
    [|exact Hout].
  apply IH. rewrite rooted_app. destruct out; [|exact Hout].
  simpl. apply andb_prop in E. destruct E as [_ E]. now apply negb_true_iff in E.
Qed.

Lemma copy_element_rooted k path :
  forall r out,
    rooted out = true -> rooted (snd (copy_element k path r out)) = true.
Proof.
  induction k as [|k IH]; intros r out Hout; simpl; [exact Hout|].
  destruct ((r <? String.length path) && negb (IsPathSeparator (at_ path r)));
    [|exact Hout].
  apply IH. rewrite rooted_app. destruct out; [discriminate|exact Hout].
Qed.

(** The loop of [Clean] on a relative path never writes a leading
    separator. *)
Lemma clean_loop_unrooted fuel path :
  forall r out dotdot,
    rooted out = false ->
    rooted (clean_loop fuel path false r out dotdot) = false.
Proof.
  induction fuel as [|fuel IH]; intros r out dotdot Hout; simpl; [exact Hout|].
  destruct (r <? String.length path); [|exact Hout].
  destruct (IsPathSeparator (at_ path r)) eqn:Esep; [now apply IH|].
  destruct (Ascii.eqb (at_ path r) dot
            && ((r + 1 =? String.length path) || IsPathSeparator (at_ path (r + 1))));
    [now apply IH|].
  destruct (Ascii.eqb (at_ path r) dot && Ascii.eqb (at_ path (r + 1)) dot
            && ((r + 2 =? String.length path) || IsPathSeparator (at_ path (r + 2)))).
  - destruct (dotdot <? String.length out).
    + apply IH. unfold slice. now apply rooted_substring0.
    + simpl. apply IH. destruct out as [|c out]; simpl; [reflexivity|exact Hout].
  - simpl.
    destruct (copy_element (String.length path - r) path r
                (if negb (String.length out =? 0) then (out ++ str1 Separator)%string
                 else out)) as [r' out2] eqn:Ec.
    apply IH. change out2 with (snd (r', out2)). rewrite <- Ec.
    apply copy_element_unrooted.
    destruct out as [|c out]; simpl; [reflexivity|exact Hout].
Qed.

(** On an absolute path it keeps the leading separator. *)
Lemma clean_loop_rooted fuel path :
  forall r out dotdot,
    rooted out = true -> 1 <= dotdot ->
    rooted (clean_loop fuel path true r out dotdot) = true.
Proof.
  induction fuel as [|fuel IH]; intros r out dotdot Hout Hdd; simpl; [exact Hout|].
  destruct (r <? String.length path); [|exact Hout].
  destruct (IsPathSeparator (at_ path r)) eqn:Esep; [now apply IH|].
  destruct (Ascii.eqb (at_ path r) dot
            && ((r + 1 =? String.length path) || IsPathSeparator (at_ path (r + 1))));
    [now apply IH|].
  destruct (Ascii.eqb (at_ path r) dot && Ascii.eqb (at_ path (r + 1)) dot
            && ((r + 2 =? String.length path) || IsPathSeparator (at_ path (r + 2)))).
  - destruct (dotdot <? String.length out) eqn:Edd.
    + apply IH; [|exact Hdd]. unfold slice.
      apply Nat.ltb_lt in Edd.
      pose proof (backtrack_ge out dotdot (String.length out - 1) ltac:(lia)) as Hb.
      destruct (backtrack out dotdot (String.length out - 1)) as [|w']; [lia|].
      rewrite Nat.sub_0_r. now apply rooted_substring0_pos.
    + simpl. now apply IH.
  - simpl.
    destruct (copy_element (String.length path - r) path r
                (if negb (String.length out =? 1) || false
                 then (out ++ str1 Separator)%string else out)) as [r' out2] eqn:Ec.
    apply IH; [|exact Hdd]. change out2 with (snd (r', out2)). rewrite <- Ec.
    apply copy_element_rooted.
    destruct (negb (String.length out =? 1) || false); [|exact Hout].
    rewrite rooted_app. destruct out; [discriminate|exact Hout].
Qed.

(** [Clean] keeps a path absolute or relative. *)
Lemma Clean_rooted path : rooted (Clean path) = rooted path.
Proof.
  unfold Clean. destruct path as [|c path]; [reflexivity|].
  change (String.eqb (String c path) "") with false. cbv iota.
  change (at_ (String c path) 0) with c. change (rooted (String c path)) with (IsPathSeparator c).
  destruct (IsPathSeparator c) eqn:Ec.
  - pose proof (clean_loop_rooted (String.length (String c path)) (String c path)
                                  1 (str1 Separator) 1 eq_refl (le_n 1)) as Hr.
    destruct (clean_loop _ _ true 1 (str1 Separator) 1) as [|d out]; [discriminate|].
    exact Hr.
  - pose proof (clean_loop_unrooted (String.length (String c path)) (String c path)
                                    0 "" 0 eq_refl) as Hr.
    destruct (clean_loop _ _ false 0 "" 0) as [|d out]; [reflexivity|exact Hr].
Qed.

Lemma slashed_rooted s :
  (0 <? String.length s) && Ascii.eqb (at_ s 0) Separator = rooted s.
Proof. destruct s; reflexivity. Qed.

(** [Rel] refuses to relate an absolute path and a relative one. *)
Lemma Rel_rooted_mismatch basepath targpath :
  rooted basepath <> rooted targpath ->
  Rel basepath targpath = Err (rel_error basepath targpath).
Proof.
  intros Hne. unfold Rel.
  pose proof (Clean_rooted basepath) as Hb. pose proof (Clean_rooted targpath) as Ht.
  destruct (String.eqb (Clean targpath) (Clean basepath)) eqn:E.
  { apply String.eqb_eq in E. rewrite E in Ht. congruence. }
  rewrite !slashed_rooted.
  assert (Hb' : rooted (if String.eqb (Clean basepath) "." then "" else Clean basepath)
                = rooted basepath).
  { destruct (String.eqb (Clean basepath) ".") eqn:Ed; [|exact Hb].
    apply String.eqb_eq in Ed. rewrite Ed in Hb. exact Hb. }
  rewrite Hb', Ht.
  destruct (rooted basepath), (rooted targpath); try reflexivity; congruence.
Qed.

End FilepathFacts.

(** ** Relative paths that leave their base *)

Module RelFacts.
Import GoString Filepath Order FilepathFacts.

Lemma length_append (a b : string) :
  String.length (a ++ b) = String.length a + String.length b.
Proof. induction a as [|c a IH]; simpl; [reflexivity|now rewrite IH]. Qed.

Lemma app_assoc_s (a b c : string) : ((a ++ b) ++ c = a ++ b ++ c)%string.
Proof. induction a as [|x a IH]; simpl; [reflexivity|now rewrite IH]. Qed.

Lemma app_nil_r_s (a : string) : (a ++ "" = a)%string.
Proof. induction a as [|x a IH]; simpl; [reflexivity|now rewrite IH]. Qed.

Lemma at_app (pre : string) c r : at_ (pre ++ String c r) (String.length pre) = c.
Proof. unfold at_. induction pre as [|x pre IH]; simpl; [reflexivity|exact IH]. Qed.

Lemma substring_0_app (e r : string) : substring 0 (String.length e) (e ++ r) = e.
Proof.
  induction e as [|c e IH]; simpl; [now destruct r|now rewrite IH].
Qed.

Lemma substring_mid (pre e r : string) :
  substring (String.length pre) (String.length e) (pre ++ e ++ r) = e.
Proof. induction pre as [|x pre IH]; simpl; [apply substring_0_app|exact IH]. Qed.

Lemma substring_whole (s : string) : substring 0 (String.length s) s = s.
Proof. rewrite <- (app_nil_r_s s) at 2. apply substring_0_app. Qed.

Lemma prefix_append (a b : string) : String.prefix a (a ++ b) = true.
Proof.
  induction a as [|c a IH]; simpl; [now destruct b|].
  destruct (ascii_dec c c) as [_|N]; [exact IH|now elim N].
Qed.

Lemma prefix_same (a : string) : String.prefix a a = true.
Proof. rewrite <- (app_nil_r_s a) at 2. apply prefix_append. Qed.

Lemma ends_sep_app pre c r :
  ends_sep (pre ++ String c r) = ends_sep (String c r).
Proof.
  assert (Hcons : forall x s, s <> "" -> ends_sep (String x s) = ends_sep s)
    by (intros x [|d s] Hs; [now elim Hs|reflexivity]).
  induction pre as [|x pre IH]; [reflexivity|].
  change ((String x pre ++ String c r)%string) with (String x (pre ++ String c r)).
  rewrite Hcons by (destruct pre; discriminate). exact IH.
Qed.

Lemma ends_sep_sepfree e :
  sepfree e = true -> ends_sep e = false.
Proof.
  induction e as [|c e IH]; [reflexivity|].
  simpl. intros H. apply andb_prop in H. destruct H as [Hc He].
  destruct e as [|d e]; [now apply negb_true_iff|]. now apply IH.
Qed.

(** A path that ends with a non-empty element and not with a separator. *)
Lemma as_dir_element pre e :
  e <> "" -> sepfree e = true -> as_dir (pre ++ e) = (pre ++ e ++ "/")%string.
Proof.
  intros Hne He. unfold as_dir. destruct e as [|c e]; [now elim Hne|].
  rewrite ends_sep_app, (ends_sep_sepfree _ He). now rewrite app_assoc_s.
Qed.

Lemma as_dir_sep_ends pre : ends_sep (pre ++ "/") = true.
Proof. now rewrite ends_sep_app. Qed.

Lemma as_dir_sep pre : as_dir (pre ++ "/") = (pre ++ "/")%string.
Proof. unfold as_dir. now rewrite ends_sep_app. Qed.

Lemma prefix_as_dir a b : String.prefix a (as_dir (a ++ b)) = true.
Proof.
  unfold as_dir. destruct (ends_sep (a ++ b)); [apply prefix_append|].
  rewrite app_assoc_s. apply prefix_append.
Qed.

(** A string is an element followed by nothing or by a separator. *)
Lemma span s :
  exists e r, s = (e ++ r)%string /\ sepfree e = true
              /\ (r = "" \/ exists r', r = String Separator r').
Proof.
  induction s as [|c s IH].
  - exists "", "". auto.
  - destruct (IsPathSeparator c) eqn:Ec.
    + exists "", (String c s). split; [reflexivity|]. split; [reflexivity|].
      right. exists s. unfold IsPathSeparator in Ec.
      apply Ascii.eqb_eq in Ec. now subst c.
    + destruct IH as (e & r & -> & He & Hr).
      exists (String c e), r. split; [reflexivity|]. split; [|exact Hr].
      simpl. now rewrite Ec.
Qed.

Lemma scan_element_spec e :
  forall pre r k,
    sepfree e = true ->
    (r = "" \/ exists r', r = String Separator r') ->
    String.length e <= k ->
    scan_element k (pre ++ e ++ r) (String.length pre)
    = String.length pre + String.length e.
Proof.
  induction e as [|c e IH]; intros pre r k He Hr Hk.
  - simpl. rewrite Nat.add_0_r. destruct k as [|k]; [reflexivity|].
    simpl. destruct Hr as [->|(r' & ->)].
    + rewrite app_nil_r_s, Nat.ltb_irrefl. reflexivity.
    + rewrite at_app. unfold Separator. rewrite Ascii.eqb_refl.
      now rewrite andb_false_r.
  - simpl in He. apply andb_prop in He. destruct He as [Hc He].
    destruct k as [|k]; [simpl in Hk; lia|].
    cbn [scan_element].
    change ((String c e ++ r)%string) with (String c (e ++ r)).
    rewrite at_app.
    assert (Hlt : (String.length pre <? String.length (pre ++ String c (e ++ r))) = true).
    { apply Nat.ltb_lt. rewrite length_append. simpl. lia. }
    rewrite Hlt. unfold IsPathSeparator in Hc. rewrite Hc. cbn [andb].
    replace (pre ++ String c (e ++ r))%string with ((pre ++ str1 c) ++ e ++ r)%string
      by (rewrite app_assoc_s; reflexivity).
    replace (S (String.length pre)) with (String.length (pre ++ str1 c))
      by (rewrite length_append; simpl; lia).
    rewrite (IH (pre ++ str1 c)%string r k He Hr) by (simpl in Hk; lia).
    rewrite length_append. simpl. lia.
Qed.

(** Settles the comparisons of indices in [H]. *)
Ltac ltb_lia H :=
  repeat match type of H with
         | context [?a <? ?b] =>
             first [ replace (a <? b) with true in H
                       by (symmetry; apply Nat.ltb_lt; lia)
                   | replace (a <? b) with false in H
                       by (symmetry; apply Nat.ltb_ge; lia) ]
         end.

Lemma rel_loop_done fuel base targ b0 bi t0 ti :
  (bi <? String.length base) && (ti <? String.length targ) = false ->
  rel_loop fuel base targ b0 bi t0 ti = (b0, bi, t0, ti).
Proof. intros H. destruct fuel; [reflexivity|]. cbn [rel_loop]. now rewrite H. Qed.

(** When the loop of [Rel] has gone through the whole of the base, the
    base as a directory begins the target as a directory. *)
Lemma rel_loop_under fuel :
  forall pre bs ts b0 bi t0 ti,
    pre = "" \/ ends_sep pre = true ->
    rel_loop fuel (pre ++ bs) (pre ++ ts)
             (String.length pre) (String.length pre)
             (String.length pre) (String.length pre) = (b0, bi, t0, ti) ->
    b0 = String.length (pre ++ bs) ->
    (pre ++ bs)%string = ""
    \/ String.prefix (as_dir (pre ++ bs)) (as_dir (pre ++ ts)) = true.
Proof.
  assert (Hstop : forall pre bs ts,
             pre = "" \/ ends_sep pre = true ->
             String.length pre = String.length (pre ++ bs) ->
             (pre ++ bs)%string = ""
             \/ String.prefix (as_dir (pre ++ bs)) (as_dir (pre ++ ts)) = true).
  { intros pre bs ts Hpre Hlen. rewrite length_append in Hlen.
    assert (bs = "") by (destruct bs; [reflexivity|simpl in Hlen; lia]). subst bs.
    rewrite app_nil_r_s. destruct Hpre as [->|Hpre]; [now left|right].
    unfold as_dir at 1. rewrite Hpre. apply prefix_as_dir. }
  induction fuel as [|fuel IH]; intros pre bs ts b0 bi t0 ti Hpre E Hb0.
  { simpl in E. injection E as <- _ _ _. now apply Hstop. }
  cbn [rel_loop] in E.
  destruct ((String.length pre <? String.length (pre ++ bs))
            && (String.length pre <? String.length (pre ++ ts))) eqn:Hc.
  2:{ injection E as <- _ _ _. now apply Hstop. }
  apply andb_prop in Hc. destruct Hc as [Hcb Hct].
  apply Nat.ltb_lt in Hcb, Hct. rewrite length_append in Hcb, Hct.
  destruct (span bs) as (eb & rb & -> & Heb & Hrb).
  destruct (span ts) as (et & rt & -> & Het & Hrt).
  rewrite !length_append in E.
  rewrite (scan_element_spec eb pre rb _ Heb Hrb) in E by lia.
  rewrite (scan_element_spec et pre rt _ Het Hrt) in E by lia.
  unfold slice in E.
  replace (String.length pre + String.length et - String.length pre)
    with (String.length et) in E by lia.
  replace (String.length pre + String.length eb - String.length pre)
    with (String.length eb) in E by lia.
  rewrite !substring_mid in E.
  destruct (String.eqb et eb) eqn:Ee; cbn [negb] in E.
  2:{ injection E as <- _ _ _. rewrite !length_append in Hb0. rewrite length_append in Hcb. exfalso. lia. }
  apply String.eqb_eq in Ee. subst et. rename eb into e.
  assert (Hbne : e <> "" \/ rb <> "").
  { destruct e; [|left; discriminate]. destruct rb; [|right; discriminate].
    simpl in Hcb. exfalso. lia. }
  destruct Hrb as [->|(rb' & ->)], Hrt as [->|(rt' & ->)].
  - (* both at their end *)
    right. apply prefix_same.
  - (* the base is at its end *)
    right. destruct Hbne as [Hne|Hne]; [|now elim Hne].
    rewrite app_nil_r_s, (as_dir_element pre e Hne Heb).
    replace (pre ++ e ++ String Separator rt')%string
      with ((pre ++ e ++ "/") ++ rt')%string
      by (rewrite !app_assoc_s; reflexivity).
    apply prefix_as_dir.
  - (* the target is at its end *)
    rewrite app_nil_r_s in *.
    assert (Hne : e <> "") by (destruct e; [simpl in Hct; lia|discriminate]).
    simpl String.length in E. ltb_lia E.
    rewrite rel_loop_done in E.
    2:{ rewrite !length_append. rewrite Nat.ltb_irrefl. apply andb_false_r. }
    injection E as <- _ _ _. rewrite !length_append in Hb0. simpl in Hb0.
    assert (rb' = "") by (destruct rb'; [reflexivity|simpl in Hb0; lia]). subst rb'.
    right. rewrite (as_dir_element pre e Hne Heb).
    replace (pre ++ e ++ String Separator "")%string with ((pre ++ e) ++ "/")%string
      by (rewrite app_assoc_s; reflexivity).
    rewrite as_dir_sep, app_assoc_s. apply prefix_same.
  - (* both go on *)
    simpl String.length in E. ltb_lia E.
    replace (pre ++ e ++ String Separator rb')%string
      with ((pre ++ e ++ "/") ++ rb')%string in *
      by (rewrite !app_assoc_s; reflexivity).
    replace (pre ++ e ++ String Separator rt')%string
      with ((pre ++ e ++ "/") ++ rt')%string in *
      by (rewrite !app_assoc_s; reflexivity).
    replace (String.length pre + String.length e + 1)
      with (String.length (pre ++ e ++ "/")) in E
      by (rewrite !length_append; simpl; lia).
    refine (IH _ _ _ _ _ _ _ (or_intror _) E Hb0).
    rewrite <- app_assoc_s. apply as_dir_sep_ends.
Qed.

Lemma Clean_nonempty path : Clean path <> "".
Proof.
  unfold Clean. destruct (String.eqb path ""); [discriminate|].
  match goal with |- (if String.length ?o =? 0 then _ else _) <> _ =>
    destruct (String.length o =? 0) eqn:E; [discriminate|];
    intros H; rewrite H in E; discriminate E
  end.
Qed.

Lemma climbs_updirs n (more : bool) rest :
  climbs (".." ++ updirs n ++ (if more then str1 Separator ++ rest else ""))%string
  = true.
Proof.
  assert (Hc : forall r, climbs ("../" ++ r) = true)
    by (intros r; unfold climbs; rewrite prefix_append; apply orb_true_r).
  destruct n as [|n]; [destruct more; [|reflexivity]|]; apply (Hc _).
Qed.

(** A target that does not lie under the base is given, when [Rel] gives
    it a name at all, a name that begins with the element [..]. *)
Lemma Rel_outside basepath targpath name :
  Rel basepath targpath = Ok name ->
  lies_under basepath targpath = false ->
  climbs name = true.
Proof.
  unfold Rel, lies_under.
  set (b := Clean basepath). set (t := Clean targpath).
  destruct (String.eqb t b) eqn:E1.
  { apply String.eqb_eq in E1. rewrite E1. intros _.
    destruct (String.eqb b ".") eqn:Ed.
    - apply String.eqb_eq in Ed. rewrite Ed. discriminate.
    - rewrite prefix_same. discriminate. }
  destruct (String.eqb b ".") eqn:Ed.
  - rewrite !slashed_rooted. cbn [rooted].
    destruct (rooted t) eqn:Hr; cbn [Bool.eqb negb]; [discriminate|].
    cbn [rel_loop String.length Nat.ltb Nat.leb andb slice substring Nat.sub].
    cbn [String.eqb Nat.eqb negb]. unfold slice_from.
    rewrite Nat.sub_0_r, substring_whole. intros Eq; injection Eq as <-.
    cbn [negb andb]. now intros ->%negb_false_iff.
  - match goal with |- (if ?c then _ else _) = _ -> _ => destruct c; [discriminate|] end.
    destruct (rel_loop (S (String.length b)) b t 0 0 0 0) as [[[b0 bi] t0] ti] eqn:EL.
    destruct (String.eqb (slice b b0 bi) ".."); [discriminate|].
    destruct (b0 =? String.length b) eqn:Eb; cbn [negb].
    + apply Nat.eqb_eq in Eb. intros _ Hl.
      destruct (rel_loop_under _ "" b t _ _ _ _ (or_introl eq_refl) EL Eb) as [H|H].
      * now elim (Clean_nonempty basepath).
      * simpl in H. congruence.
    + intros Eq _. injection Eq as <-.
      destruct (negb (t0 =? String.length t));
        [exact (climbs_updirs _ true _)|exact (climbs_updirs _ false "")].
Qed.

End RelFacts.
(** ** Level joins *)

Module FetchFacts.
Import GoString Taring Walk.

Lemma forallb_map {A B} (f : B -> bool) (g : A -> B) (l : list A) :
  forallb f (map g l) = forallb (fun x => f (g x)) l.
Proof. induction l as [|x l IH]; simpl; [reflexivity|now rewrite IH]. Qed.

Lemma successes_app {A} (l1 l2 : list (Result A)) :
  successes (l1 ++ l2) = successes l1 ++ successes l2.
Proof. unfold successes. apply flat_map_app. Qed.

Lemma failures_app {A} (l1 l2 : list (Result A)) :
  failures (l1 ++ l2) = failures l1 ++ failures l2.
Proof. unfold failures. apply flat_map_app. Qed.

Lemma successes_perm {A} (l1 l2 : list (Result A)) :
  Permutation l1 l2 -> Permutation (successes l1) (successes l2).
Proof.
  induction 1 as [|r l1 l2 HP IH|r1 r2 l|l1 l2 l3 H1 IH1 H2 IH2]; simpl.
  - constructor.
  - now apply Permutation_app_head.
  - destruct r1, r2; simpl; try apply Permutation_refl. apply perm_swap.
  - eapply Permutation_trans; eassumption.
Qed.

Lemma failures_perm {A} (l1 l2 : list (Result A)) :
  Permutation l1 l2 -> Permutation (failures l1) (failures l2).
Proof.
  induction 1 as [|r l1 l2 HP IH|r1 r2 l|l1 l2 l3 H1 IH1 H2 IH2]; simpl.
  - constructor.
  - now apply Permutation_app_head.
  - destruct r1, r2; simpl; try apply Permutation_refl. apply perm_swap.
  - eapply Permutation_trans; eassumption.
Qed.

(** No failure among the results: they are the successes, one for one. *)
Lemma failures_nil {A} (rs : list (Result A)) :
  failures rs = [] <-> map Ok (successes rs) = rs.
Proof.
  unfold failures, successes in *.
  induction rs as [|[a|e] rs IH]; simpl.
  - tauto.
  - split; intros E.
    + apply IH in E. now rewrite E.
    + apply IH. congruence.
  - split; [discriminate|].
    intros E. match type of E with map Ok ?l = _ => destruct l end; discriminate E.
Qed.

Lemma failures_nil_iff {A} (rs : list (Result A)) :
  failures rs = [] <-> forallb is_ok rs = true.
Proof.
  unfold failures.
  induction rs as [|[a|e] rs IH]; simpl; [tauto|exact IH|split; discriminate].
Qed.

Lemma failures_length {A} (rs : list (Result A)) :
  List.length (failures rs) = List.length (filter (fun r => negb (is_ok r)) rs).
Proof.
  unfold failures.
  induction rs as [|[a|e] rs IH]; simpl; auto.
Qed.

Section Join.
Variable rt : Runtime.
Variable bkt : S3.Bucket.
Variables prfx base : string.
Hypothesis Hfair : fair rt.

Let task := doFetch rt bkt base.

Lemma sent_perm keys n :
  Permutation (map task keys) (map task (completion rt n keys)).
Proof. apply Permutation_map, Hfair. Qed.

(** A join with no failing task returns the objects of the keys, in the
    order the goroutines finished. *)
Lemma fetchAll_ok keys world :
  forallb (fun k => is_ok (task k)) keys = true ->
  exists own,
    fetchAll rt bkt prfx base keys world = ((own, None), joined world)
    /\ Permutation (map Ok own) (map task keys).
Proof.
  intros Hall. unfold fetchAll. fold task.
  set (sent := map task (completion rt (joins world) keys)).
  assert (HP : Permutation (map task keys) sent) by apply sent_perm.
  assert (Hnil : failures sent = []).
  { apply Permutation_nil. apply Permutation_sym.
    replace (@nil string) with (failures (map task keys)).
    - now apply failures_perm.
    - apply failures_nil_iff. now rewrite forallb_map. }
  rewrite Hnil. simpl. exists (successes sent). split; [reflexivity|].
  apply failures_nil in Hnil. rewrite Hnil. now apply Permutation_sym.
Qed.

(** What a join returns, in both cases. *)
Lemma fetchAll_cases keys world :
  let sent := map task (completion rt (joins world) keys) in
  (failures sent = []
   /\ fetchAll rt bkt prfx base keys world = ((successes sent, None), joined world))
  \/ (failures sent <> []
      /\ fetchAll rt bkt prfx base keys world
         = (([], Some (fmt_d (List.length (failures sent)) +++ " errors: "
                         +++ Join (failures sent) ",")), joined world)).
Proof.
  intros sent. unfold fetchAll. fold task. fold sent.
  destruct (failures sent) as [|e errs] eqn:E; [left|right]; simpl; split;
    auto; discriminate.
Qed.

Lemma fetchAll_world keys world :
  snd (fetchAll rt bkt prfx base keys world) = joined world.
Proof.
  destruct (fetchAll_cases keys world) as [[_ ->]|[_ ->]]; reflexivity.
Qed.

(** A join that returns without error had no failing task. *)
Lemma fetchAll_None keys world own world' :
  fetchAll rt bkt prfx base keys world = ((own, None), world') ->
  forallb (fun k => is_ok (task k)) keys = true
  /\ Permutation (map Ok own) (map task keys)
  /\ world' = joined world.
Proof.
  intros E. destruct (fetchAll_cases keys world) as [[Hnil E']|[_ E']];
    rewrite E' in E; [|discriminate].
  injection E as <- <-.
  assert (Hall : forallb (fun k => is_ok (task k)) keys = true).
  { rewrite <- forallb_map. apply failures_nil_iff. apply Permutation_nil.
    rewrite <- Hnil. apply failures_perm, Permutation_sym, sent_perm. }
  split; [exact Hall|]. split; [|reflexivity].
  apply failures_nil in Hnil. rewrite Hnil. apply Permutation_sym, sent_perm.
Qed.

End Join.
End FetchFacts.

(** ** The traversal against the namespace it lists *)

Module WalkFacts.
Import GoString Taring Walk.

Lemma Listed_Level bkt path ks tr ch :
  Listed bkt path (Level ks tr ch)
  <-> listing bkt path = Ok (S3.mkListResp ks (map fst ch) tr)
      /\ ListedAll bkt ch.
Proof.
  simpl. apply and_iff_compat_l.
  unfold ListedAll. induction ch as [|c ch IH].
  - split; auto.
  - rewrite Forall_cons_iff, IH. tauto.
Qed.

Lemma depth_Level ks tr ch fuel :
  depth (Level ks tr ch) <= S fuel
  <-> Forall (fun c => depth (snd c) <= fuel) ch.
Proof.
  simpl. rewrite <- Nat.succ_le_mono.
  induction ch as [|c ch IH]; simpl.
  - split; [constructor|lia].
  - rewrite Forall_cons_iff, <- IH. lia.
Qed.

Lemma depth_pos ns : 1 <= depth ns.
Proof. destruct ns; simpl; lia. Qed.

Lemma listable_Level ks tr ch :
  listable (Level ks tr ch) = true
  <-> Forall (fun c => listable (snd c) = true) ch.
Proof.
  simpl. rewrite forallb_forall, Forall_forall. reflexivity.
Qed.

Section Reference.
Variable rt : Runtime.
Variable bkt : S3.Bucket.
Variable root : string.

Local Notation walk := (walk rt bkt root).
Local Notation walk_children := (walk_children rt bkt root).
Local Notation fetch_children := (fetch_children rt bkt root).

Lemma walk_Level ks tr ch prfx path world :
  walk (Level ks tr ch) prfx path world
  = match fetchAll rt bkt prfx root ks (logged path world) with
    | ((_, Some err), world2) =>
        (([], Some ("fetching content of keys at " +++ fmt_q path
                      +++ ", " +++ err)), world2)
    | ((contents, None), world2) => walk_children ch prfx contents world2
    end.
Proof.
  simpl. destruct (fetchAll rt bkt prfx root ks (logged path world))
    as [[contents [err|]] world2]; [reflexivity|].
  revert contents world2. induction ch as [|c ch IH]; intros; simpl; [reflexivity|].
  destruct (Walk.walk rt bkt root (snd c) (prfx +++ tab) (fst c) world2)
    as [[nc [e|]] w']; auto.
Qed.

Lemma fetchPath_S fuel prfx path world :
  fetchPath rt (S fuel) bkt prfx root path world
  = match listing bkt path with
    | Err err =>
        Some (([], Some ("couldn't list bucket at path " +++ fmt_q path
                           +++ ": " +++ err)), logged path world)
    | Ok list_ =>
        match fetchAll rt bkt prfx root (S3.Contents list_) (logged path world) with
        | ((_, Some err), world2) =>
            Some (([], Some ("fetching content of keys at " +++ fmt_q path
                               +++ ", " +++ err)), world2)
        | ((contents, None), world2) =>
            fetch_children fuel (S3.CommonPrefixes list_) prfx contents world2
        end
    end.
Proof.
  unfold listing, logged. simpl.
  destruct (S3.List bkt path "/" "" 10000%Z) as [list_|err]; [|reflexivity].
  destruct (fetchAll rt bkt prfx root (S3.Contents list_) _)
    as [[contents [err|]] world2]; [reflexivity|].
  generalize (S3.CommonPrefixes list_) as l.
  intros l; revert contents world2.
  induction l as [|folder l IH]; intros; simpl; [reflexivity|].
  destruct (fetchPath rt fuel bkt (prfx +++ tab) root folder world2)
    as [[[nc [e|]] w']|]; auto.
Qed.

(** With fuel for its depth, [fetchPath] on a listed namespace is the
    walk of that namespace. *)
Lemma fetchPath_walk ns :
  forall fuel prfx path world,
    Listed bkt path ns -> depth ns <= fuel ->
    fetchPath rt fuel bkt prfx root path world = Some (walk ns prfx path world).
Proof.
  induction ns as [ks tr ch IH|e] using Namespace_rect';
    intros [|fuel] prfx path world HL Hd;
    try (pose proof (depth_pos (Level ks tr ch)); lia);
    try (simpl in Hd; lia).
  - rewrite fetchPath_S, walk_Level.
    apply Listed_Level in HL. destruct HL as [-> HL]. simpl.
    apply depth_Level in Hd.
    destruct (fetchAll rt bkt prfx root ks (logged path world))
      as [[contents [err|]] world2]; [reflexivity|].
    revert contents world2.
    induction ch as [|c ch IHch]; intros; simpl; [reflexivity|].
    inversion IH as [|? ? IHc IH']; subst.
    inversion HL as [|? ? HLc HL']; subst.
    inversion Hd as [|? ? Hdc Hd']; subst.
    rewrite (IHc fuel (prfx +++ tab) (fst c) world2 HLc Hdc).
    destruct (walk (snd c) (prfx +++ tab) (fst c) world2) as [[nc [e|]] w'];
      [reflexivity|].
    now apply IHch.
  - rewrite fetchPath_S. simpl in HL. rewrite HL. reflexivity.
Qed.

(** A traversal that succeeds has walked a finite namespace, all of whose
    listings succeeded. *)
Lemma fetchPath_tree fuel :
  forall prfx path world contents world',
    fetchPath rt fuel bkt prfx root path world = Some ((contents, None), world') ->
    exists ns,
      Listed bkt path ns /\ depth ns <= fuel /\ listable ns = true.
Proof.
  induction fuel as [|fuel IH]; intros prfx path world contents world' E;
    [discriminate|].
  rewrite fetchPath_S in E.
  destruct (listing bkt path) as [[ks folders tr]|err] eqn:EL; [|discriminate].
  simpl in E.
  destruct (fetchAll rt bkt prfx root ks (logged path world))
    as [[own [err|]] world2]; [discriminate|].
  assert (Hch : exists ch, map fst ch = folders /\ ListedAll bkt ch
                           /\ Forall (fun c => depth (snd c) <= fuel) ch
                           /\ Forall (fun c => listable (snd c) = true) ch).
  { clear EL. revert own world2 E.
    induction folders as [|folder folders IHf]; intros own world2 E.
    - exists []. repeat split; constructor.
    - simpl in E.
      destruct (fetchPath rt fuel bkt (prfx +++ tab) root folder world2)
        as [[[nc [e|]] w']|] eqn:Ef; try discriminate.
      destruct (IH _ _ _ _ _ Ef) as (sub & HLs & Hds & Hls).
      destruct (IHf _ _ E) as (ch & Hm & HLc & Hdc & Hlc).
      exists ((folder, sub) :: ch). simpl. rewrite Hm.
      repeat split; constructor; auto. }
  destruct Hch as (ch & Hm & HLc & Hdc & Hlc).
  exists (Level ks tr ch). split; [|split].
  - apply Listed_Level. now rewrite Hm.
  - now apply depth_Level.
  - now apply listable_Level.
Qed.

(** Fuel beyond the depth changes nothing. *)
Lemma fetchPath_success fuel prfx path world contents world' :
  fetchPath rt fuel bkt prfx root path world = Some ((contents, None), world') ->
  exists ns,
    Listed bkt path ns /\ listable ns = true
    /\ walk ns prfx path world = ((contents, None), world').
Proof.
  intros E. destruct (fetchPath_tree _ _ _ _ _ _ E) as (ns & HL & Hd & Hl).
  exists ns. repeat split; auto.
  rewrite (fetchPath_walk ns fuel prfx path world HL Hd) in E. congruence.
Qed.

End Reference.
End WalkFacts.

(** ** Successful traversals *)

Module TraversalFacts.
Import GoString Taring Walk WalkFacts FetchFacts Order.

Section Success.
Variable rt : Runtime.
Variable bkt : S3.Bucket.
Variable root : string.
Hypothesis Hfair : fair rt.

Local Notation walk := (walk rt bkt root).
Local Notation walk_children := (walk_children rt bkt root).
Local Notation ok := (fun k => is_ok (doFetch rt bkt root k)).

Lemma walk_success ns :
  forall prfx path world contents world',
    walk ns prfx path world = ((contents, None), world') ->
    Walked rt bkt root ns path world contents world'.
Proof.
  induction ns as [ks tr ch IH|e] using Namespace_rect';
    intros prfx path world contents world' E; [|discriminate].
  rewrite walk_Level in E.
  destruct (fetchAll rt bkt prfx root ks (logged path world))
    as [[own [err|]] world2] eqn:EA; [discriminate|].
  apply (fetchAll_None rt bkt prfx root Hfair) in EA.
  destruct EA as (Hok & Hperm & ->).
  assert (Hch : exists subs,
             contents = own ++ List.concat subs
             /\ Forall2 (fun c sub => InOrder rt bkt root (snd c) sub) ch subs
             /\ listCalls world'
                = listCalls (joined (logged path world)) ++ map call (children_levels ch)
             /\ forallb ok (children_leaves ch) = true
             /\ ticks world' = ticks world /\ fileWrites world' = fileWrites world).
  { assert (Ht : ticks (joined (logged path world)) = ticks world) by reflexivity.
    assert (Hf : fileWrites (joined (logged path world)) = fileWrites world)
      by reflexivity.
    revert E Ht Hf. generalize (joined (logged path world)) as w0.
    generalize own as c0. clear Hperm Hok.
    induction ch as [|c ch IHch]; intros c0 w0 E Ht Hf; simpl in E.
    - injection E as <- <-. exists []. simpl. rewrite !app_nil_r.
      repeat split; auto.
    - inversion IH as [|? ? IHc IH']; subst.
      destruct (walk (snd c) (prfx +++ tab) (fst c) w0) as [[nc [e|]] w1] eqn:Ec;
        [discriminate|].
      destruct (IHc _ _ _ _ _ Ec) as [Ho Hc Hl Ht1 Hf1].
      destruct (IHch IH' (c0 ++ nc) w1 E) as (subs & -> & HF & Hcalls & Hls & Ht2 & Hf2);
        [congruence|congruence|].
      exists (nc :: subs). simpl. rewrite <- app_assoc.
      unfold children_levels, children_leaves in *. simpl.
      rewrite map_app, forallb_app, Hl, Hls, Hcalls, Hc, <- app_assoc.
      repeat split; auto. }
  destruct Hch as (subs & -> & HF & Hcalls & Hls & Ht & Hf).
  split; auto.
  - now constructor.
  - rewrite Hcalls. simpl. now rewrite <- app_assoc.
  - simpl. rewrite forallb_app, Hok. exact Hls.
Qed.

(** When every listing succeeds and every key can be fetched, the walk
    succeeds. *)
Lemma walk_all_ok ns :
  forall prfx path world,
    listable ns = true -> forallb ok (leaves ns) = true ->
    exists contents world', walk ns prfx path world = ((contents, None), world').
Proof.
  induction ns as [ks tr ch IH|e] using Namespace_rect';
    intros prfx path world Hl Hok; [|discriminate].
  rewrite walk_Level. simpl in Hok. rewrite forallb_app in Hok.
  apply andb_prop in Hok. destruct Hok as [Hown Hsub].
  destruct (fetchAll_ok rt bkt prfx root Hfair ks (logged path world) Hown)
    as (own & -> & _).
  apply listable_Level in Hl.
  generalize (joined (logged path world)) as w0. generalize own as c0.
  induction ch as [|c ch IHch]; intros c0 w0; simpl.
  - eauto.
  - inversion IH as [|? ? IHc IH']; subst.
    inversion Hl as [|? ? Hlc Hl']; subst.
    simpl in Hsub. rewrite forallb_app in Hsub.
    apply andb_prop in Hsub. destruct Hsub as [Hc Hrest].
    destruct (IHc (prfx +++ tab) (fst c) w0 Hlc Hc) as (nc & w1 & ->).
    now apply IHch.
Qed.

End Success.

(** The objects of a traversal are as many as the leaf keys. *)
Lemma InOrder_length rt bkt root ns :
  forall contents,
    InOrder rt bkt root ns contents ->
    List.length contents = List.length (leaves ns).
Proof.
  induction ns as [ks tr ch IH|e] using Namespace_rect';
    intros contents HO; inversion HO as [? ? ? own subs Hperm HF]; subst.
  simpl. rewrite !length_app. f_equal.
  - apply Permutation_length in Hperm. now rewrite !length_map in Hperm.
  - clear HO Hperm. induction HF as [|c sub ch subs Hc HF IHF]; simpl; [reflexivity|].
    inversion IH as [|? ? IHc IH']; subst.
    rewrite !length_app. f_equal; auto.
Qed.

(** [fetchPath] leaves the clock and the files alone, whatever it
    returns. *)
Lemma fetchPath_quiet rt bkt root fuel :
  forall prfx path world r world',
    fetchPath rt fuel bkt prfx root path world = Some (r, world') ->
    ticks world' = ticks world /\ fileWrites world' = fileWrites world.
Proof.
  induction fuel as [|fuel IH]; intros prfx path world r world' E; [discriminate|].
  rewrite fetchPath_S in E.
  destruct (listing bkt path) as [[ks folders tr]|err].
  2:{ injection E as <- <-. auto. }
  simpl in E.
  pose proof (fetchAll_world rt bkt prfx root ks (logged path world)) as Hw.
  destruct (fetchAll rt bkt prfx root ks (logged path world))
    as [[own [err|]] world2]; simpl in Hw; subst world2.
  { injection E as <- <-. auto. }
  assert (Ht : ticks (joined (logged path world)) = ticks world) by reflexivity.
  assert (Hf : fileWrites (joined (logged path world)) = fileWrites world)
    by reflexivity.
  revert E Ht Hf. generalize (joined (logged path world)) as w0.
  generalize own as c0.
  induction folders as [|folder folders IHf]; intros c0 w0 E Ht Hf; simpl in E.
  - injection E as <- <-. auto.
  - destruct (fetchPath rt fuel bkt (prfx +++ tab) root folder w0)
      as [[[nc [e|]] w1]|] eqn:Ef; try discriminate.
    + injection E as <- <-. apply IH in Ef. destruct Ef. split; congruence.
    + apply IH in Ef. destruct Ef. apply (IHf _ _ E); congruence.
Qed.

(** Every call [fetchPath] sends to the store is the call of a level: the
    delimiter [/], no marker, at most 10000 keys. *)
Lemma fetchPath_calls rt bkt root fuel :
  forall prfx path world r world',
    fetchPath rt fuel bkt prfx root path world = Some (r, world') ->
    exists paths, listCalls world' = listCalls world ++ map call paths.
Proof.
  induction fuel as [|fuel IH]; intros prfx path world r world' E; [discriminate|].
  rewrite fetchPath_S in E.
  destruct (listing bkt path) as [[ks folders tr]|err].
  2:{ injection E as <- <-. now exists [path]. }
  simpl in E.
  pose proof (fetchAll_world rt bkt prfx root ks (logged path world)) as Hw.
  destruct (fetchAll rt bkt prfx root ks (logged path world))
    as [[own [err|]] world2]; simpl in Hw; subst world2.
  { injection E as <- <-. now exists [path]. }
  assert (Hc : listCalls (joined (logged path world))
               = listCalls world ++ map call [path]) by reflexivity.
  revert E Hc. generalize (joined (logged path world)) as w0.
  generalize own as c0. generalize [path] as seen.
  induction folders as [|folder folders IHf]; intros seen c0 w0 E Hc; simpl in E.
  - injection E as <- <-. eauto.
  - destruct (fetchPath rt fuel bkt (prfx +++ tab) root folder w0)
      as [[[nc [e|]] w1]|] eqn:Ef; try discriminate;
      destruct (IH _ _ _ _ _ Ef) as (paths & Hp).
    + injection E as <- <-. exists (seen ++ paths).
      now rewrite Hp, Hc, map_app, app_assoc.
    + apply (IHf (seen ++ paths) _ _ E).
      now rewrite Hp, Hc, map_app, app_assoc.
Qed.

End TraversalFacts.

(** ** The archive writer over a stream *)

Module TarFacts.
Import GoString Taring Archive.

Lemma is_prefix_refl {A} (l : list A) : is_prefix l l.
Proof. exists []. now rewrite app_nil_r. Qed.

Lemma is_prefix_nil {A} (l : list A) : is_prefix [] l.
Proof. now exists l. Qed.

Lemma is_prefix_app {A} (l p q : list A) :
  is_prefix p q -> is_prefix (l ++ p) (l ++ q).
Proof. intros [r ->]. exists r. now rewrite app_assoc. Qed.

Lemma is_prefix_trans {A} (p q r : list A) :
  is_prefix p q -> is_prefix q r -> is_prefix p r.
Proof. intros [a ->] [b ->]. exists (a ++ b). now rewrite app_assoc. Qed.

Lemma is_prefix_app_r {A} (p q : list A) : is_prefix p (p ++ q).
Proof. now exists q. Qed.

Lemma is_prefix_firstn {A} n (l : list A) : is_prefix (firstn n l) l.
Proof. exists (skipn n l). now rewrite firstn_skipn. Qed.

Lemma firstn_zeros n m : n <= m -> firstn n (Tar.zeros m) = Tar.zeros n.
Proof.
  unfold Tar.zeros. revert m. induction n as [|n IH]; intros [|m] Hle; simpl;
    try reflexivity; try lia.
  f_equal. apply IH. lia.
Qed.

Lemma blockPadding_lt n : Tar.blockPadding n < Tar.blockSize.
Proof. unfold Tar.blockPadding, Tar.blockSize. apply Nat.mod_upper_bound. lia. Qed.

Lemma blockPadding_aligned n :
  (n + Tar.blockPadding n) mod Tar.blockSize = 0.
Proof.
  unfold Tar.blockPadding, Tar.blockSize.
  pose proof (Nat.mod_upper_bound n 512 ltac:(lia)) as Hlt.
  pose proof (Nat.div_mod_eq n 512) as Hdm.
  destruct (Nat.eq_dec (n mod 512) 0) as [E|E].
  - rewrite E. simpl Nat.sub. rewrite Nat.Div0.mod_same, Nat.add_0_r. exact E.
  - rewrite (Nat.mod_small (512 - n mod 512)) by lia.
    replace (n + (512 - n mod 512)) with (512 + 512 * (n / 512)) by lia.
    rewrite Nat.mul_comm, Nat.Div0.mod_add. reflexivity.
Qed.

(** [bytes.Buffer] and the bounded sink keep the contract of a stream. *)
Lemma Buffer_Stream : Tar.Stream Tar.Buffer.
Proof.
  split; intros w p; simpl.
  - now rewrite firstn_all.
  - lia.
  - lia.
Qed.

Lemma Limited_Stream : Tar.Stream Tar.Limited.
Proof.
  split; intros w p; simpl; unfold Tar.Limited_Write;
    destruct (List.length p <=? Tar.room w) eqn:E; simpl.
  - now rewrite firstn_all.
  - reflexivity.
  - lia.
  - apply Nat.leb_gt in E. lia.
  - lia.
  - discriminate.
Qed.

Section Writer.
Context {W : Type} `{Tar.IoWriter W}.
Hypothesis law : Tar.Stream W.
Variable rt : Runtime.

(** One call of the underlying writer. *)
Lemma io_Write_cases (w : W) (p : list byte) :
  forall w' n e,
    Tar.io_Write w p = (w', n, e) ->
    Tar.written w' = Tar.written w ++ firstn n p
    /\ (e = None -> Tar.written w' = Tar.written w ++ p).
Proof.
  intros w' n e E.
  pose proof (Tar.io_Write_appends W law w p) as Ha.
  pose proof (Tar.io_Write_count W law w p) as Hc.
  pose proof (Tar.io_Write_short W law w p) as Hs.
  rewrite E in *. simpl in *. split; [exact Ha|].
  intros ->. rewrite Ha. f_equal. apply firstn_all2.
  destruct (Nat.lt_ge_cases n (List.length p)) as [Hlt|Hge]; [|exact Hge].
  now destruct (Hs Hlt).
Qed.

Lemma idle_NewWriter (w : W) : idle (Tar.NewWriter w).
Proof. repeat split. simpl. unfold Tar.blockSize. lia. Qed.

Lemma Flush_idle tw :
  idle tw ->
  forall tw' e,
    Tar.Flush tw = (tw', e) ->
    (exists q, Tar.written (Tar.tw_w tw') = Tar.written (Tar.tw_w tw) ++ q
               /\ is_prefix q (Tar.zeros (Tar.tw_pad tw)))
    /\ (e = None ->
        Tar.written (Tar.tw_w tw')
        = Tar.written (Tar.tw_w tw) ++ Tar.zeros (Tar.tw_pad tw)
        /\ Tar.tw_err tw' = None /\ Tar.tw_nb tw' = 0%Z /\ Tar.tw_pad tw' = 0).
Proof.
  intros (He & Hnb & Hpad) tw' e. unfold Tar.Flush. rewrite He, Hnb. simpl.
  unfold Tar.zeroBlock. rewrite firstn_zeros by exact Hpad.
  destruct (Tar.io_Write (Tar.tw_w tw) (Tar.zeros (Tar.tw_pad tw)))
    as [[w' n] e'] eqn:E.
  destruct (io_Write_cases _ _ _ _ _ E) as [Ha Hn].
  destruct e' as [e'|]; intros Eq; injection Eq as <- <-; simpl.
  - split; [|discriminate]. eexists; split; [exact Ha|apply is_prefix_firstn].
  - split; [|intros _; auto].
    eexists; split; [exact Ha|apply is_prefix_firstn].
Qed.

(** One turn of the loop of [tarify], from an idle writer. *)
Lemma WriteHeader_idle tw hdr :
  idle tw ->
  forall tw' e,
    Tar.WriteHeader (tar_marshal rt) tw hdr = (tw', e) ->
    (exists q, Tar.written (Tar.tw_w tw') = Tar.written (Tar.tw_w tw) ++ q
               /\ is_prefix q (Tar.zeros (Tar.tw_pad tw) ++ blocks rt hdr))
    /\ (e = None ->
        Tar.written (Tar.tw_w tw')
        = Tar.written (Tar.tw_w tw) ++ Tar.zeros (Tar.tw_pad tw) ++ blocks rt hdr
        /\ is_ok (tar_marshal rt hdr) = true
        /\ Tar.tw_err tw' = None
        /\ Tar.tw_pad tw' <= Tar.blockSize
        /\ (Tar.Typeflag hdr = Tar.TypeReg ->
            Tar.tw_nb tw' = Tar.Size hdr
            /\ Tar.tw_pad tw' = Tar.blockPadding (Z.to_nat (Tar.Size hdr)))).
Proof.
  intros Hidle tw' e. unfold Tar.WriteHeader.
  destruct (Tar.Flush tw) as [tw1 e1] eqn:EF.
  destruct (Flush_idle tw Hidle _ _ EF) as [(q & Hq & Hpre) Hnone].
  destruct e1 as [e1|].
  { intros Eq; injection Eq as <- <-. split; [|discriminate].
    exists q. split; [exact Hq|].
    eapply is_prefix_trans; [exact Hpre|apply is_prefix_app_r]. }
  destruct (Hnone eq_refl) as (Hw1 & He1 & Hnb1 & Hpad1).
  unfold blocks. destruct (tar_marshal rt hdr) as [blk|em].
  2:{ intros Eq; injection Eq as <- <-. split; [|discriminate].
      exists (Tar.zeros (Tar.tw_pad tw)). rewrite app_nil_r.
      split; [exact Hw1|apply is_prefix_refl]. }
  destruct (Tar.io_Write (Tar.tw_w tw1) blk) as [[w' n] e'] eqn:E.
  destruct (io_Write_cases _ _ _ _ _ E) as [Ha Hn].
  destruct e' as [e'|]; intros Eq; injection Eq as <- <-; simpl.
  - split; [|discriminate].
    exists (Tar.zeros (Tar.tw_pad tw) ++ firstn n blk).
    rewrite Ha, Hw1, <- app_assoc. split; [reflexivity|].
    apply is_prefix_app, is_prefix_firstn.
  - rewrite (Hn eq_refl), Hw1, <- app_assoc. split.
    + eexists; split; [reflexivity|apply is_prefix_refl].
    + intros _. split; [reflexivity|]. split; [reflexivity|].
      split; [reflexivity|]. split.
      * pose proof (blockPadding_lt
                      (Z.to_nat (if Tar.isHeaderOnlyType (Tar.Typeflag hdr)
                                 then 0%Z else Tar.Size hdr))). lia.
      * intros ->. split; reflexivity.
Qed.

Lemma Write_payload tw data :
  Tar.tw_err tw = None -> Tar.tw_nb tw = Z.of_nat (List.length data) ->
  forall tw' n e,
    Tar.Write tw data = (tw', n, e) ->
    (exists q, Tar.written (Tar.tw_w tw') = Tar.written (Tar.tw_w tw) ++ q
               /\ is_prefix q data)
    /\ Tar.tw_pad tw' = Tar.tw_pad tw
    /\ (e = None ->
        Tar.written (Tar.tw_w tw') = Tar.written (Tar.tw_w tw) ++ data
        /\ Tar.tw_err tw' = None /\ Tar.tw_nb tw' = 0%Z).
Proof.
  intros He Hnb tw' n e. unfold Tar.Write. rewrite He, Hnb, Z.ltb_irrefl.
  destruct (0 <? List.length data) eqn:Hlen.
  - destruct (Tar.io_Write (Tar.tw_w tw) data) as [[w' n'] e'] eqn:E.
    destruct (io_Write_cases _ _ _ _ _ E) as [Ha Hn].
    pose proof (Tar.io_Write_count W law (Tar.tw_w tw) data) as Hc.
    pose proof (Tar.io_Write_short W law (Tar.tw_w tw) data) as Hs.
    rewrite E in Hc, Hs. simpl in Hc, Hs.
    destruct e' as [e'|]; intros Eq; injection Eq as <- <- <-; simpl.
    + split; [|split; [reflexivity|discriminate]].
      eexists; split; [exact Ha|apply is_prefix_firstn].
    + split; [|split; [reflexivity|]].
      * eexists; split; [exact Ha|apply is_prefix_firstn].
      * intros _. split; [now apply Hn|]. split; [reflexivity|].
        destruct (Nat.lt_ge_cases n' (List.length data)) as [Hlt|Hge];
          [now destruct (Hs Hlt)|lia].
  - apply Nat.ltb_ge in Hlen.
    assert (data = []) by (destruct data; simpl in *; [reflexivity|lia]). subst data.
    intros Eq; injection Eq as <- <- <-; simpl. rewrite app_nil_r.
    split; [|auto]. exists []. rewrite app_nil_r. split; [reflexivity|apply is_prefix_refl].
Qed.


Lemma TarHeader_header s world :
  TarHeader rt s world
  = (header rt (ticks world) 0 s,
     mkWorld (listCalls world) (joins world) (S (ticks world)) (fileWrites world)).
Proof. unfold header, TarHeader. simpl. now rewrite Nat.add_0_r. Qed.

Lemma header_S tick i s : header rt (S tick) i s = header rt tick (S i) s.
Proof. unfold header, TarHeader. simpl. now rewrite Nat.add_succ_r. Qed.

Lemma pending_cons tick s rest :
  pending rt tick (s :: rest)
  = entry rt tick 0 s ++ lower rt (S tick) (Tar.blockPadding (List.length (Data s))) rest.
Proof. destruct rest; simpl; [now rewrite app_nil_r|reflexivity]. Qed.

Lemma tarify_loop_cons tarw object rest world :
  tarify_loop rt tarw (object :: rest) world
  = let '(hdr, world1) := TarHeader rt object world in
    match Tar.WriteHeader (tar_marshal rt) tarw hdr with
    | (tarw1, Some err) =>
        (tarw1, world1,
         Some ("writing header of " +++ fmt_q (Name object) +++ ", " +++ err))
    | (tarw1, None) =>
        match Tar.Write tarw1 (Data object) with
        | (tarw2, _, Some err) =>
            (tarw2, world1,
             Some ("writing content of " +++ fmt_q (Name object) +++ ", " +++ err))
        | (tarw2, _, None) => tarify_loop rt tarw2 rest world1
        end
    end.
Proof. reflexivity. Qed.

(** What the loop of [tarify] has done when it stops, from an idle
    writer: on success the stream has grown by the padding owed and the
    body of the archive, up to the padding now owed; on failure at entry
    [i] it holds the entries before [i], and not more than entry [i]. *)
Lemma tarify_loop_spec objects :
  forall tarw world tarw' world' r,
    idle tarw ->
    tarify_loop rt tarw objects world = (tarw', world', r) ->
    match r with
    | None =>
        Tar.written (Tar.tw_w tarw') ++ Tar.zeros (Tar.tw_pad tarw')
        = Tar.written (Tar.tw_w tarw) ++ Tar.zeros (Tar.tw_pad tarw)
            ++ body rt (ticks world) objects
        /\ idle tarw'
        /\ (forall i o, nth_error objects i = Some o ->
                        is_ok (tar_marshal rt (header rt (ticks world) i o)) = true)
        /\ world' = mkWorld (listCalls world) (joins world)
                            (ticks world + List.length objects) (fileWrites world)
    | Some err =>
        exists i object e p,
          nth_error objects i = Some object
          /\ (err = "writing header of " +++ fmt_q (Name object) +++ ", " +++ e
              \/ err = "writing content of " +++ fmt_q (Name object) +++ ", " +++ e)
          /\ Tar.written (Tar.tw_w tarw') = Tar.written (Tar.tw_w tarw) ++ p
          /\ is_prefix (lower rt (ticks world) (Tar.tw_pad tarw) (firstn i objects)) p
          /\ is_prefix p (Tar.zeros (Tar.tw_pad tarw)
                            ++ body rt (ticks world) (firstn (S i) objects))
    end.
Proof.
  induction objects as [|object rest IH]; intros tarw world tarw' world' r Hidle E.
  - simpl in E. injection E as <- <- <-. rewrite app_nil_r, Nat.add_0_r.
    split; [reflexivity|]. split; [exact Hidle|]. split.
    + intros [|i] o; discriminate.
    + now destruct world.
  - rewrite tarify_loop_cons, TarHeader_header in E. cbv beta iota in E.
    set (hdr := header rt (ticks world) 0 object) in *.
    set (world1 := mkWorld (listCalls world) (joins world) (S (ticks world))
                           (fileWrites world)) in *.
    destruct (Tar.WriteHeader (tar_marshal rt) tarw hdr) as [tarw1 e1] eqn:EH.
    destruct (WriteHeader_idle tarw hdr Hidle _ _ EH) as [(q & Hq & Hpre) Hnone].
    destruct e1 as [e1|].
    { injection E as <- <- <-. exists 0, object, e1, q. simpl.
      split; [reflexivity|]. split; [now left|]. split; [exact Hq|].
      split; [apply is_prefix_nil|].
      eapply is_prefix_trans; [exact Hpre|].
      apply is_prefix_app. unfold entry. fold hdr. rewrite <- app_assoc.
      apply is_prefix_app_r. }
    destruct (Hnone eq_refl) as (Hw1 & Hm & He1 & Hpad1 & Hreg).
    destruct (Hreg eq_refl) as [Hnb1 Hp1]. simpl in Hnb1, Hp1.
    rewrite Nat2Z.id in Hp1.
    destruct (Tar.Write tarw1 (Data object)) as [[tarw2 n] e2] eqn:EW.
    destruct (Write_payload tarw1 (Data object) He1 Hnb1 _ _ _ EW)
      as [(q2 & Hq2 & Hpre2) [Hp2 Hnone2]].
    destruct e2 as [e2|].
    { injection E as <- <- <-.
      exists 0, object, e2, (Tar.zeros (Tar.tw_pad tarw) ++ blocks rt hdr ++ q2).
      simpl. split; [reflexivity|]. split; [now right|].
      split; [rewrite Hq2, Hw1, <- !app_assoc; reflexivity|].
      split; [apply is_prefix_nil|].
      apply is_prefix_app. unfold entry. fold hdr. rewrite app_nil_r, <- app_assoc.
      apply is_prefix_app.
      eapply is_prefix_trans; [exact Hpre2|apply is_prefix_app_r]. }
    destruct (Hnone2 eq_refl) as (Hw2 & He2 & Hnb2).
    assert (Hidle2 : idle tarw2).
    { repeat split; auto. rewrite Hp2. exact Hpad1. }
    assert (Hstream : Tar.written (Tar.tw_w tarw2)
                      = Tar.written (Tar.tw_w tarw) ++ Tar.zeros (Tar.tw_pad tarw)
                          ++ entry rt (ticks world) 0 object).
    { rewrite Hw2, Hw1. unfold entry. fold hdr. now rewrite <- !app_assoc. }
    specialize (IH tarw2 world1 tarw' world' r Hidle2 E).
    rewrite Hp2, Hp1 in IH. simpl ticks in IH.
    destruct r as [err|].
    + destruct IH as (i & o & e & p & Hnth & Hmsg & Hw & Hlo & Hhi).
      exists (S i), o, e, (Tar.zeros (Tar.tw_pad tarw) ++ entry rt (ticks world) 0 object ++ p).
      split; [exact Hnth|]. split; [exact Hmsg|].
      split; [rewrite Hw, Hstream, <- !app_assoc; reflexivity|].
      split.
      * change (firstn (S i) (object :: rest)) with (object :: firstn i rest).
        unfold lower at 1. rewrite pending_cons.
        apply is_prefix_app, is_prefix_app. exact Hlo.
      * change (firstn (S (S i)) (object :: rest))
          with (object :: firstn (S i) rest).
        simpl body. apply is_prefix_app, is_prefix_app. exact Hhi.
    + destruct IH as (Hw & Hidle' & Hall & Hworld).
      split; [|split; [exact Hidle'|split]].
      * rewrite Hw, Hstream. simpl body. unfold padding.
        now rewrite <- !app_assoc.
      * intros [|i] o Hnth; simpl in Hnth.
        -- injection Hnth as <-. exact Hm.
        -- rewrite <- header_S. now apply Hall.
      * rewrite Hworld. simpl. f_equal. lia.
Qed.

(** [tarify] on a stream, when it returns without error: the stream has
    grown by the body of the archive and the trailer. *)
Lemma tarify_success w objects world w' world' :
  tarify rt w objects world = (w', world', None) ->
  Tar.written w' = Tar.written w ++ body rt (ticks world) objects ++ trailer
  /\ (forall i o, nth_error objects i = Some o ->
                  is_ok (tar_marshal rt (header rt (ticks world) i o)) = true)
  /\ world' = mkWorld (listCalls world) (joins world)
                      (ticks world + List.length objects) (fileWrites world).
Proof.
  unfold tarify.
  destruct (tarify_loop rt (Tar.NewWriter w) objects world)
    as [[tarw1 world1] [err|]] eqn:EL; [discriminate|].
  pose proof (tarify_loop_spec objects _ _ _ _ _ (idle_NewWriter w) EL) as HL.
  simpl in HL. destruct HL as (Hw & Hidle & Hall & Hworld).
  unfold Tar.Close. destruct Hidle as (He & Hnb & Hpad). rewrite He.
  destruct (Tar.Flush tarw1) as [tarw2 e2] eqn:EF.
  destruct (Flush_idle tarw1 (conj He (conj Hnb Hpad)) _ _ EF) as [_ Hnone].
  destruct e2 as [e2|]; [discriminate|].
  destruct (Hnone eq_refl) as (Hw2 & _).
  simpl.
  destruct (Tar.io_Write (Tar.tw_w tarw2) Tar.zeroBlock) as [[w3 n3] e3] eqn:E3.
  destruct (io_Write_cases _ _ _ _ _ E3) as [_ H3].
  destruct e3 as [e3|]; [discriminate|].
  destruct (Tar.io_Write w3 Tar.zeroBlock) as [[w4 n4] e4] eqn:E4.
  destruct (io_Write_cases _ _ _ _ _ E4) as [_ H4].
  destruct e4 as [e4|]; [discriminate|].
  intros Eq; injection Eq as <- <-. simpl.
  rewrite (H4 eq_refl), (H3 eq_refl), Hw2, Hw.
  unfold trailer. rewrite <- !app_assoc. auto.
Qed.

(** A failure inside the loop is what [tarify] returns, with the writer as
    the loop left it: [Close] is not reached. *)
Lemma tarify_failure w objects world tarw1 world1 err :
  tarify_loop rt (Tar.NewWriter w) objects world = (tarw1, world1, Some err) ->
  tarify rt w objects world = (Tar.tw_w tarw1, world1, Some err).
Proof. unfold tarify. now intros ->. Qed.



Hypothesis Hrel : reliable W.

Lemma io_Write_reliable (w : W) p :
  exists w' n, Tar.io_Write w p = (w', n, None).
Proof.
  pose proof (Hrel w p) as Hr.
  destruct (Tar.io_Write w p) as [[w' n] e]. simpl in Hr. subst e. eauto.
Qed.

Lemma WriteHeader_reliable tw hdr :
  idle tw -> is_ok (tar_marshal rt hdr) = true ->
  snd (Tar.WriteHeader (tar_marshal rt) tw hdr) = None.
Proof.
  intros (He & Hnb & Hpad) Hm. unfold Tar.WriteHeader, Tar.Flush.
  rewrite He, Hnb. simpl.
  destruct (io_Write_reliable (Tar.tw_w tw) (firstn (Tar.tw_pad tw) Tar.zeroBlock))
    as (w1 & n1 & ->).
  destruct (tar_marshal rt hdr) as [blk|e]; [|discriminate]. simpl.
  destruct (io_Write_reliable w1 blk) as (w2 & n2 & ->). reflexivity.
Qed.

Lemma Write_reliable tw data :
  Tar.tw_err tw = None -> Tar.tw_nb tw = Z.of_nat (List.length data) ->
  snd (Tar.Write tw data) = None.
Proof.
  intros He Hnb. unfold Tar.Write. rewrite He, Hnb, Z.ltb_irrefl.
  destruct (0 <? List.length data); [|reflexivity].
  destruct (io_Write_reliable (Tar.tw_w tw) data) as (w1 & n1 & ->). reflexivity.
Qed.

Lemma Close_reliable tw : idle tw -> snd (Tar.Close tw) = None.
Proof.
  intros (He & Hnb & Hpad). unfold Tar.Close, Tar.Flush. rewrite He, Hnb. simpl.
  destruct (io_Write_reliable (Tar.tw_w tw) (firstn (Tar.tw_pad tw) Tar.zeroBlock))
    as (w1 & n1 & ->). simpl.
  destruct (io_Write_reliable w1 Tar.zeroBlock) as (w2 & n2 & ->).
  destruct (io_Write_reliable w2 Tar.zeroBlock) as (w3 & n3 & ->). reflexivity.
Qed.

Lemma tarify_loop_reliable objects :
  forall tarw world,
    idle tarw ->
    (forall i o, nth_error objects i = Some o ->
                 is_ok (tar_marshal rt (header rt (ticks world) i o)) = true) ->
    snd (tarify_loop rt tarw objects world) = None.
Proof.
  induction objects as [|object rest IH]; intros tarw world Hidle Hall;
    [reflexivity|].
  rewrite tarify_loop_cons, TarHeader_header. cbv beta iota.
  pose proof (Hall 0 object eq_refl) as Hm.
  pose proof (WriteHeader_reliable tarw _ Hidle Hm) as HH.
  destruct (Tar.WriteHeader (tar_marshal rt) tarw (header rt (ticks world) 0 object))
    as [tarw1 e1] eqn:EH. simpl in HH. subst e1.
  destruct (WriteHeader_idle tarw _ Hidle _ _ EH) as [_ Hnone].
  destruct (Hnone eq_refl) as (_ & _ & He1 & Hpad1 & Hreg).
  destruct (Hreg eq_refl) as [Hnb1 Hp1]. simpl in Hnb1.
  pose proof (Write_reliable tarw1 (Data object) He1 Hnb1) as HW.
  destruct (Tar.Write tarw1 (Data object)) as [[tarw2 n] e2] eqn:EW.
  simpl in HW. subst e2.
  destruct (Write_payload tarw1 (Data object) He1 Hnb1 _ _ _ EW)
    as [_ [Hp2 Hnone2]].
  destruct (Hnone2 eq_refl) as (_ & He2 & Hnb2).
  apply IH.
  - repeat split; auto. rewrite Hp2. exact Hpad1.
  - intros i o Hnth. simpl ticks. rewrite header_S. now apply (Hall (S i)).
Qed.

(** On a reliable stream [tarify] fails only for a header that cannot be
    encoded. *)
Lemma tarify_reliable w objects world :
  (forall i o, nth_error objects i = Some o ->
               is_ok (tar_marshal rt (header rt (ticks world) i o)) = true) ->
  exists w',
    tarify rt w objects world
    = (w', mkWorld (listCalls world) (joins world)
                   (ticks world + List.length objects) (fileWrites world), None)
    /\ Tar.written w' = Tar.written w ++ body rt (ticks world) objects ++ trailer.
Proof.
  intros Hall.
  assert (E : snd (tarify rt w objects world) = None).
  { unfold tarify.
    pose proof (tarify_loop_reliable objects _ world (idle_NewWriter w) Hall) as HL.
    destruct (tarify_loop rt (Tar.NewWriter w) objects world)
      as [[tarw1 world1] r] eqn:EL. simpl in HL. subst r.
    pose proof (tarify_loop_spec objects _ _ _ _ _ (idle_NewWriter w) EL) as HS.
    destruct HS as (_ & Hidle & _).
    pose proof (Close_reliable tarw1 Hidle) as HC.
    destruct (Tar.Close tarw1) as [tarw2 e]. simpl in HC. now subst e. }
  destruct (tarify rt w objects world) as [[w' world'] r] eqn:ET.
  simpl in E. subst r.
  destruct (tarify_success _ _ _ _ _ ET) as (Hw & _ & ->).
  exists w'. split; [reflexivity|exact Hw].
Qed.

End Writer.

Lemma Buffer_reliable : reliable Tar.Buffer.
Proof. intros w p. reflexivity. Qed.

Lemma tarify_Buffer rt b objects world :
  (forall i o, nth_error objects i = Some o ->
               is_ok (tar_marshal rt (header rt (ticks world) i o)) = true) ->
  tarify rt (Tar.NewBuffer b) objects world
  = (Tar.NewBuffer (b ++ body rt (ticks world) objects ++ trailer),
     mkWorld (listCalls world) (joins world)
             (ticks world + List.length objects) (fileWrites world),
     None).
Proof.
  intros Hall.
  destruct (tarify_reliable Buffer_Stream rt Buffer_reliable (Tar.NewBuffer b)
                            objects world Hall) as ([b'] & -> & Hw).
  simpl in Hw. now rewrite Hw.
Qed.

End TarFacts.

(** ** Reading back what [tarify] wrote *)

Module ReaderFacts.
Import GoString Taring Archive TarFacts.

Lemma is_zero_zeros n : is_zero (Tar.zeros n) = true.
Proof. induction n as [|n IH]; simpl; auto. Qed.

Lemma firstn_app_long {A} n (l1 l2 : list A) :
  n <= List.length l1 -> firstn n (l1 ++ l2) = firstn n l1.
Proof.
  intros Hle. rewrite firstn_app.
  replace (n - List.length l1) with 0 by lia. simpl. apply app_nil_r.
Qed.

Lemma firstn_app_exact {A} n (l1 l2 : list A) :
  List.length l1 = n -> firstn n (l1 ++ l2) = l1.
Proof.
  intros <-. rewrite firstn_app, Nat.sub_diag, firstn_all. simpl. apply app_nil_r.
Qed.

Lemma skipn_app_exact {A} n (l1 l2 : list A) :
  List.length l1 = n -> skipn n (l1 ++ l2) = l2.
Proof.
  intros <-. rewrite skipn_app, Nat.sub_diag, skipn_all. reflexivity.
Qed.

Lemma length_zeros n : List.length (Tar.zeros n) = n.
Proof. apply repeat_length. Qed.

Section Reader.
Variable rt : Runtime.
Variable unmarshal : list byte -> option (Tar.Header * list byte).
Hypothesis Hcodec : Codec (tar_marshal rt) unmarshal.

(** One turn of the reader on a stream of at least a block. *)
Lemma read_entries_S fuel s :
  Tar.blockSize <= List.length s ->
  read_entries unmarshal (S fuel) s
  = if is_zero (firstn Tar.blockSize s) then
      let s1 := skipn Tar.blockSize s in
      match s1 with
      | [] => Some []
      | _ :: _ =>
          if List.length s1 <? Tar.blockSize then None
          else if is_zero (firstn Tar.blockSize s1) then Some []
          else None
      end
    else
      match unmarshal s with
      | None => None
      | Some (hdr, rest) =>
          if (Tar.Size hdr <? 0)%Z then None
          else
            let size :=
              if Tar.isHeaderOnlyType (Tar.Typeflag hdr) then 0
              else Z.to_nat (Tar.Size hdr) in
            let total := size + Tar.blockPadding size in
            if List.length rest <? total then None
            else
              match read_entries unmarshal fuel (skipn total rest) with
              | None => None
              | Some es => Some ((hdr, firstn size rest) :: es)
              end
      end.
Proof.
  intros Hlen. destruct s as [|b s]; [simpl in Hlen; unfold Tar.blockSize in Hlen; lia|].
  cbn [read_entries].
  destruct (List.length (b :: s) <? Tar.blockSize) eqn:E; [|reflexivity].
  apply Nat.ltb_lt in E. lia.
Qed.

Lemma read_trailer fuel : read_entries unmarshal (S fuel) trailer = Some [].
Proof.
  assert (Hz : List.length Tar.zeroBlock = Tar.blockSize) by apply length_zeros.
  rewrite read_entries_S by (unfold trailer; rewrite length_app; lia).
  unfold trailer.
  rewrite (firstn_app_exact _ _ _ Hz), (skipn_app_exact _ _ _ Hz).
  unfold Tar.zeroBlock at 1. rewrite is_zero_zeros. cbv zeta.
  assert (Hf : firstn Tar.blockSize Tar.zeroBlock = Tar.zeroBlock)
    by (rewrite <- Hz at 1; apply firstn_all).
  rewrite Hf. unfold Tar.zeroBlock at 3. rewrite is_zero_zeros.
  rewrite Hz, Nat.ltb_irrefl.
  reflexivity.
Qed.

Lemma encodable_cons tick o objects :
  encodable rt tick (o :: objects) ->
  is_ok (tar_marshal rt (header rt tick 0 o)) = true
  /\ encodable rt (S tick) objects.
Proof.
  intros Hall. split; [exact (Hall 0 o eq_refl)|].
  intros i o' Hnth. rewrite header_S. exact (Hall (S i) o' Hnth).
Qed.

Lemma read_body objects :
  forall tick fuel,
    encodable rt tick objects ->
    List.length objects < fuel ->
    exists es,
      read_entries unmarshal fuel (body rt tick objects ++ trailer) = Some es
      /\ Forall2 reads_as objects es.
Proof.
  induction objects as [|o objects IH]; intros tick [|fuel] Hall Hfuel;
    try (simpl in Hfuel; lia).
  - exists []. split; [apply read_trailer|constructor].
  - apply encodable_cons in Hall. destruct Hall as [Hm Hall].
    simpl body. unfold entry, blocks, padding.
    set (hdr := header rt tick 0 o) in *.
    destruct (tar_marshal rt hdr) as [blk|e] eqn:Em; [|discriminate].
    destruct (codec_block _ _ Hcodec hdr blk Em) as [Hlen Hnz].
    set (data := Data o).
    set (pad := Tar.zeros (Tar.blockPadding (List.length data))).
    set (tail := body rt (S tick) objects ++ trailer).
    replace (((blk ++ data) ++ pad ++ body rt (S tick) objects) ++ trailer)
      with (blk ++ (data ++ pad) ++ tail)
      by (unfold tail; now rewrite <- !app_assoc).
    rewrite read_entries_S by (rewrite length_app; lia).
    rewrite firstn_app_long by exact Hlen. rewrite Hnz.
    destruct (codec_inverse _ _ Hcodec hdr blk ((data ++ pad) ++ tail) Em)
      as (hdr' & -> & Hname & Hsize & Hflag).
    assert (Hsz : Tar.Size hdr' = Z.of_nat (List.length data)) by (rewrite Hsize; reflexivity).
    assert (Hfl : Tar.Typeflag hdr' = Tar.TypeReg) by (rewrite Hflag; reflexivity).
    rewrite Hsz, Hfl. cbv zeta.
    replace (Z.of_nat (List.length data) <? 0)%Z with false by (symmetry; apply Z.ltb_ge; lia).
    change (Tar.isHeaderOnlyType Tar.TypeReg) with false. cbv iota.
    rewrite Nat2Z.id.
    assert (Hdp : List.length (data ++ pad)
                  = List.length data + Tar.blockPadding (List.length data))
      by (unfold pad; now rewrite length_app, length_zeros).
    replace (List.length ((data ++ pad) ++ tail)
             <? List.length data + Tar.blockPadding (List.length data))
      with false
      by (symmetry; apply Nat.ltb_ge; rewrite length_app; lia).
    rewrite (skipn_app_exact _ _ _ Hdp).
    destruct (IH (S tick) fuel Hall ltac:(simpl in Hfuel; lia)) as (es & Hes & HF).
    fold tail in Hes. rewrite Hes.
    eexists; split; [reflexivity|]. constructor; [|exact HF].
    repeat split; simpl.
    + rewrite Hname. reflexivity.
    + exact Hsz.
    + rewrite <- app_assoc. now apply firstn_app_exact.
Qed.

Lemma body_length objects :
  forall tick, encodable rt tick objects ->
               List.length objects <= List.length (body rt tick objects).
Proof.
  induction objects as [|o objects IH]; intros tick Hall; simpl; [lia|].
  apply encodable_cons in Hall. destruct Hall as [Hm Hall].
  unfold entry, blocks. destruct (tar_marshal rt (header rt tick 0 o)) as [blk|e] eqn:Em;
    [|discriminate].
  destruct (codec_block _ _ Hcodec _ blk Em) as [Hlen _].
  specialize (IH (S tick) Hall). rewrite !length_app. unfold Tar.blockSize in Hlen. lia.
Qed.

(** The archive [tarify] writes reads back as its objects. *)
Lemma untar_body tick objects :
  encodable rt tick objects ->
  exists es,
    untar unmarshal (body rt tick objects ++ trailer) = Some es
    /\ Forall2 reads_as objects es.
Proof.
  intros Hall. unfold untar. apply read_body; [exact Hall|].
  pose proof (body_length objects tick Hall). rewrite length_app. lia.
Qed.

End Reader.
End ReaderFacts.

(** ** The concrete runtime keeps the contracts *)

Module DemoFacts.
Import GoString Taring Archive TarFacts ReaderFacts.

Lemma fair_rt : fair Demo.rt.
Proof. intros n keys. apply Permutation_rev. Qed.

Lemma gunzip_compress data : Demo.gunzip (Demo.compress data) = Some data.
Proof. reflexivity. Qed.

Lemma digit_value d :
  (0 <= d < 8)%Z -> (Z.of_N (Byte.to_N (Demo.digit d)) - 48 = d)%Z.
Proof.
  intros Hd.
  assert (Hc : d = 0%Z \/ d = 1%Z \/ d = 2%Z \/ d = 3%Z \/ d = 4%Z \/ d = 5%Z
               \/ d = 6%Z \/ d = 7%Z) by lia.
  repeat (destruct Hc as [->|Hc]; [reflexivity|]). now subst d.
Qed.

Lemma parse_octal_snoc l b :
  Demo.parse_octal (l ++ [b])
  = (Demo.parse_octal l * 8 + (Z.of_N (Byte.to_N b) - 48))%Z.
Proof. unfold Demo.parse_octal. now rewrite fold_left_app. Qed.

Lemma parse_format_octal w :
  forall n, (0 <= n)%Z ->
            Demo.parse_octal (Demo.format_octal w n) = (n mod 8 ^ Z.of_nat w)%Z.
Proof.
  induction w as [|w IH]; intros n Hn.
  - simpl. now rewrite Z.mod_1_r.
  - cbn [Demo.format_octal]. rewrite parse_octal_snoc.
    rewrite IH by (apply Z.div_pos; lia).
    rewrite digit_value by (apply Z.mod_pos_bound; lia).
    rewrite Nat2Z.inj_succ, Z.pow_succ_r by lia.
    rewrite Z.rem_mul_r by lia. lia.
Qed.

Lemma length_format_octal w : forall n, List.length (Demo.format_octal w n) = w.
Proof.
  induction w as [|w IH]; intros n; simpl; [reflexivity|].
  rewrite length_app, IH. simpl. lia.
Qed.

Lemma length_number_field w n : List.length (Demo.number_field w n) = S w.
Proof. unfold Demo.number_field. rewrite length_app, length_format_octal. simpl. lia. Qed.

Lemma parse_number_field w n :
  (0 <= n < 8 ^ Z.of_nat w)%Z ->
  Demo.parse_octal (firstn w (Demo.number_field w n)) = n.
Proof.
  intros Hn. unfold Demo.number_field.
  rewrite (firstn_app_exact _ _ _ (length_format_octal w n)).
  rewrite parse_format_octal by lia. apply Z.mod_small. exact Hn.
Qed.

Lemma length_name_field name :
  List.length name <= 100 -> List.length (Demo.name_field name) = 100.
Proof.
  intros Hle. unfold Demo.name_field. rewrite length_app, length_zeros. lia.
Qed.

Lemma cstring_name_field name :
  Demo.nul_free name = true -> Demo.cstring (Demo.name_field name) = name.
Proof.
  unfold Demo.name_field. generalize (100 - List.length name) as k.
  induction name as [|b name IH]; intros k Hnf; simpl.
  - destruct k; reflexivity.
  - simpl in Hnf. apply andb_prop in Hnf. destruct Hnf as [Hb Hnf].
    apply negb_true_iff in Hb. rewrite Hb. f_equal. now apply IH.
Qed.

Lemma split_at_app {A} n (l1 l2 : list A) :
  List.length l1 = n -> Demo.split_at n (l1 ++ l2) = (l1, l2).
Proof.
  intros Hn. unfold Demo.split_at.
  now rewrite (firstn_app_exact _ _ _ Hn), (skipn_app_exact _ _ _ Hn).
Qed.

(** The fields of a block that [marshal] accepts. *)
Lemma marshal_Ok hdr blk :
  Demo.marshal hdr = Ok blk ->
  let name := list_byte_of_string (Tar.Name hdr) in
  List.length name <= 100
  /\ Demo.nul_free name = true
  /\ (0 <= Tar.Size hdr < 8 ^ 11)%Z
  /\ blk = Demo.name_field name
             ++ Demo.number_field 7 (Tar.Mode hdr)
             ++ Demo.number_field 7 (Tar.Uid hdr)
             ++ Demo.number_field 7 (Tar.Gid hdr)
             ++ Demo.number_field 11 (Tar.Size hdr)
             ++ Demo.number_field 11 (Tar.ModTime hdr / Demo.second)
             ++ Demo.spaces 8
             ++ [byte_of_ascii (Tar.Typeflag hdr)]
             ++ Tar.zeros 355.
Proof.
  intros E name. unfold Demo.marshal in E. fold name in E.
  destruct (List.length name <=? 100) eqn:E1; [|discriminate].
  destruct (Demo.nul_free name) eqn:E2; [|discriminate].
  destruct ((0 <=? Tar.Size hdr)%Z && (Tar.Size hdr <? 8 ^ 11)%Z) eqn:E3;
    [|discriminate].
  simpl in E. injection E as <-.
  apply Nat.leb_le in E1. apply andb_prop in E3. destruct E3 as [E3 E4].
  apply Z.leb_le in E3. apply Z.ltb_lt in E4. auto.
Qed.

Lemma length_marshal hdr blk :
  Demo.marshal hdr = Ok blk -> List.length blk = Tar.blockSize.
Proof.
  intros E. destruct (marshal_Ok hdr blk E) as (Hlen & _ & _ & ->).
  rewrite !length_app, (length_name_field _ Hlen), !length_number_field,
    length_zeros.
  reflexivity.
Qed.

Lemma codec : Codec Demo.marshal Demo.unmarshal.
Proof.
  split.
  - intros hdr blk E. pose proof (length_marshal hdr blk E) as Hl.
    split; [lia|].
    rewrite firstn_all2 by lia.
    destruct (marshal_Ok hdr blk E) as (_ & _ & _ & ->).
    unfold is_zero. rewrite !forallb_app.
    change (forallb (Byte.eqb x00) (Demo.spaces 8)) with false.
    now rewrite !andb_false_r.
  - intros hdr blk rest E. pose proof (length_marshal hdr blk E) as Hl.
    destruct (marshal_Ok hdr blk E) as (Hlen & Hnf & Hsize & Hblk).
    unfold Demo.unmarshal.
    replace (List.length (blk ++ rest) <? Tar.blockSize) with false
      by (symmetry; apply Nat.ltb_ge; rewrite length_app; lia).
    rewrite Hblk, <- !app_assoc.
    rewrite (split_at_app 100) by (now apply length_name_field).
    rewrite (split_at_app 8) by apply length_number_field.
    rewrite (split_at_app 8) by apply length_number_field.
    rewrite (split_at_app 8) by apply length_number_field.
    rewrite (split_at_app 12) by apply length_number_field.
    rewrite (split_at_app 12) by apply length_number_field.
    rewrite (split_at_app 8) by reflexivity.
    rewrite (split_at_app 1 [_]) by reflexivity.
    rewrite (split_at_app 355) by apply length_zeros.
    eexists. split; [reflexivity|].
    cbn [Tar.Name Tar.Size Tar.Typeflag hd]. split; [|split].
    + rewrite cstring_name_field by exact Hnf.
      apply string_of_list_byte_of_string.
    + apply parse_number_field. exact Hsize.
    + apply ascii_of_byte_of_ascii.
Qed.

End DemoFacts.

(** ** The pipeline *)

Module MainFacts.
Import GoString Taring Walk Archive Order.
Import FetchFacts WalkFacts TraversalFacts TarFacts.



Lemma body_records rt objects :
  forall tick, body rt tick objects = flat_map (record rt) (entries rt tick objects).
Proof.
  induction objects as [|o objects IH]; intros tick; simpl; [reflexivity|].
  rewrite IH. unfold record, entry, padding. simpl. now rewrite <- !app_assoc.
Qed.


Lemma entries_sizes rt objects :
  forall tick,
    Forall (fun e => Tar.Size (fst e) = Z.of_nat (List.length (snd e)))
           (entries rt tick objects).
Proof.
  induction objects as [|o objects IH]; intros tick; simpl; constructor; auto.
Qed.

Lemma entries_payloads rt objects :
  forall tick,
    map (fun e => (Tar.Name (fst e), snd e)) (entries rt tick objects)
    = map (fun o => (Name o, Data o)) objects.
Proof.
  induction objects as [|o objects IH]; intros tick; simpl; [reflexivity|].
  now rewrite IH.
Qed.

(** The three ways [main] ends: the traversal failed; the archive could
    not be written; the archive was handed to [ioutil.WriteFile]. *)
Lemma main_cases rt fuel bkt bktPath tarDst world exit world' :
  main rt fuel bkt bktPath tarDst world = Some (exit, world') ->
  (exists r err,
      fetchPath rt fuel bkt "" bktPath bktPath world = Some ((r, Some err), world')
      /\ exit = Fatal ("couldn't fetch " +++ fmt_q bktPath +++ ": " +++ err +++ "."))
  \/ (exists contents world1,
         fetchPath rt fuel bkt "" bktPath bktPath world
         = Some ((contents, None), world1)
         /\ ((exists w err,
                 tarify rt (Tar.NewBuffer []) contents world1 = (w, world', Some err)
                 /\ exit = Fatal ("tarifying content, " +++ err +++ "."))
             \/ (tarify rt (Tar.NewBuffer []) contents world1
                 = (Tar.NewBuffer (body rt (ticks world1) contents ++ trailer),
                    mkWorld (listCalls world1) (joins world1)
                            (ticks world1 + List.length contents) (fileWrites world1),
                    None)
                 /\ encodable rt (ticks world1) contents
                 /\ fileWrites world'
                    = fileWrites world1 ++ [archive_file rt tarDst (ticks world1) contents]
                 /\ listCalls world' = listCalls world1
                 /\ exit = match ioutil_WriteFile
                                   rt tarDst
                                   (gzip_compress rt (body rt (ticks world1) contents
                                                           ++ trailer)) filePerms with
                           | Some err =>
                               Fatal ("writing tar/gzip buffer to " +++ fmt_q tarDst
                                        +++ ", " +++ err)
                           | None => Returned
                           end))).
Proof.
  unfold main.
  destruct (fetchPath rt fuel bkt "" bktPath bktPath world)
    as [[[contents [err|]] world1]|]; [| |discriminate].
  { intros Eq; injection Eq as <- <-. left. eauto. }
  intros Eq. right. exists contents, world1. split; [reflexivity|].
  destruct (tarify rt (Tar.NewBuffer []) contents world1)
    as [[tarArch world2] [err|]] eqn:ET.
  { injection Eq as <- <-. left. eauto. }
  right.
  destruct (tarify_success Buffer_Stream rt _ _ _ _ _ ET) as (Hw & Henc & ->).
  destruct tarArch as [b]. simpl in Hw. subst b.
  split; [reflexivity|]. split; [exact Henc|].
  simpl Tar.buf in Eq.
  destruct (ioutil_WriteFile rt tarDst _ filePerms) as [err|];
    injection Eq as <- <-; simpl; auto.
Qed.

(** The hooks of the benchmark do not touch the writer: its [tarify]
    does to the stream what the [tarify] of the main command does. *)
Lemma Bench_tarify_loop rt {W} `{Tar.IoWriter W} {K} `{Bench.BenchEach K} objects :
  forall i (tarw : Tar.Writer W) world (each : K),
    fst (fst (Bench.tarify_loop rt i tarw objects world each))
    = fst (tarify_loop rt tarw objects world)
    /\ snd (Bench.tarify_loop rt i tarw objects world each)
       = snd (tarify_loop rt tarw objects world).
Proof.
  induction objects as [|object rest IH]; intros i tarw world each;
    [split; reflexivity|].
  rewrite tarify_loop_cons. cbn [Bench.tarify_loop].
  destruct (TarHeader rt object world) as [hdr world1].
  destruct (Tar.WriteHeader (tar_marshal rt) tarw hdr) as [tarw1 [e1|]];
    [split; reflexivity|].
  destruct (Tar.Write tarw1 (Data object)) as [[tarw2 n] [e2|]];
    [split; reflexivity|].
  apply IH.
Qed.

Lemma Bench_tarify rt {W} `{Tar.IoWriter W} {K} `{Bench.BenchEach K}
      (w : W) objects (each : K) world :
  fst (fst (Bench.tarify rt w objects each world)) = fst (tarify rt w objects world)
  /\ snd (Bench.tarify rt w objects each world) = snd (tarify rt w objects world).
Proof.
  unfold Bench.tarify, tarify.
  destruct (Bench_tarify_loop rt objects 0 (Tar.NewWriter w) world each) as [Ha Hb].
  destruct (Bench.tarify_loop rt 0 (Tar.NewWriter w) objects world each)
    as [[[tarw1 world1] each1] r].
  destruct (tarify_loop rt (Tar.NewWriter w) objects world) as [[tarw1' world1'] r'].
  simpl in Ha, Hb. injection Ha as <- <-. subst r'.
  destruct r as [err|]; [split; reflexivity|].
  destruct (Tar.Close tarw1) as [tarw2 [e|]]; split; reflexivity.
Qed.


(** The truncation flag of a listing is not looked at. *)
Lemma fetchPath_untruncate rt root fuel :
  forall bkt prfx path world,
    fetchPath rt fuel (untruncate bkt) prfx root path world
    = fetchPath rt fuel bkt prfx root path world.
Proof.
  induction fuel as [|fuel IH]; intros bkt prfx path world; [reflexivity|].
  rewrite !fetchPath_S. unfold listing. simpl.
  destruct (S3.List bkt path "/" "" 10000%Z) as [[ks folders tr]|err]; [|reflexivity].
  simpl.
  change (fetchAll rt (untruncate bkt) prfx root ks (logged path world))
    with (fetchAll rt bkt prfx root ks (logged path world)).
  destruct (fetchAll rt bkt prfx root ks (logged path world))
    as [[own [err|]] world2]; [reflexivity|].
  revert own world2. induction folders as [|folder folders IHf]; intros; simpl;
    [reflexivity|].
  rewrite IH.
  destruct (fetchPath rt fuel bkt (prfx +++ tab) root folder world2)
    as [[[nc [e|]] w']|]; auto.
Qed.

End MainFacts.

(** ** Objects against the keys they come from *)

Module TraversalMore.
Import GoString Taring Walk Archive Order.
Import FetchFacts WalkFacts TraversalFacts MainFacts.

Lemma successes_map_Ok {A} (l : list A) : successes (map Ok l) = l.
Proof.
  unfold successes. induction l as [|a l IH]; simpl; [reflexivity|now rewrite IH].
Qed.

(** What a fetched object is made of. *)
Lemma doFetch_Ok rt bkt base k c :
  doFetch rt bkt base k = Ok c ->
  time_Parse rt (S3.LastModified k) = Ok (LastMod c)
  /\ Filepath.Rel base (S3.Key_ k) = Ok (Name c)
  /\ S3.Get bkt (S3.Key_ k) = Ok (Data c).
Proof.
  unfold doFetch.
  destruct (time_Parse rt (S3.LastModified k)) as [lastMod|e]; [|discriminate].
  destruct (Filepath.Rel base (S3.Key_ k)) as [relPath|e]; [|discriminate].
  destruct (S3.Get bkt (S3.Key_ k)) as [data|e]; [|discriminate].
  intros Eq. injection Eq as <-. auto.
Qed.

(** Only the parser of timestamps matters to a task. *)
Lemma doFetch_runtime rt1 rt2 bkt base k :
  (forall s, time_Parse rt1 s = time_Parse rt2 s) ->
  doFetch rt1 bkt base k = doFetch rt2 bkt base k.
Proof. intros Hp. unfold doFetch. now rewrite Hp. Qed.

(** Contents in order are, as a multiset, the objects of the leaf keys. *)
Lemma InOrder_perm rt bkt root ns :
  forall contents,
    InOrder rt bkt root ns contents ->
    Permutation (map Ok contents) (map (doFetch rt bkt root) (leaves ns)).
Proof.
  induction ns as [ks tr ch IH|e] using Namespace_rect';
    intros contents HO; inversion HO as [? ? ? own subs Hperm HF]; subst.
  simpl. rewrite !map_app. apply Permutation_app; [exact Hperm|].
  clear HO Hperm. induction HF as [|c sub ch subs Hc HF IHF]; simpl; [constructor|].
  inversion IH as [|? ? IHc IH']; subst.
  rewrite !map_app. apply Permutation_app; auto.
Qed.

Lemma in_map_Ok {A} (a : A) (l : list A) : In (Ok a) (map Ok l) <-> In a l.
Proof.
  rewrite in_map_iff. split.
  - intros (x & E & Hin). now injection E as ->.
  - intros Hin. eauto.
Qed.



Lemma Forall2_In_l {A B} (R : A -> B -> Prop) l1 l2 a :
  Forall2 R l1 l2 -> In a l1 -> exists b, In b l2 /\ R a b.
Proof.
  induction 1 as [|x y l1 l2 Hxy HF IH]; intros Hin; [contradiction|].
  destruct Hin as [->|Hin].
  - exists y. split; [now left|exact Hxy].
  - destruct (IH Hin) as (b & Hb & HR). exists b. split; [now right|exact HR].
Qed.

Lemma Forall2_In_r {A B} (R : A -> B -> Prop) l1 l2 b :
  Forall2 R l1 l2 -> In b l2 -> exists a, In a l1 /\ R a b.
Proof.
  induction 1 as [|x y l1 l2 Hxy HF IH]; intros Hin; [contradiction|].
  destruct Hin as [->|Hin].
  - exists x. split; [now left|exact Hxy].
  - destruct (IH Hin) as (a & Ha & HR). exists a. split; [now right|exact HR].
Qed.




End TraversalMore.

(** * The specification, claim by claim *)

Import GoString Taring Walk Archive Order.
Import FetchFacts WalkFacts TraversalFacts TarFacts ReaderFacts DemoFacts MainFacts.
Import FilepathFacts RelFacts TraversalMore.

(** C5, as the code has it. For every fetched object, the header
    [TarHeader] derives from it has the object's name, the byte length of
    the payload as size, the fixed mode 0644, the object's last-modified
    time as modification and change time, the reading of the clock at the
    call as access time, the type of a regular file, and as owner and
    group the real uid and gid of the process, which [os.Getuid] and
    [os.Getgid] return, whatever its effective ids are; the call takes one
    reading of the clock. *)
Theorem TarHeader_fields (rt : Runtime) (p : Os.Ids) (s : S3Content)
        (world : World) :
  Os.runs_as rt p ->
  let hdr := fst (TarHeader rt s world) in
  Tar.Name hdr = Name s
  /\ Tar.Size hdr = Z.of_nat (List.length (Data s))
  /\ Tar.Mode hdr = filePerms /\ filePerms = 420%Z
  /\ Tar.ModTime hdr = LastMod s
  /\ Tar.ChangeTime hdr = LastMod s
  /\ Tar.AccessTime hdr = time_Now rt (ticks world)
  /\ Tar.Uid hdr = Os.uid p
  /\ Tar.Gid hdr = Os.gid p
  /\ Tar.Typeflag hdr = Tar.TypeReg
  /\ ticks (snd (TarHeader rt s world)) = S (ticks world).
Proof. intros [Hu Hg]. simpl. rewrite Hu, Hg. repeat split. Qed.

(** The header of [x] in a process that runs set-uid root: owner 1000,
    group 100. *)
Lemma TarHeader_fields_witness :
  Os.runs_as Demo.rt Demo.setuid
  /\ Tar.Uid (fst (TarHeader Demo.rt Demo.objX world0)) = 1000%Z
  /\ Tar.Gid (fst (TarHeader Demo.rt Demo.objX world0)) = 100%Z.
Proof.
  assert (H : Os.runs_as Demo.rt Demo.setuid) by (split; reflexivity).
  split; [exact H|].
  destruct (TarHeader_fields Demo.rt Demo.setuid Demo.objX world0 H)
    as (_ & _ & _ & _ & _ & _ & _ & Hu & Hg & _).
  split; [exact Hu|exact Hg].
Defined.

(** C5, as the claim has it, fails: the owner and the group of the header
    are not the effective ids of the process when these differ from its
    real ids, as in a set-uid binary. *)
Lemma header_ids_not_effective :
  ~ (forall (rt : Runtime) (p : Os.Ids) (s : S3Content) (world : World),
        Os.runs_as rt p ->
        Tar.Uid (fst (TarHeader rt s world)) = Os.euid p
        /\ Tar.Gid (fst (TarHeader rt s world)) = Os.egid p).
Proof.
  intros H.
  destruct (H Demo.rt Demo.setuid Demo.objX world0 (conj eq_refl eq_refl)) as [Hu _].
  discriminate Hu.
Qed.

(** C3. A level join returns an error exactly when at least one of its
    tasks fails; the error then carries the number of failing tasks and
    their messages joined by commas, in the order the tasks finished, and
    the objects returned are none. *)
Theorem level_fails_iff_task_fails (rt : Runtime) (Hfair : fair rt)
        (bkt : S3.Bucket) (prfx base : string) (keys : list S3.Key)
        (world : World) :
  let task := doFetch rt bkt base in
  let result := fst (fetchAll rt bkt prfx base keys world) in
  let failed := filter (fun k => negb (is_ok (task k))) keys in
  (snd result <> None <-> exists k, In k keys /\ is_ok (task k) = false)
  /\ (forall err,
         snd result = Some err ->
         fst result = []
         /\ exists errs,
             Permutation errs (failures (map task keys))
             /\ List.length errs = List.length failed
             /\ err = fmt_d (List.length failed) +++ " errors: " +++ Join errs ",").
Proof.
  intros task result failed.
  pose proof (sent_perm rt bkt base Hfair keys (joins world)) as HP.
  apply failures_perm in HP. fold task in HP.
  assert (Hlen : List.length (failures (map task (completion rt (joins world) keys)))
                 = List.length failed).
  { rewrite <- (Permutation_length HP), failures_length.
    unfold failed. clear. induction keys as [|k keys IH]; simpl; [reflexivity|].
    destruct (is_ok (task k)); simpl; now rewrite IH. }
  destruct (fetchAll_cases rt bkt prfx base keys world) as [[Hnil E]|[Hne E]];
    subst result; rewrite E; simpl.
  - split.
    + split; [intros C; now destruct C|].
      intros (k & Hin & Hk). exfalso.
      fold task in Hnil. rewrite Hnil in Hlen. simpl in Hlen.
      assert (Hf : In k failed) by (apply filter_In; split; [exact Hin|now rewrite Hk]).
      destruct failed; [contradiction|discriminate].
    + discriminate.
  - fold task in Hne, Hlen |- *. split.
    + split; [intros _|discriminate].
      destruct failed as [|k failed'] eqn:Ef.
      * destruct (failures (map task (completion rt (joins world) keys)));
          [contradiction|discriminate].
      * assert (Hin : In k (filter (fun k => negb (is_ok (task k))) keys))
          by (fold failed; rewrite Ef; now left).
        apply filter_In in Hin. destruct Hin as [Hin Hk].
        exists k. split; [exact Hin|]. now apply negb_true_iff.
    + intros err Eq. injection Eq as <-. split; [reflexivity|].
      exists (failures (map task (completion rt (joins world) keys))).
      split; [now apply Permutation_sym|]. split; [exact Hlen|].
      now rewrite Hlen.
Qed.

(** The three tasks of the faulty bucket: one object, two failures. *)
Lemma level_fails_iff_task_fails_witness :
  fair Demo.rt
  /\ snd (fst (fetchAll Demo.rt Demo.faulty_bucket "" ""
                        [Demo.keyX; Demo.keyBad; Demo.keyGone] world0)) <> None.
Proof.
  split; [exact fair_rt|].
  apply (level_fails_iff_task_fails Demo.rt fair_rt Demo.faulty_bucket "" ""
           [Demo.keyX; Demo.keyBad; Demo.keyGone] world0).
  exists Demo.keyBad. split; [simpl; auto|reflexivity].
Defined.

(** C2, as the code has it. The name of every fetched object is what
    [filepath.Rel] makes of the key against the traversal root (key
    [root/a/b/c.txt] under root [root/] gives [a/b/c.txt]).  The task fails
    only when the timestamp does not parse, when [filepath.Rel] reports an
    error, or when [Get] fails; [filepath.Rel] reports an error when
    exactly one of root and key is an absolute path.  A key that does not
    lie under the root is not rejected for that: whenever its task
    succeeds, the object is named by a path that begins with [..] and
    climbs out of the root.  Key [a/b.txt], which a listing of the prefix
    [a/b] reports, is fetched under the name [../b.txt], and key
    [other/x.txt] under root [root/] under the name [../other/x.txt]. *)
Theorem relative_name_or_failure (rt : Runtime) (bkt : S3.Bucket)
        (base : string) (k : S3.Key) :
  (forall c, doFetch rt bkt base k = Ok c ->
             Filepath.Rel base (S3.Key_ k) = Ok (Name c))
  /\ (forall e, Filepath.Rel base (S3.Key_ k) = Err e ->
                is_ok (doFetch rt bkt base k) = false
                /\ (is_ok (time_Parse rt (S3.LastModified k)) = true ->
                    doFetch rt bkt base k
                    = Err ("failed to find relative path for " +++ fmt_q (S3.Key_ k)
                             +++ ": " +++ e)))
  /\ (Filepath.rooted base <> Filepath.rooted (S3.Key_ k) ->
      is_ok (doFetch rt bkt base k) = false)
  /\ (is_ok (doFetch rt bkt base k)
      = is_ok (time_Parse rt (S3.LastModified k))
        && is_ok (Filepath.Rel base (S3.Key_ k))
        && is_ok (S3.Get bkt (S3.Key_ k)))
  /\ (forall c, doFetch rt bkt base k = Ok c ->
                lies_under base (S3.Key_ k) = false ->
                climbs (Name c) = true)
  /\ Filepath.Rel "root/" "root/a/b/c.txt" = Ok "a/b/c.txt"
  /\ Filepath.Rel "root/" "other/x.txt" = Ok "../other/x.txt"
  /\ Filepath.Rel "a/b" "a/b.txt" = Ok "../b.txt".
Proof.
  assert (Hfail : forall e, Filepath.Rel base (S3.Key_ k) = Err e ->
                            is_ok (doFetch rt bkt base k) = false
                            /\ (is_ok (time_Parse rt (S3.LastModified k)) = true ->
                                doFetch rt bkt base k
                                = Err ("failed to find relative path for "
                                         +++ fmt_q (S3.Key_ k) +++ ": " +++ e))).
  { intros e He. unfold doFetch. rewrite He.
    destruct (time_Parse rt (S3.LastModified k)); simpl; split; auto; discriminate. }
  assert (Hname : forall c, doFetch rt bkt base k = Ok c ->
                            Filepath.Rel base (S3.Key_ k) = Ok (Name c)).
  { intros c. unfold doFetch.
    destruct (time_Parse rt (S3.LastModified k)) as [lastMod|e]; [|discriminate].
    destruct (Filepath.Rel base (S3.Key_ k)) as [relPath|e]; [|discriminate].
    destruct (S3.Get bkt (S3.Key_ k)) as [data|e]; [|discriminate].
    intros Eq. injection Eq as <-. reflexivity. }
  split; [exact Hname|]. split; [exact Hfail|]. split; [|split; [|split]].
  - intros Hne. apply Rel_rooted_mismatch in Hne. now apply (Hfail _ Hne).
  - unfold doFetch.
    destruct (time_Parse rt (S3.LastModified k)) as [lastMod|e]; [|reflexivity].
    destruct (Filepath.Rel base (S3.Key_ k)) as [relPath|e]; [|reflexivity].
    destruct (S3.Get bkt (S3.Key_ k)) as [data|e]; reflexivity.
  - intros c Hc Hout. exact (Rel_outside _ _ _ (Hname c Hc) Hout).
  - repeat split; reflexivity.
Qed.

(** An absolute key under a relative root is refused; the key [a/b.txt],
    which is not under [a/b], gets a name that climbs. *)
Lemma relative_name_or_failure_witness :
  (Filepath.rooted "root/" <> Filepath.rooted "/other/x.txt"
   /\ is_ok (doFetch Demo.rt Demo.stray_bucket "root/"
                     (S3.mkKey "/other/x.txt" Demo.stamp 5)) = false)
  /\ (lies_under "a/b" (S3.Key_ Demo.stray) = false
      /\ exists c, doFetch Demo.rt Demo.stray_bucket "a/b" Demo.stray = Ok c
                   /\ climbs (Name c) = true).
Proof.
  split.
  - split; [discriminate|].
    apply (proj1 (proj2 (proj2 (relative_name_or_failure
                                  Demo.rt Demo.stray_bucket "root/"
                                  (S3.mkKey "/other/x.txt" Demo.stamp 5))))).
    discriminate.
  - split; [reflexivity|].
    exists (mkS3Content "../b.txt" Demo.instant Demo.hello).
    split; [reflexivity|].
    exact (proj1 (proj2 (proj2 (proj2 (proj2
             (relative_name_or_failure Demo.rt Demo.stray_bucket "a/b" Demo.stray)))))
                 _ eq_refl eq_refl).
Defined.

(** C2, as the claim has it, fails, even for the keys that a listing of
    the root returns and that begin with the root: the listing of the
    prefix [a/b] returns the key [a/b.txt], which does not lie under the
    path [a/b], and its task does not fail. *)
Lemma key_outside_root_not_rejected :
  ~ (forall (rt : Runtime) (bkt : S3.Bucket) (root : string)
            (resp : S3.ListResp) (k : S3.Key),
        S3.List bkt root "/" "" 10000%Z = Ok resp ->
        In k (S3.Contents resp) ->
        String.prefix root (S3.Key_ k) = true ->
        lies_under root (S3.Key_ k) = false ->
        is_ok (doFetch rt bkt root k) = false).
Proof.
  intros H.
  specialize (H Demo.rt Demo.stray_bucket "a/b" (S3.mkListResp [Demo.stray] [] false)
                Demo.stray eq_refl (or_introl eq_refl) eq_refl eq_refl).
  discriminate H.
Qed.

(** The listings of the scenario bucket. *)
Lemma scenario_Listed : Listed Demo.bucket "" Demo.namespace.
Proof. simpl. repeat split. Qed.

Lemma fetchAll_singleton rt (Hfair : fair rt) bkt prfx base k c world :
  doFetch rt bkt base k = Ok c ->
  fetchAll rt bkt prfx base [k] world = (([c], None), joined world).
Proof.
  intros Hk. unfold fetchAll.
  rewrite (Permutation_length_1_inv (Hfair (joins world) [k])).
  simpl. rewrite Hk. reflexivity.
Qed.

(** C1. The objects of a traversal that succeeds are those of the level
    itself, then those of its child prefixes, child after child in the
    order of the listing, and so on below.  For a root with leaf [x]
    ([hello]) and child prefix [sub/] with leaf [sub/y] ([world]), the
    traversal returns [x] then [sub/y], and the archive is the entry of
    [x], of size 5, then the entry of [sub/y], of size 5, then the
    trailer. *)
Theorem traversal_order (rt : Runtime) (Hfair : fair rt) :
  (forall bkt fuel prfx root path world contents world',
      fetchPath rt fuel bkt prfx root path world = Some ((contents, None), world') ->
      exists ns, Listed bkt path ns /\ InOrder rt bkt root ns contents)
  /\ (forall t fuel tarDst world,
         time_Parse rt Demo.stamp = Ok t ->
         let x := mkS3Content "x" t Demo.hello in
         let y := mkS3Content "sub/y" t Demo.world in
         let hx := header rt (ticks world) 0 x in
         let hy := header rt (ticks world) 1 y in
         (exists world1,
             fetchPath rt (S (S fuel)) Demo.bucket "" "" "" world
             = Some (([x; y], None), world1))
         /\ Tar.Name hx = "x" /\ Tar.Size hx = 5%Z
         /\ Tar.Name hy = "sub/y" /\ Tar.Size hy = 5%Z
         /\ (is_ok (tar_marshal rt hx) = true ->
             is_ok (tar_marshal rt hy) = true ->
             exists exit world',
               main rt (S (S fuel)) Demo.bucket "" tarDst world = Some (exit, world')
               /\ fileWrites world'
                  = fileWrites world
                      ++ [mkFileWrite tarDst
                            (gzip_compress
                               rt (record rt (hx, Demo.hello)
                                     ++ record rt (hy, Demo.world) ++ trailer))
                            filePerms])).
Proof.
  split.
  - intros bkt fuel prfx root path world contents world' E.
    destruct (fetchPath_success rt bkt root _ _ _ _ _ _ E) as (ns & HL & _ & HW).
    exists ns. split; [exact HL|].
    exact (walked_order _ _ _ _ _ _ _ _ (walk_success rt bkt root Hfair ns _ _ _ _ _ HW)).
  - intros t fuel tarDst world Ht x y hx hy.
    assert (Hx : doFetch rt Demo.bucket "" Demo.keyX = Ok x)
      by (unfold doFetch; simpl; rewrite Ht; reflexivity).
    assert (Hy : doFetch rt Demo.bucket "" Demo.keyY = Ok y)
      by (unfold doFetch; simpl; rewrite Ht; reflexivity).
    assert (Hfetch : fetchPath rt (S (S fuel)) Demo.bucket "" "" "" world
                     = Some (([x; y], None),
                             joined (logged "sub/" (joined (logged "" world))))).
    { rewrite (fetchPath_walk rt Demo.bucket "" Demo.namespace (S (S fuel)) "" "" world
                              scenario_Listed) by (simpl; lia).
      unfold Demo.namespace. rewrite walk_Level.
      rewrite (fetchAll_singleton rt Hfair _ _ _ _ _ _ Hx).
      cbn [walk_children fst snd]. rewrite walk_Level.
      rewrite (fetchAll_singleton rt Hfair _ _ _ _ _ _ Hy). reflexivity. }
    split; [eauto|]. repeat (split; [reflexivity|]).
    intros Hmx Hmy. unfold main. rewrite Hfetch.
    assert (Henc : encodable rt (ticks world) [x; y]).
    { intros [|[|i]] o Hnth; simpl in Hnth; try (injection Hnth as <-); auto.
      destruct i; discriminate. }
    rewrite (tarify_Buffer rt [] [x; y]
                           (joined (logged "sub/" (joined (logged "" world)))) Henc).
    cbn [Tar.buf Tar.NewBuffer app].
    rewrite body_records. cbn [entries flat_map]. rewrite app_nil_r, <- app_assoc.
    change (header rt (ticks (joined (logged "sub/" (joined (logged "" world))))) 0 x) with hx.
    change (header rt (S (ticks (joined (logged "sub/" (joined (logged "" world)))))) 0 y)
      with (header rt (S (ticks world)) 0 y).
    rewrite header_S. fold hy.
    destruct (ioutil_WriteFile rt tarDst _ filePerms); eexists; eexists;
      (split; [reflexivity|reflexivity]).
Qed.

(** The scenario with the concrete runtime. *)
Lemma traversal_order_witness :
  fair Demo.rt
  /\ exists world1,
      fetchPath Demo.rt 2 Demo.bucket "" "" "" world0
      = Some (([Demo.objX; Demo.objY], None), world1).
Proof.
  split; [exact fair_rt|].
  exact (proj1 (proj2 (traversal_order Demo.rt fair_rt) Demo.instant 0 "out.tar.gz"
                      world0 eq_refl)).
Defined.


Lemma scenario_encodable tick :
  encodable Demo.rt tick [Demo.objX; Demo.objY].
Proof.
  intros [|[|[|i]]] o Hnth; simpl in Hnth; try discriminate;
    injection Hnth as <-; reflexivity.
Qed.





(** C7. The archive of a run that ends well, decompressed and read entry
    by entry, gives back the name and the payload of every object, in
    order, whatever header codec and compressor the libraries provide, as
    long as their readers undo their writers. *)
Theorem archive_roundtrip (rt : Runtime)
        (unmarshal : list byte -> option (Tar.Header * list byte))
        (gunzip : list byte -> option (list byte))
        (Hcodec : Codec (tar_marshal rt) unmarshal)
        (Hgzip : forall data, gunzip (gzip_compress rt data) = Some data)
        (bkt : S3.Bucket) (fuel : nat) (bktPath tarDst : string)
        (world world' : World) :
  main rt fuel bkt bktPath tarDst world = Some (Returned, world') ->
  exists contents world1 file tar es,
    fetchPath rt fuel bkt "" bktPath bktPath world = Some ((contents, None), world1)
    /\ fileWrites world' = fileWrites world ++ [file]
    /\ fw_name file = tarDst
    /\ gunzip (fw_data file) = Some tar
    /\ untar unmarshal tar = Some es
    /\ Forall2 reads_as contents es.
Proof.
  intros Hmain.
  destruct (main_cases _ _ _ _ _ _ _ _ Hmain)
    as [(r & err & _ & Hx)|(contents & world1 & HF & Htar)]; [discriminate|].
  destruct Htar as [(w & err & _ & Hx)|(_ & Henc & Hfw & _ & _)]; [discriminate|].
  destruct (fetchPath_quiet _ _ _ _ _ _ _ _ _ HF) as [Ht Hf].
  destruct (untar_body rt unmarshal Hcodec (ticks world1) contents Henc)
    as (es & Hes & HR).
  exists contents, world1, (archive_file rt tarDst (ticks world1) contents),
    (body rt (ticks world1) contents ++ trailer), es.
  split; [exact HF|]. split; [now rewrite Hfw, Hf|]. split; [reflexivity|].
  split; [apply Hgzip|]. split; [exact Hes|exact HR].
Qed.

(** The scenario, read back with the reader of the concrete codec. *)
Lemma archive_roundtrip_witness :
  Codec (tar_marshal Demo.rt) Demo.unmarshal
  /\ (forall data, Demo.gunzip (gzip_compress Demo.rt data) = Some data)
  /\ exists contents world1 file tar es,
      fetchPath Demo.rt 2 Demo.bucket "" "" "" world0
      = Some ((contents, None), world1)
      /\ fileWrites (mkWorld [call ""; call "sub/"] 2 2
                             [archive_file Demo.rt "out.tar.gz" 0
                                           [Demo.objX; Demo.objY]])
         = fileWrites world0 ++ [file]
      /\ fw_name file = "out.tar.gz"
      /\ Demo.gunzip (fw_data file) = Some tar
      /\ untar Demo.unmarshal tar = Some es
      /\ Forall2 reads_as contents es.
Proof.
  split; [exact codec|]. split; [exact gunzip_compress|].
  apply (archive_roundtrip Demo.rt Demo.unmarshal Demo.gunzip codec gunzip_compress
                           Demo.bucket 2 "" "out.tar.gz" world0).
  unfold main.
  change (fetchPath Demo.rt 2 Demo.bucket "" "" "" world0)
    with (Some (([Demo.objX; Demo.objY], @None string),
                mkWorld [call ""; call "sub/"] 2 0 [])).
  cbv beta iota.
  rewrite (tarify_Buffer Demo.rt [] [Demo.objX; Demo.objY] _ (scenario_encodable _)).
  reflexivity.
Defined.

(** C8. The truncation flag of a listing changes nothing: the traversal
    of a bucket is that of the same bucket with every flag cleared, so what
    lies beyond the first page of a level is dropped without an error.
    Every call sent to the store is the call of one level, with delimiter
    [/], no marker and the cap of 10000 keys; a traversal that succeeds has
    sent one call per level, parents first, and its objects are those of the
    keys the listings returned. *)
Theorem one_listing_per_level (rt : Runtime) (Hfair : fair rt) (bkt : S3.Bucket)
        (fuel : nat) (prfx root path : string) (world : World) :
  fetchPath rt fuel (untruncate bkt) prfx root path world
  = fetchPath rt fuel bkt prfx root path world
  /\ (forall r world',
         fetchPath rt fuel bkt prfx root path world = Some (r, world') ->
         exists paths, listCalls world' = listCalls world ++ map call paths)
  /\ (forall contents world',
         fetchPath rt fuel bkt prfx root path world = Some ((contents, None), world') ->
         exists ns,
           Listed bkt path ns
           /\ listCalls world' = listCalls world ++ map call (levels path ns)
           /\ InOrder rt bkt root ns contents
           /\ List.length contents = List.length (leaves ns))
  /\ call path = S3.mkListCall path "/" "" 10000.
Proof.
  split; [apply fetchPath_untruncate|]. split; [|split; [|reflexivity]].
  - intros r world' E. exact (fetchPath_calls _ _ _ _ _ _ _ _ _ E).
  - intros contents world' E.
    destruct (fetchPath_success rt bkt root _ _ _ _ _ _ E) as (ns & HL & _ & HW).
    destruct (walk_success rt bkt root Hfair ns _ _ _ _ _ HW) as [Ho Hc _ _ _].
    exists ns. split; [exact HL|]. split; [exact Hc|]. split; [exact Ho|].
    exact (InOrder_length _ _ _ _ _ Ho).
Qed.

(** A truncated first page: one call, the object of the page, no error. *)
Lemma one_listing_per_level_witness :
  fair Demo.rt
  /\ fetchPath Demo.rt 1 Demo.truncated_bucket "" "" "" world0
     = Some (([Demo.objX], None), mkWorld [call ""] 1 0 [])
  /\ exists ns,
      Listed Demo.truncated_bucket "" ns
      /\ listCalls (mkWorld [call ""] 1 0 [])
         = listCalls world0 ++ map call (levels "" ns)
      /\ InOrder Demo.rt Demo.truncated_bucket "" ns [Demo.objX]
      /\ List.length [Demo.objX] = List.length (leaves ns).
Proof.
  split; [exact fair_rt|]. split; [reflexivity|].
  exact (proj1 (proj2 (proj2 (one_listing_per_level
                                Demo.rt fair_rt Demo.truncated_bucket 1 "" "" "" world0)))
               [Demo.objX] (mkWorld [call ""] 1 0 []) eq_refl).
Defined.

(** C9. When the listing of the root returns no key and no prefix, [main]
    hands to the file system the compression of an archive that is the
    trailer alone, two blocks of 512 zero bytes, with no header, and
    returns (unless writing the file fails). *)
Theorem empty_namespace_archive (rt : Runtime) (Hfair : fair rt) (bkt : S3.Bucket)
        (path tarDst : string) (fuel : nat) (world : World) (tr : bool) :
  listing bkt path = Ok (S3.mkListResp [] [] tr) ->
  let archive := Tar.zeroBlock ++ Tar.zeroBlock in
  let file := mkFileWrite tarDst (gzip_compress rt archive) filePerms in
  fetchPath rt (S fuel) bkt "" path path world
  = Some (([], None), joined (logged path world))
  /\ tarify rt (Tar.NewBuffer []) [] (joined (logged path world))
     = (Tar.NewBuffer archive, joined (logged path world), None)
  /\ main rt (S fuel) bkt path tarDst world
     = Some (match ioutil_WriteFile rt tarDst (gzip_compress rt archive) filePerms with
             | Some err =>
                 Fatal ("writing tar/gzip buffer to " +++ fmt_q tarDst +++ ", " +++ err)
             | None => Returned
             end,
             mkWorld (listCalls world ++ [call path]) (S (joins world)) (ticks world)
                     (fileWrites world ++ [file]))
  /\ archive = Tar.zeros 1024.
Proof.
  intros HL archive file.
  assert (HF : fetchPath rt (S fuel) bkt "" path path world
               = Some (([], None), joined (logged path world))).
  { rewrite fetchPath_S, HL. simpl. unfold fetchAll.
    rewrite (Permutation_nil (Hfair _ [])). reflexivity. }
  assert (HT : tarify rt (Tar.NewBuffer []) [] (joined (logged path world))
               = (Tar.NewBuffer archive, joined (logged path world), None))
    by reflexivity.
  split; [exact HF|]. split; [exact HT|]. split; [|reflexivity].
  unfold main. rewrite HF, HT. cbn [Tar.buf Tar.NewBuffer].
  fold file. destruct (ioutil_WriteFile rt tarDst (gzip_compress rt archive) filePerms);
    reflexivity.
Qed.

(** The empty bucket. *)
Lemma empty_namespace_archive_witness :
  fair Demo.rt
  /\ listing Demo.empty_bucket "" = Ok (S3.mkListResp [] [] false)
  /\ main Demo.rt 1 Demo.empty_bucket "" "out.tar.gz" world0
     = Some (Returned,
             mkWorld [call ""] 1 0
                     [mkFileWrite "out.tar.gz" (Demo.magic ++ Tar.zeros 1024) filePerms]).
Proof.
  split; [exact fair_rt|]. split; [reflexivity|].
  exact (proj1 (proj2 (proj2 (empty_namespace_archive
                                Demo.rt fair_rt Demo.empty_bucket "" "out.tar.gz" 0
                                world0 false eq_refl)))).
Defined.

(** C10. When [tarify] fails on the header or on the payload of entry
    [i], the stream is left as the failure found it: it has grown by the
    headers and payloads of the entries before [i] and by no more than
    entry [i]; in particular the trailer is not there, and what was written
    is not taken back.  This holds for the [tarify] of the main command and
    for that of the benchmark command, over any writer that keeps the
    contract of [io.Writer]. *)
Theorem writer_failure_keeps_stream {W : Type} `{Tar.IoWriter W}
        (law : Tar.Stream W) (rt : Runtime) (w w' : W)
        (objects : list S3Content) (world world' : World) (err : string) :
  (forall e, err <> "closing tar buffer, " +++ e) ->
  (tarify rt w objects world = (w', world', Some err) ->
   Interrupted rt (ticks world) objects w w' err)
  /\ (forall (K : Type) (hooks : Bench.BenchEach K) (each each' : K),
         Bench.tarify rt w objects each world = (w', world', each', Some err) ->
         Interrupted rt (ticks world) objects w w' err).
Proof.
  intros Hnc.
  assert (Hmain : tarify rt w objects world = (w', world', Some err) ->
                  Interrupted rt (ticks world) objects w w' err).
  { intros ET. unfold tarify in ET.
    destruct (tarify_loop rt (Tar.NewWriter w) objects world)
      as [[tarw1 world1] [err1|]] eqn:EL.
    - injection ET as <- <- <-.
      destruct (tarify_loop_spec law rt objects _ _ _ _ _ (idle_NewWriter w) EL)
        as (i & object & e & p & Hnth & Hmsg & Hw & Hlo & Hhi).
      exists i, object, e, p. simpl in Hw, Hlo, Hhi.
      split; [exact Hnth|]. split; [exact Hmsg|]. split; [exact Hw|].
      split; [|split; [exact Hhi|]].
      + unfold lower in Hlo. destruct (firstn i objects); [apply is_prefix_nil|exact Hlo].
      + eapply is_prefix_trans; [exact Hhi|].
        clear. generalize (ticks world) as tick. revert i.
        induction objects as [|o objects IH]; intros i tick.
        * simpl. apply is_prefix_refl.
        * change (firstn (S i) (o :: objects)) with (o :: firstn i objects).
          simpl body. apply is_prefix_app, is_prefix_app.
          destruct i as [|i]; [apply is_prefix_nil|apply IH].
    - destruct (Tar.Close tarw1) as [tarw2 [e|]]; [|discriminate].
      injection ET as <- <- <-. now destruct (Hnc e). }
  split; [exact Hmain|].
  intros K hooks each each' EB. apply Hmain.
  destruct (Bench_tarify rt w objects each world) as [Ha Hb].
  rewrite EB in Ha, Hb. simpl in Ha, Hb.
  destruct (tarify rt w objects world) as [[w1 world1] r1].
  simpl in Ha, Hb. now rewrite <- Ha, <- Hb.
Qed.

(** A sink with room for 600 bytes, two objects: the entry of the first
    fits, its padding does not. *)
Lemma writer_failure_keeps_stream_witness :
  exists w' world',
    (forall e, "writing header of " +++ fmt_q "sub/y" +++ ", short write"
               <> "closing tar buffer, " +++ e)
    /\ tarify Demo.rt Demo.sink [Demo.objX; Demo.objY] world0
       = (w', world', Some ("writing header of " +++ fmt_q "sub/y" +++ ", short write"))
    /\ List.length (Tar.written w') = 600
    /\ Interrupted Demo.rt 0 [Demo.objX; Demo.objY] Demo.sink w'
                   ("writing header of " +++ fmt_q "sub/y" +++ ", short write").
Proof.
  assert (Hnc : forall e, "writing header of " +++ fmt_q "sub/y" +++ ", short write"
                          <> "closing tar buffer, " +++ e)
    by (intros e; discriminate).
  destruct (tarify Demo.rt Demo.sink [Demo.objX; Demo.objY] world0)
    as [[w' world'] r] eqn:ET.
  assert (Hr : r = Some ("writing header of " +++ fmt_q "sub/y" +++ ", short write")
               /\ List.length (Tar.written w') = 600)
    by (vm_compute in ET; injection ET as <- <- <-; split; reflexivity).
  destruct Hr as [-> Hlen].
  exists w', world'. split; [exact Hnc|]. split; [reflexivity|]. split; [exact Hlen|].
  exact (proj1 (writer_failure_keeps_stream
                  Limited_Stream Demo.rt Demo.sink w' [Demo.objX; Demo.objY]
                  world0 world' _ Hnc) ET).
Defined.

(** * Further properties of the code *)

(** ** Traversals *)

(** X1. A traversal that succeeds returns, as a multiset, exactly the
    objects of the leaf keys that the listings reported, at every depth:
    each object carries the name [filepath.Rel] gives its key against the
    root of the traversal and the bytes [Get] returns for the key, and
    each key has its object. *)
Theorem traversal_complete (rt : Runtime) (Hfair : fair rt) (bkt : S3.Bucket)
        (fuel : nat) (prfx root path : string) (world : World)
        (contents : list S3Content) (world' : World) :
  fetchPath rt fuel bkt prfx root path world = Some ((contents, None), world') ->
  exists ns,
    Listed bkt path ns
    /\ Permutation (map Ok contents) (map (doFetch rt bkt root) (leaves ns))
    /\ (forall c, In c contents ->
                  exists k, In k (leaves ns)
                            /\ Filepath.Rel root (S3.Key_ k) = Ok (Name c)
                            /\ S3.Get bkt (S3.Key_ k) = Ok (Data c))
    /\ (forall k, In k (leaves ns) ->
                  exists c, In c contents /\ doFetch rt bkt root k = Ok c).
Proof.
  intros E.
  destruct (fetchPath_success rt bkt root _ _ _ _ _ _ E) as (ns & HL & _ & HW).
  pose proof (walked_order _ _ _ _ _ _ _ _
                (walk_success rt bkt root Hfair ns _ _ _ _ _ HW)) as HO.
  pose proof (InOrder_perm _ _ _ _ _ HO) as HP.
  exists ns. split; [exact HL|]. split; [exact HP|]. split.
  - intros c Hin. apply in_map_Ok in Hin.
    apply (Permutation_in _ HP) in Hin. apply in_map_iff in Hin.
    destruct Hin as (k & Hk & Hin). exists k. split; [exact Hin|].
    destruct (doFetch_Ok _ _ _ _ _ Hk) as (_ & HR & HG). auto.
  - intros k Hin.
    assert (Hk : In (doFetch rt bkt root k) (map (doFetch rt bkt root) (leaves ns)))
      by now apply in_map.
    apply (Permutation_in _ (Permutation_sym HP)) in Hk.
    apply in_map_iff in Hk. destruct Hk as (c & Hc & Hin'). eauto.
Qed.

(** The scenario: both keys are there, under their names. *)
Lemma traversal_complete_witness :
  fair Demo.rt
  /\ exists ns,
      Listed Demo.bucket "" ns
      /\ Permutation (map Ok [Demo.objX; Demo.objY])
                     (map (doFetch Demo.rt Demo.bucket "") (leaves ns)).
Proof.
  split; [exact fair_rt|].
  destruct (traversal_complete Demo.rt fair_rt Demo.bucket 2 "" "" "" world0
              [Demo.objX; Demo.objY] (mkWorld [call ""; call "sub/"] 2 0 []) eq_refl)
    as (ns & HL & HP & _).
  exists ns. split; [exact HL|exact HP].
Defined.



(** X3. Whether a traversal succeeds does not depend on the order in which
    the goroutines finish, and neither do the objects it returns, up to
    their order, nor the calls it sends to the store. *)
Theorem schedule_independent (rt1 rt2 : Runtime) (Hfair1 : fair rt1)
        (Hfair2 : fair rt2)
        (Hparse : forall s, time_Parse rt1 s = time_Parse rt2 s)
        (bkt : S3.Bucket) (fuel : nat) (prfx root path : string) (world : World)
        (contents1 : list S3Content) (world1 : World) :
  fetchPath rt1 fuel bkt prfx root path world = Some ((contents1, None), world1) ->
  exists contents2 world2,
    fetchPath rt2 fuel bkt prfx root path world = Some ((contents2, None), world2)
    /\ Permutation contents1 contents2
    /\ listCalls world2 = listCalls world1.
Proof.
  intros E.
  destruct (fetchPath_tree rt1 bkt root _ _ _ _ _ _ E) as (ns & HL & Hd & Hl).
  pose proof (fetchPath_walk rt1 bkt root ns fuel prfx path world HL Hd) as HW1.
  rewrite E in HW1. injection HW1 as HW1. symmetry in HW1.
  destruct (walk_success rt1 bkt root Hfair1 ns _ _ _ _ _ HW1) as [Ho1 Hc1 Hf1 _ _].
  assert (Hf2 : forallb (fun k => is_ok (doFetch rt2 bkt root k)) (leaves ns) = true).
  { rewrite forallb_forall in Hf1 |- *. intros k Hin.
    rewrite <- (doFetch_runtime rt1 rt2 bkt root k Hparse). now apply Hf1. }
  destruct (walk_all_ok rt2 bkt root Hfair2 ns prfx path world Hl Hf2)
    as (contents2 & world2 & HW2).
  destruct (walk_success rt2 bkt root Hfair2 ns _ _ _ _ _ HW2) as [Ho2 Hc2 _ _ _].
  exists contents2, world2.
  split; [now rewrite (fetchPath_walk rt2 bkt root ns fuel prfx path world HL Hd), HW2|].
  split; [|congruence].
  pose proof (InOrder_perm _ _ _ _ _ Ho1) as P1.
  pose proof (InOrder_perm _ _ _ _ _ Ho2) as P2.
  rewrite <- (successes_map_Ok contents1), <- (successes_map_Ok contents2).
  apply successes_perm.
  eapply Permutation_trans; [exact P1|].
  eapply Permutation_trans; [|apply Permutation_sym; exact P2].
  erewrite map_ext; [apply Permutation_refl|].
  intros k. now apply doFetch_runtime.
Qed.

(** The scenario under two schedules: goroutines finishing in reverse
    order, and in the order they were started. *)
Lemma schedule_independent_witness :
  fair Demo.rt
  /\ fair (mkRuntime Demo.Parse (time_Now Demo.rt) 0%Z 0%Z (fun _ keys => keys)
                     Demo.marshal Demo.compress (fun _ _ _ => None))
  /\ exists contents2 world2,
      fetchPath (mkRuntime Demo.Parse (time_Now Demo.rt) 0%Z 0%Z (fun _ keys => keys)
                           Demo.marshal Demo.compress (fun _ _ _ => None))
                2 Demo.bucket "" "" "" world0
      = Some ((contents2, None), world2)
      /\ Permutation [Demo.objX; Demo.objY] contents2.
Proof.
  split; [exact fair_rt|].
  assert (Hfair2 : fair (mkRuntime Demo.Parse (time_Now Demo.rt) 0%Z 0%Z
                                   (fun _ keys => keys)
                                   Demo.marshal Demo.compress (fun _ _ _ => None)))
    by (intros n keys; apply Permutation_refl).
  split; [exact Hfair2|].
  destruct (schedule_independent Demo.rt _ fair_rt Hfair2 (fun s => eq_refl)
              Demo.bucket 2 "" "" "" world0 [Demo.objX; Demo.objY]
              (mkWorld [call ""; call "sub/"] 2 0 []) eq_refl)
    as (contents2 & world2 & HF & HP & _).
  exists contents2, world2. split; [exact HF|exact HP].
Defined.


(** ** The archive writer *)

Module TarMore.
Import GoString Taring Walk Archive Order.
Import TarFacts MainFacts.

Lemma encodable_firstn rt tick objects i :
  (forall j o, j < i -> nth_error objects j = Some o ->
               is_ok (tar_marshal rt (header rt tick j o)) = true) ->
  encodable rt tick (firstn i objects).
Proof.
  intros Hall j o Hnth.
  assert (Hj : j < i).
  { apply Nat.lt_le_trans with (List.length (firstn i objects)).
    - apply nth_error_Some. congruence.
    - rewrite length_firstn. lia. }
  apply Hall; [exact Hj|].
  now rewrite nth_error_firstn, (proj2 (Nat.ltb_lt j i) Hj) in Hnth.
Qed.

Section Writer.
Context {W : Type} `{Tar.IoWriter W}.
Hypothesis law : Tar.Stream W.
Variable rt : Runtime.

(** The stream after a loop of [tarify] that went through. *)
Lemma tarify_loop_pending objects :
  forall (tarw : Tar.Writer W) world tarw' world',
    idle tarw ->
    tarify_loop rt tarw objects world = (tarw', world', None) ->
    Tar.written (Tar.tw_w tarw')
    = Tar.written (Tar.tw_w tarw) ++ lower rt (ticks world) (Tar.tw_pad tarw) objects.
Proof.
  induction objects as [|object rest IH]; intros tarw world tarw' world' Hidle E.
  - simpl in E. injection E as <- <-. simpl. now rewrite app_nil_r.
  - rewrite tarify_loop_cons, TarHeader_header in E. cbv beta iota in E.
    destruct (Tar.WriteHeader (tar_marshal rt) tarw (header rt (ticks world) 0 object))
      as [tarw1 [e1|]] eqn:EH; [discriminate|].
    destruct (WriteHeader_idle law rt tarw _ Hidle _ _ EH) as [_ Hnone].
    destruct (Hnone eq_refl) as (Hw1 & _ & He1 & Hpad1 & Hreg).
    destruct (Hreg eq_refl) as [Hnb1 Hp1]. simpl in Hnb1, Hp1.
    rewrite Nat2Z.id in Hp1.
    destruct (Tar.Write tarw1 (Data object)) as [[tarw2 n] [e2|]] eqn:EW;
      [discriminate|].
    destruct (Write_payload law tarw1 (Data object) He1 Hnb1 _ _ _ EW)
      as [_ [Hp2 Hnone2]].
    destruct (Hnone2 eq_refl) as (Hw2 & He2 & Hnb2).
    assert (Hidle2 : idle tarw2) by (repeat split; auto; rewrite Hp2; exact Hpad1).
    rewrite (IH _ _ _ _ Hidle2 E), Hw2, Hw1, Hp2, Hp1.
    unfold lower at 2. rewrite pending_cons. unfold entry.
    simpl ticks. now rewrite <- !app_assoc.
Qed.

(** The body is what is pending and the padding of the last entry. *)
Lemma tarify_loop_owed objects (w : W) world tarw' world' :
  tarify_loop rt (Tar.NewWriter w) objects world = (tarw', world', None) ->
  Tar.written (Tar.tw_w tarw') = Tar.written w ++ pending rt (ticks world) objects
  /\ pending rt (ticks world) objects ++ Tar.zeros (Tar.tw_pad tarw')
     = body rt (ticks world) objects
  /\ idle tarw'
  /\ encodable rt (ticks world) objects.
Proof.
  intros E.
  pose proof (tarify_loop_pending objects _ _ _ _ (idle_NewWriter w) E) as Hp.
  pose proof (tarify_loop_spec law rt objects _ _ _ _ _ (idle_NewWriter w) E) as Hs.
  simpl in Hp, Hs. destruct Hs as (Hb & Hidle & Henc & _).
  assert (Hlow : lower rt (ticks world) 0 objects = pending rt (ticks world) objects)
    by (destruct objects; reflexivity).
  rewrite Hlow in Hp. split; [exact Hp|]. split; [|split; [exact Hidle|exact Henc]].
  rewrite Hp, <- app_assoc in Hb. now apply app_inv_head in Hb.
Qed.

Hypothesis Hrel : reliable W.

(** On a reliable stream the loop of [tarify] stops only at a header that
    cannot be encoded. *)
Lemma tarify_loop_refused objects :
  forall (tarw : Tar.Writer W) world tarw' world' err,
    idle tarw ->
    tarify_loop rt tarw objects world = (tarw', world', Some err) ->
    exists i o e,
      nth_error objects i = Some o
      /\ tar_marshal rt (header rt (ticks world) i o) = Err e
      /\ err = "writing header of " +++ fmt_q (Name o) +++ ", " +++ e
      /\ (forall j o', j < i -> nth_error objects j = Some o' ->
                       is_ok (tar_marshal rt (header rt (ticks world) j o')) = true)
      /\ Tar.written (Tar.tw_w tarw')
         = Tar.written (Tar.tw_w tarw) ++ Tar.zeros (Tar.tw_pad tarw)
             ++ body rt (ticks world) (firstn i objects).
Proof.
  induction objects as [|object rest IH]; intros tarw world tarw' world' err Hidle E;
    [discriminate|].
  rewrite tarify_loop_cons, TarHeader_header in E. cbv beta iota in E.
  set (hdr := header rt (ticks world) 0 object) in *.
  destruct (tar_marshal rt hdr) as [blk|e] eqn:Em.
  - assert (Hm : is_ok (tar_marshal rt hdr) = true) by now rewrite Em.
    pose proof (WriteHeader_reliable rt Hrel tarw hdr Hidle Hm) as HH.
    destruct (Tar.WriteHeader (tar_marshal rt) tarw hdr) as [tarw1 e1] eqn:EH.
    simpl in HH. subst e1.
    destruct (WriteHeader_idle law rt tarw hdr Hidle _ _ EH) as [_ Hnone].
    destruct (Hnone eq_refl) as (Hw1 & _ & He1 & Hpad1 & Hreg).
    destruct (Hreg eq_refl) as [Hnb1 Hp1]. simpl in Hnb1, Hp1.
    rewrite Nat2Z.id in Hp1.
    pose proof (Write_reliable Hrel tarw1 (Data object) He1 Hnb1) as HW.
    destruct (Tar.Write tarw1 (Data object)) as [[tarw2 n] e2] eqn:EW.
    simpl in HW. subst e2.
    destruct (Write_payload law tarw1 (Data object) He1 Hnb1 _ _ _ EW)
      as [_ [Hp2 Hnone2]].
    destruct (Hnone2 eq_refl) as (Hw2 & He2 & Hnb2).
    assert (Hidle2 : idle tarw2) by (repeat split; auto; rewrite Hp2; exact Hpad1).
    destruct (IH _ _ _ _ _ Hidle2 E) as (i & o & e & Hnth & Hme & Hmsg & Hbefore & Hw).
    exists (S i), o, e. simpl ticks in *.
    split; [exact Hnth|]. split; [now rewrite <- header_S|]. split; [exact Hmsg|].
    split.
    + intros [|j] o' Hj Hnth'; simpl in Hnth'.
      * injection Hnth' as <-. exact Hm.
      * rewrite <- header_S. apply Hbefore; [lia|exact Hnth'].
    + rewrite Hw, Hw2, Hw1, Hp2, Hp1.
      change (firstn (S i) (object :: rest)) with (object :: firstn i rest).
      simpl body. unfold entry, padding. fold hdr. now rewrite <- !app_assoc.
  - unfold Tar.WriteHeader, Tar.Flush in E.
    destruct Hidle as (He & Hnb & Hpad). rewrite He, Hnb in E. simpl in E.
    unfold Tar.zeroBlock in E. rewrite firstn_zeros in E by exact Hpad.
    destruct (Tar.io_Write (Tar.tw_w tarw) (Tar.zeros (Tar.tw_pad tarw)))
      as [[w1 n1] e1] eqn:E1.
    pose proof (Hrel (Tar.tw_w tarw) (Tar.zeros (Tar.tw_pad tarw))) as Hr.
    rewrite E1 in Hr. simpl in Hr. subst e1.
    destruct (io_Write_cases law _ _ _ _ _ E1) as [_ Hw1].
    fold hdr in E. rewrite Em in E. injection E as <- <- <-.
    exists 0, object, e. simpl. rewrite app_nil_r.
    split; [reflexivity|]. split; [exact Em|]. split; [reflexivity|].
    split; [intros j o' Hj; lia|]. now apply Hw1.
Qed.

End Writer.
End TarMore.

Import TarMore.

(** X4. On a writer that never fails, as the [bytes.Buffer] of [main],
    [tarify] fails only when the header of an object cannot be encoded, at
    the first such object, with the error of the encoder: the payload is
    always as long as the header says, so the archive writer has no
    "write too long" or "missed writing" to report.  The entries of the
    objects before are complete in the stream. *)
Theorem tarify_fails_only_on_encoding {W : Type} `{Tar.IoWriter W}
        (law : Tar.Stream W) (Hrel : reliable W) (rt : Runtime) (w w' : W)
        (objects : list S3Content) (world world' : World) (err : string) :
  tarify rt w objects world = (w', world', Some err) ->
  exists i o e,
    nth_error objects i = Some o
    /\ tar_marshal rt (header rt (ticks world) i o) = Err e
    /\ err = "writing header of " +++ fmt_q (Name o) +++ ", " +++ e
    /\ encodable rt (ticks world) (firstn i objects)
    /\ Tar.written w' = Tar.written w ++ body rt (ticks world) (firstn i objects).
Proof.
  intros ET. unfold tarify in ET.
  destruct (tarify_loop rt (Tar.NewWriter w) objects world)
    as [[tarw1 world1] [err1|]] eqn:EL.
  - injection ET as <- <- <-.
    destruct (tarify_loop_refused law rt Hrel objects _ _ _ _ _ (idle_NewWriter w) EL)
      as (i & o & e & Hnth & Hm & Hmsg & Hbefore & Hw).
    exists i, o, e. split; [exact Hnth|]. split; [exact Hm|]. split; [exact Hmsg|].
    split; [now apply encodable_firstn|exact Hw].
  - exfalso.
    pose proof (tarify_loop_spec law rt objects _ _ _ _ _ (idle_NewWriter w) EL) as HS.
    destruct HS as (_ & Hidle & _).
    pose proof (Close_reliable Hrel tarw1 Hidle) as HC.
    destruct (Tar.Close tarw1) as [tarw2 [e|]]; [discriminate HC|discriminate ET].
Qed.

(** The object [x], then an object whose name holds a NUL. *)
Lemma tarify_fails_only_on_encoding_witness :
  Tar.Stream Tar.Buffer /\ reliable Tar.Buffer
  /\ exists w' world' i o,
      tarify Demo.rt (Tar.NewBuffer [])
             [Demo.objX; mkS3Content (str1 zero) Demo.instant Demo.hello] world0
      = (w', world',
         Some ("writing header of " +++ fmt_q (str1 zero)
                 +++ ", archive/tar: NUL in name"))
      /\ nth_error [Demo.objX; mkS3Content (str1 zero) Demo.instant Demo.hello] i
         = Some o
      /\ Name o = str1 zero
      /\ List.length (Tar.written w') = 1024.
Proof.
  split; [exact Buffer_Stream|]. split; [exact Buffer_reliable|].
  destruct (tarify Demo.rt (Tar.NewBuffer [])
                   [Demo.objX; mkS3Content (str1 zero) Demo.instant Demo.hello] world0)
    as [[w' world'] r] eqn:ET.
  assert (Hr : r = Some ("writing header of " +++ fmt_q (str1 zero)
                           +++ ", archive/tar: NUL in name")
               /\ List.length (Tar.written w') = 1024)
    by (vm_compute in ET; injection ET as <- <- <-; split; reflexivity).
  destruct Hr as [-> Hlen].
  destruct (tarify_fails_only_on_encoding Buffer_Stream Buffer_reliable Demo.rt _ _ _ _ _ _ ET)
    as (i & o & e & Hnth & Hm & Hmsg & _ & _).
  exists w', world', i, o. split; [reflexivity|]. split; [exact Hnth|].
  split; [|exact Hlen].
  destruct i as [|[|i]]; simpl in Hnth.
  - injection Hnth as <-. discriminate Hm.
  - injection Hnth as <-. reflexivity.
  - destruct i; discriminate Hnth.
Defined.

(** X5. When [tarify] fails in closing the archive, every entry is in the
    stream with its header and its payload: the stream has grown by them
    and by no more than the padding and the trailer that were still to
    come. *)
Theorem close_failure_keeps_entries {W : Type} `{Tar.IoWriter W}
        (law : Tar.Stream W) (rt : Runtime) (w w' : W)
        (objects : list S3Content) (world world' : World) (e : string) :
  tarify rt w objects world = (w', world', Some ("closing tar buffer, " +++ e)) ->
  encodable rt (ticks world) objects
  /\ exists p,
      Tar.written w' = Tar.written w ++ p
      /\ is_prefix (pending rt (ticks world) objects) p
      /\ is_prefix p (body rt (ticks world) objects ++ trailer).
Proof.
  intros ET. unfold tarify in ET.
  destruct (tarify_loop rt (Tar.NewWriter w) objects world)
    as [[tarw1 world1] [err1|]] eqn:EL.
  { exfalso. injection ET as _ _ Herr.
    destruct (tarify_loop_spec law rt objects _ _ _ _ _ (idle_NewWriter w) EL)
      as (i & o & e' & p & _ & [Hmsg|Hmsg] & _); rewrite Hmsg in Herr;
      discriminate Herr. }
  destruct (tarify_loop_owed law rt objects w world _ _ EL) as (Hw & Hbody & Hidle & Henc).
  split; [exact Henc|].
  unfold Tar.Close in ET. destruct Hidle as (He & Hnb & Hpad). rewrite He in ET.
  destruct (Tar.Flush tarw1) as [tarw2 e2] eqn:EF.
  destruct (Flush_idle law tarw1 (conj He (conj Hnb Hpad)) _ _ EF) as [(q & Hq & Hpre) Hnone].
  destruct e2 as [e2|].
  { injection ET as <- _ _. simpl. exists (pending rt (ticks world) objects ++ q).
    split; [now rewrite Hq, Hw, <- app_assoc|]. split; [apply is_prefix_app_r|].
    rewrite <- Hbody, <- app_assoc. apply is_prefix_app.
    eapply is_prefix_trans; [exact Hpre|apply is_prefix_app_r]. }
  destruct (Hnone eq_refl) as (Hw2 & _).
  assert (Hfull : Tar.written (Tar.tw_w tarw2)
                  = Tar.written w ++ body rt (ticks world) objects)
    by now rewrite Hw2, Hw, <- app_assoc, Hbody.
  simpl in ET.
  destruct (Tar.io_Write (Tar.tw_w tarw2) Tar.zeroBlock) as [[w3 n3] e3] eqn:E3.
  destruct (io_Write_cases law _ _ _ _ _ E3) as [Ha3 H3].
  assert (Hlow : is_prefix (pending rt (ticks world) objects)
                           (body rt (ticks world) objects))
    by (rewrite <- Hbody; apply is_prefix_app_r).
  destruct e3 as [e3|].
  { injection ET as <- _ _. simpl.
    exists (body rt (ticks world) objects ++ firstn n3 Tar.zeroBlock).
    split; [now rewrite Ha3, Hfull, <- app_assoc|]. split.
    - eapply is_prefix_trans; [exact Hlow|apply is_prefix_app_r].
    - apply is_prefix_app. unfold trailer.
      eapply is_prefix_trans; [apply is_prefix_firstn|apply is_prefix_app_r]. }
  destruct (Tar.io_Write w3 Tar.zeroBlock) as [[w4 n4] e4] eqn:E4.
  destruct (io_Write_cases law _ _ _ _ _ E4) as [Ha4 H4].
  destruct e4 as [e4|]; [|discriminate ET].
  injection ET as <- _ _. simpl.
  exists (body rt (ticks world) objects ++ Tar.zeroBlock ++ firstn n4 Tar.zeroBlock).
  split; [now rewrite Ha4, (H3 eq_refl), Hfull, <- !app_assoc|]. split.
  - eapply is_prefix_trans; [exact Hlow|apply is_prefix_app_r].
  - apply is_prefix_app. unfold trailer. apply is_prefix_app, is_prefix_firstn.
Qed.

(** A sink with room for the entry of [x] and its padding, not for the
    trailer. *)
Lemma close_failure_keeps_entries_witness :
  exists w' world',
    tarify Demo.rt (Tar.mkLimited [] 1100) [Demo.objX] world0
    = (w', world', Some ("closing tar buffer, " +++ "short write"))
    /\ encodable Demo.rt 0 [Demo.objX]
    /\ List.length (Tar.written w') = 1100.
Proof.
  destruct (tarify Demo.rt (Tar.mkLimited [] 1100) [Demo.objX] world0)
    as [[w' world'] r] eqn:ET.
  assert (Hr : r = Some ("closing tar buffer, " +++ "short write")
               /\ List.length (Tar.written w') = 1100)
    by (vm_compute in ET; injection ET as <- <- <-; split; reflexivity).
  destruct Hr as [-> Hlen].
  exists w', world'. split; [reflexivity|].
  split; [|exact Hlen].
  exact (proj1 (close_failure_keeps_entries Limited_Stream Demo.rt _ _ _ _ _ _ ET)).
Defined.

(** ** The pipeline, end to end *)



(** X6. [main] returns without [fatalf] exactly when the traversal
    succeeds, the header of every object it returned can be encoded, and
    writing the file succeeds; the world is then the world of the
    traversal with one reading of the clock by [TarHeader] for each object
    (the readings of [doFetch] for its log line are not counted) and one
    call of [ioutil.WriteFile] more, with the compressed archive of the
    objects and mode 0644. *)
Theorem main_returns_iff (rt : Runtime) (bkt : S3.Bucket) (fuel : nat)
        (bktPath tarDst : string) (world world' : World) :
  main rt fuel bkt bktPath tarDst world = Some (Returned, world')
  <-> exists contents world1,
      fetchPath rt fuel bkt "" bktPath bktPath world = Some ((contents, None), world1)
      /\ encodable rt (ticks world) contents
      /\ ioutil_WriteFile rt tarDst
                          (gzip_compress rt (body rt (ticks world) contents ++ trailer))
                          filePerms = None
      /\ world' = mkWorld (listCalls world1) (joins world1)
                          (ticks world + List.length contents)
                          (fileWrites world
                             ++ [mkFileWrite tarDst
                                   (gzip_compress
                                      rt (body rt (ticks world) contents ++ trailer))
                                   420%Z]).
Proof.
  split.
  - intros Hmain. unfold main in Hmain.
    destruct (fetchPath rt fuel bkt "" bktPath bktPath world)
      as [[[contents [err|]] world1]|] eqn:HF; try discriminate Hmain.
    destruct (fetchPath_quiet _ _ _ _ _ _ _ _ _ HF) as [Ht Hf].
    destruct (tarify rt (Tar.NewBuffer []) contents world1)
      as [[tarArch world2] [err|]] eqn:ET; [discriminate Hmain|].
    destruct (tarify_success Buffer_Stream rt _ _ _ _ _ ET) as (Hw & Henc & ->).
    destruct tarArch as [b]. simpl in Hw. subst b. simpl Tar.buf in Hmain.
    rewrite Ht in *.
    destruct (ioutil_WriteFile rt tarDst _ filePerms) as [err|] eqn:EW;
      [discriminate Hmain|].
    injection Hmain as <-. exists contents, world1.
    split; [reflexivity|]. split; [exact Henc|]. split; [exact EW|].
    simpl. now rewrite Hf.
  - intros (contents & world1 & HF & Henc & EW & ->).
    destruct (fetchPath_quiet _ _ _ _ _ _ _ _ _ HF) as [Ht Hf].
    unfold main. rewrite HF. rewrite <- Ht in Henc.
    rewrite (tarify_Buffer rt [] contents world1 Henc).
    cbn [Tar.buf Tar.NewBuffer app]. rewrite Ht, EW, Hf. reflexivity.
Qed.

(** The scenario, which ends well. *)
Lemma main_returns_iff_witness :
  exists world',
    main Demo.rt 2 Demo.bucket "" "out.tar.gz" world0 = Some (Returned, world')
    /\ List.length (fileWrites world') = 1.
Proof.
  eexists. split.
  - apply (main_returns_iff Demo.rt Demo.bucket 2 "" "out.tar.gz" world0).
    exists [Demo.objX; Demo.objY], (mkWorld [call ""; call "sub/"] 2 0 []).
    split; [reflexivity|]. split; [apply scenario_encodable|].
    split; reflexivity.
  - reflexivity.
Defined.

(** X7. In the archive of a run that ends well, once decompressed and
    read, there is one entry per leaf key of the namespace, each key has
    an entry with its relative name and its bytes, and every entry is that
    of a key. *)
Theorem archive_holds_every_key (rt : Runtime) (Hfair : fair rt)
        (unmarshal : list byte -> option (Tar.Header * list byte))
        (gunzip : list byte -> option (list byte))
        (Hcodec : Codec (tar_marshal rt) unmarshal)
        (Hgzip : forall data, gunzip (gzip_compress rt data) = Some data)
        (bkt : S3.Bucket) (fuel : nat) (bktPath tarDst : string)
        (world world' : World) :
  main rt fuel bkt bktPath tarDst world = Some (Returned, world') ->
  exists ns file tar es,
    Listed bkt bktPath ns
    /\ fileWrites world' = fileWrites world ++ [file]
    /\ gunzip (fw_data file) = Some tar
    /\ untar unmarshal tar = Some es
    /\ List.length es = List.length (leaves ns)
    /\ (forall k, In k (leaves ns) ->
                  exists e, In e es
                            /\ Filepath.Rel bktPath (S3.Key_ k) = Ok (Tar.Name (fst e))
                            /\ S3.Get bkt (S3.Key_ k) = Ok (snd e))
    /\ (forall e, In e es ->
                  exists k, In k (leaves ns)
                            /\ Filepath.Rel bktPath (S3.Key_ k) = Ok (Tar.Name (fst e))
                            /\ S3.Get bkt (S3.Key_ k) = Ok (snd e)).
Proof.
  intros Hmain.
  destruct (main_cases _ _ _ _ _ _ _ _ Hmain)
    as [(r & err & _ & Hx)|(contents & world1 & HF & Htar)]; [discriminate|].
  destruct Htar as [(w & err & _ & Hx)|(_ & Henc & Hfw & _ & _)]; [discriminate|].
  destruct (fetchPath_quiet _ _ _ _ _ _ _ _ _ HF) as [Ht Hf].
  destruct (untar_body rt unmarshal Hcodec (ticks world1) contents Henc)
    as (es & Hes & HR).
  destruct (fetchPath_success rt bkt bktPath _ _ _ _ _ _ HF) as (ns & HL & _ & HW).
  pose proof (walked_order _ _ _ _ _ _ _ _
                (walk_success rt bkt bktPath Hfair ns _ _ _ _ _ HW)) as HO.
  pose proof (InOrder_perm _ _ _ _ _ HO) as HP.
  exists ns, (archive_file rt tarDst (ticks world1) contents),
    (body rt (ticks world1) contents ++ trailer), es.
  split; [exact HL|]. split; [now rewrite Hfw, Hf|]. split; [apply Hgzip|].
  split; [exact Hes|]. split; [|split].
  - rewrite <- (Forall2_length HR). exact (InOrder_length _ _ _ _ _ HO).
  - intros k Hin.
    assert (Hk : In (doFetch rt bkt bktPath k)
                    (map (doFetch rt bkt bktPath) (leaves ns))) by now apply in_map.
    apply (Permutation_in _ (Permutation_sym HP)) in Hk.
    apply in_map_iff in Hk. destruct Hk as (c & Hc & Hinc).
    destruct (doFetch_Ok _ _ _ _ _ (eq_sym Hc)) as (_ & HRel & HGet).
    destruct (Forall2_In_l _ _ _ _ HR Hinc) as (e & Hine & Hn & _ & Hd).
    exists e. split; [exact Hine|]. rewrite Hn, Hd. auto.
  - intros e Hine.
    destruct (Forall2_In_r _ _ _ _ HR Hine) as (c & Hinc & Hn & _ & Hd).
    apply in_map_Ok in Hinc. apply (Permutation_in _ HP) in Hinc.
    apply in_map_iff in Hinc. destruct Hinc as (k & Hk & Hink).
    destruct (doFetch_Ok _ _ _ _ _ Hk) as (_ & HRel & HGet).
    exists k. split; [exact Hink|]. rewrite Hn, Hd. auto.
Qed.

(** The scenario, read back with the reader of the concrete codec. *)
Lemma archive_holds_every_key_witness :
  fair Demo.rt
  /\ Codec (tar_marshal Demo.rt) Demo.unmarshal
  /\ (forall data, Demo.gunzip (gzip_compress Demo.rt data) = Some data)
  /\ exists world' ns (es : list (Tar.Header * list byte)),
      main Demo.rt 2 Demo.bucket "" "out.tar.gz" world0 = Some (Returned, world')
      /\ Listed Demo.bucket "" ns
      /\ List.length es = List.length (leaves ns).
Proof.
  split; [exact fair_rt|]. split; [exact codec|]. split; [exact gunzip_compress|].
  destruct (main Demo.rt 2 Demo.bucket "" "out.tar.gz" world0)
    as [[exit world']|] eqn:Hmain; [|discriminate Hmain].
  assert (Hexit : exit = Returned)
    by (vm_compute in Hmain; injection Hmain as <- _; reflexivity).
  subst exit.
  destruct (archive_holds_every_key Demo.rt fair_rt Demo.unmarshal Demo.gunzip codec
              gunzip_compress Demo.bucket 2 "" "out.tar.gz" world0 world' Hmain)
    as (ns & file & tar & es & HL & _ & _ & _ & Hlen & _).
  exists world', ns, es. split; [reflexivity|]. split; [exact HL|exact Hlen].
Defined.

(** ** The command lines *)

Module CliMore.
Import GoString Taring.

Lemma substring_all s : substring 0 (String.length s) s = s.
Proof. induction s as [|c s IH]; simpl; [reflexivity|now rewrite IH]. Qed.

Lemma slice_from_1 c s : slice_from (String c s) 1 = s.
Proof. unfold slice_from. simpl. rewrite Nat.sub_0_r. apply substring_all. Qed.

End CliMore.

Import CliMore.

(** X8. [main] of the main command touches the store and the file system
    only after its checks: when it has listed or written anything, or has
    returned, the two keys were given, the region was known, source and
    destination were given and the source was a URL with a path; the
    bucket is then the host of the URL and the root of the traversal is
    the path of the URL without its first byte.  A URL with no path at
    all passes the checks and makes [main] panic on [Path[1:]] before
    anything is listed. *)
Theorem command_line_guards (env : Cli.Env) (rt : Runtime) (fuel : nat)
        (flags : Cli.Flags) (world : World) :
  (forall out world',
      Cli.main env rt fuel flags world = Some (out, world') ->
      world' <> world \/ out = Cli.Ended Returned ->
      Cli.awsAccess flags <> "" /\ Cli.awsSecret flags <> ""
      /\ Cli.bucketSrc flags <> "" /\ Cli.tarDst flags <> ""
      /\ exists region u c rest e,
          Cli.aws_Regions env (Cli.awsRegion flags) = Some region
          /\ Cli.url_Parse env (Cli.bucketSrc flags) = Ok u
          /\ Cli.Path u = String c rest
          /\ main rt fuel
                  (Cli.s3_Bucket env (Cli.awsAccess flags) (Cli.awsSecret flags)
                                 region (Cli.Host u))
                  rest (Cli.tarDst flags) world = Some (e, world')
          /\ out = Cli.Ended e)
  /\ (forall region u,
         Cli.awsAccess flags <> "" -> Cli.awsSecret flags <> "" ->
         Cli.bucketSrc flags <> "" -> Cli.tarDst flags <> "" ->
         Cli.aws_Regions env (Cli.awsRegion flags) = Some region ->
         Cli.url_Parse env (Cli.bucketSrc flags) = Ok u ->
         Cli.Path u = "" ->
         Cli.main env rt fuel flags world = Some (Cli.Panic, world)).
Proof.
  split.
  - intros out world' E Hdone. unfold Cli.main in E.
    assert (Hno : forall o, Some (o, world) = Some (out, world') ->
                            (forall e, o <> Cli.Ended e) \/ (exists d, o = Cli.Ended (Fatal d)) ->
                            False).
    { intros o Eq Ho. injection Eq as -> ->.
      destruct Hdone as [Hw|Hr]; [now apply Hw|].
      destruct Ho as [Ho|(d & Ho)]; [now apply (Ho Returned)|].
      rewrite Ho in Hr. discriminate Hr. }
    destruct (String.eqb (Cli.awsAccess flags) "") eqn:Ea.
    { exfalso. apply (Hno _ E). left. discriminate. }
    destruct (String.eqb (Cli.awsSecret flags) "") eqn:Es.
    { exfalso. apply (Hno _ E). left. discriminate. }
    destruct (Cli.aws_Regions env (Cli.awsRegion flags)) as [region|] eqn:Er.
    2:{ exfalso. apply (Hno _ E). left. discriminate. }
    destruct (String.eqb (Cli.bucketSrc flags) "") eqn:Eb.
    { exfalso. apply (Hno _ E). left. discriminate. }
    destruct (String.eqb (Cli.tarDst flags) "") eqn:Et.
    { exfalso. apply (Hno _ E). left. discriminate. }
    apply String.eqb_neq in Ea, Es, Eb, Et.
    repeat (split; [assumption|]).
    unfold Cli.must in E.
    destruct (Cli.url_Parse env (Cli.bucketSrc flags)) as [u|err] eqn:Eu.
    2:{ exfalso. apply (Hno _ E). right. eauto. }
    unfold Cli.URL_Parse_root in E. cbv beta iota in E.
    destruct (Cli.Path u) as [|c rest] eqn:Ep.
    { exfalso. simpl in E. apply (Hno _ E). left. discriminate. }
    change (String.length (String c rest) <? 1) with false in E. cbv iota in E.
    rewrite slice_from_1 in E. simpl Cli.Host in E.
    destruct (main rt fuel _ rest (Cli.tarDst flags) world) as [[e w']|] eqn:Em;
      [|discriminate E].
    injection E as <- <-. exists region, u, c, rest, e. auto.
  - intros region u Ha Hs Hb Ht Hr Hu Hp. unfold Cli.main.
    apply String.eqb_neq in Ha, Hs, Hb, Ht.
    rewrite Ha, Hs, Hr, Hb, Ht, Hu. simpl. rewrite Hp. reflexivity.
Qed.

(** The bucket URL with a path, which runs the scenario, and the one
    without, which panics. *)
Lemma command_line_guards_witness :
  (exists world',
      Cli.main Demo2.env Demo.rt 2 (Demo2.flags "s3://mybucket/") world0
      = Some (Cli.Ended Returned, world')
      /\ Cli.awsAccess (Demo2.flags "s3://mybucket/") <> "")
  /\ Cli.main Demo2.env Demo.rt 2 (Demo2.flags "s3://mybucket") world0
     = Some (Cli.Panic, world0).
Proof.
  split.
  - destruct (Cli.main Demo2.env Demo.rt 2 (Demo2.flags "s3://mybucket/") world0)
      as [[out world']|] eqn:E; [|discriminate E].
    assert (Hout : out = Cli.Ended Returned)
      by (vm_compute in E; injection E as <- _; reflexivity).
    subst out. exists world'. split; [reflexivity|].
    exact (proj1 (proj1 (command_line_guards Demo2.env Demo.rt 2
                           (Demo2.flags "s3://mybucket/") world0)
                        _ _ E (or_intror eq_refl))).
  - apply (proj2 (command_line_guards Demo2.env Demo.rt 2
                    (Demo2.flags "s3://mybucket") world0)
                 "us-east-1" (Cli.mkURL "mybucket" ""));
      try discriminate; reflexivity.
Defined.

(** ** The benchmark *)

Module BenchMore.
Import GoString Taring Archive.
Import TarFacts MainFacts TarMore.

Lemma fmt_d_inj n m : fmt_d n = fmt_d m -> n = m.
Proof.
  unfold fmt_d. intros E.
  apply (f_equal NilEmpty.uint_of_string) in E.
  rewrite !NilEmpty.usu in E. injection E as E.
  apply (f_equal Nat.of_uint) in E.
  now rewrite !DecimalNat.Unsigned.of_to in E.
Qed.

Lemma length_filled size r : List.length (Benchmark.filled size r) = size.
Proof.
  unfold Benchmark.filled.
  rewrite length_firstn, length_app, length_zeros. lia.
Qed.

Lemma Discard_Stream : Tar.Stream Benchmark.Discard.
Proof.
  split; intros w p; simpl.
  - now rewrite firstn_all.
  - lia.
  - lia.
Qed.

Lemma Dst_Stream : Tar.Stream Benchmark.Dst.
Proof.
  split; intros [d|b] p; simpl; try lia; now rewrite firstn_all.
Qed.

Lemma Dst_reliable : reliable Benchmark.Dst.
Proof. intros [d|b] p; reflexivity. Qed.

Section Gen.
Variable rt : Runtime.
Variable rand_Read : nat -> nat -> list byte.
Variable make_files : Z -> bool.
Variable make_bytes : nat -> Z -> bool.

Local Notation gen_loop := (Benchmark.gen_loop rt rand_Read make_bytes).
Local Notation GenTarFiles := (Benchmark.GenTarFiles rt rand_Read make_files make_bytes).

Lemma gen_loop_inv size count :
  forall i seed world files seed' world',
    gen_loop count i size seed world = Some (files, seed', world') ->
    seed' = seed + count
    /\ world' = mkWorld (listCalls world) (joins world) (ticks world + count)
                        (fileWrites world)
    /\ List.length files = count
    /\ (forall j f, nth_error files j = Some f ->
                    f = {| Name := fmt_d (i + j);
                           LastMod := time_Now rt (ticks world + j);
                           Data := Benchmark.filled
                                     (Z.to_nat size)
                                     (rand_Read (seed + j) (Z.to_nat size)) |}).
Proof.
  induction count as [|count IH]; intros i seed world files seed' world' E.
  - simpl in E. injection E as <- <- <-. rewrite !Nat.add_0_r.
    split; [reflexivity|]. split; [now destruct world|]. split; [reflexivity|].
    intros [|j] f Hn; discriminate Hn.
  - simpl in E. unfold Benchmark.GenTarFile in E.
    destruct ((size <? 0)%Z || negb (make_bytes seed size)); [discriminate E|].
    destruct (gen_loop count (S i) size (S seed) _)
      as [[[fs s2] w2]|] eqn:EL; [|discriminate E].
    injection E as <- <- <-.
    destruct (IH _ _ _ _ _ _ EL) as (Hs & Hw & Hl & Hf). simpl in Hw.
    split; [lia|]. split; [rewrite Hw; f_equal; lia|]. split; [simpl; lia|].
    intros [|j] f Hn; simpl in Hn.
    + injection Hn as <-. now rewrite !Nat.add_0_r.
    + rewrite (Hf _ _ Hn). simpl ticks. now rewrite <- !Nat.add_succ_comm.
Qed.

(** The loop stops at the first [make] that fails. *)
Lemma gen_loop_None size count :
  forall i seed world,
    gen_loop count i size seed world = None
    <-> exists j, j < count
                  /\ ((size < 0)%Z \/ make_bytes (seed + j) size = false).
Proof.
  induction count as [|count IH]; intros i seed world.
  - simpl. split; [discriminate|]. intros (j & Hj & _). lia.
  - simpl. unfold Benchmark.GenTarFile.
    destruct ((size <? 0)%Z || negb (make_bytes seed size)) eqn:Ec.
    + split; [intros _|reflexivity]. exists 0. split; [lia|].
      rewrite Nat.add_0_r. apply orb_prop in Ec. destruct Ec as [Ec|Ec].
      * left. now apply Z.ltb_lt.
      * right. now apply negb_true_iff.
    + apply orb_false_elim in Ec. destruct Ec as [Es Em].
      apply Z.ltb_ge in Es. apply negb_false_iff in Em.
      specialize (IH (S i) (S seed)
                     (mkWorld (listCalls world) (joins world) (S (ticks world))
                              (fileWrites world))).
      destruct (gen_loop count (S i) size (S seed) _) as [[[fs s2] w2]|].
      * split; [discriminate|]. intros (j & Hj & Hbad). exfalso.
        destruct j as [|j].
        -- rewrite Nat.add_0_r in Hbad. destruct Hbad; [lia|congruence].
        -- assert (Hne : @None (list Bench.TarFile * nat * World)
                         <> Some (fs, s2, w2)) by discriminate.
           apply Hne. symmetry. apply IH. exists j. split; [lia|].
           now rewrite Nat.add_succ_comm.
      * split; [intros _|reflexivity].
        destruct (proj1 IH eq_refl) as (j & Hj & Hbad).
        exists (S j). split; [lia|]. now rewrite <- Nat.add_succ_comm.
Qed.

(** What [GenTarFiles] returns when it returns. *)
Lemma GenTarFiles_inv n size seed world files seed' world' :
  GenTarFiles n size seed world = Some (files, seed', world') ->
  (0 <= n)%Z
  /\ seed' = seed + Z.to_nat n
  /\ world' = mkWorld (listCalls world) (joins world) (ticks world + Z.to_nat n)
                      (fileWrites world)
  /\ List.length files = Z.to_nat n
  /\ (forall j f, nth_error files j = Some f ->
                  Name f = fmt_d j
                  /\ LastMod f = time_Now rt (ticks world + j)
                  /\ Data f = Benchmark.filled (Z.to_nat size)
                                               (rand_Read (seed + j) (Z.to_nat size))).
Proof.
  unfold Benchmark.GenTarFiles.
  destruct ((n <? 0)%Z || negb (make_files n)) eqn:En; [discriminate|].
  intros E. apply orb_false_elim in En. destruct En as [En _].
  apply Z.ltb_ge in En.
  destruct (gen_loop_inv _ _ _ _ _ _ _ _ E) as (Hs & Hw & Hl & Hf).
  repeat (split; [assumption|]).
  intros j f Hn. rewrite (Hf _ _ Hn). simpl. auto.
Qed.

(** [GenTarFiles] does not return exactly when one of its [make] fails:
    that of the files, on a negative count or one the runtime does not
    grant, or that of a payload, on a negative size or one the runtime
    does not grant. *)
Lemma GenTarFiles_None n size seed world :
  GenTarFiles n size seed world = None
  <-> ((n < 0)%Z \/ make_files n = false
       \/ exists j, j < Z.to_nat n
                    /\ ((size < 0)%Z \/ make_bytes (seed + j) size = false)).
Proof.
  unfold Benchmark.GenTarFiles.
  destruct ((n <? 0)%Z || negb (make_files n)) eqn:En.
  - split; [intros _|reflexivity].
    apply orb_prop in En. destruct En as [En|En].
    + left. now apply Z.ltb_lt.
    + right. left. now apply negb_true_iff.
  - apply orb_false_elim in En. destruct En as [En Em].
    apply Z.ltb_ge in En. apply negb_false_iff in Em.
    rewrite gen_loop_None. split; [auto|].
    intros [Hn|[Hm|Hj]]; [lia|congruence|exact Hj].
Qed.

End Gen.

(** The hooks of [tarify]'s loop: all of them around the entries when it
    goes through, and up to the [Before] of the entry that failed when it
    does not. *)
Lemma tarify_loop_hooks rt {W} `{Tar.IoWriter W} {K} `{Bench.BenchEach K} objects :
  forall i (tarw : Tar.Writer W) world (each : K) tarw' world' each' r,
    Bench.tarify_loop rt i tarw objects world each = (tarw', world', each', r) ->
    match r with
    | None => each' = Benchmark.hooks (List.length objects) i each
    | Some err =>
        exists j o e,
          nth_error objects j = Some o
          /\ each' = Bench.Before (i + j) (Benchmark.hooks j i each)
          /\ (err = "writing header of " +++ fmt_q (Name o) +++ ", " +++ e
              \/ err = "writing content of " +++ fmt_q (Name o) +++ ", " +++ e)
    end.
Proof.
  induction objects as [|object rest IH];
    intros i tarw world each tarw' world' each' r E.
  - simpl in E. injection E as <- <- <- <-. reflexivity.
  - cbn [Bench.tarify_loop] in E.
    destruct (TarHeader rt object world) as [hdr world1].
    destruct (Tar.WriteHeader (tar_marshal rt) tarw hdr) as [tarw1 [e1|]].
    { injection E as <- <- <- <-. exists 0, object, e1.
      rewrite Nat.add_0_r. simpl. auto. }
    destruct (Tar.Write tarw1 (Data object)) as [[tarw2 n] [e2|]].
    { injection E as <- <- <- <-. exists 0, object, e2.
      rewrite Nat.add_0_r. simpl. auto. }
    specialize (IH _ _ _ _ _ _ _ _ E). destruct r as [err|].
    + destruct IH as (j & o & e & Hn & He & Hm).
      exists (S j), o, e. split; [exact Hn|]. split; [|exact Hm].
      rewrite He. simpl. now rewrite Nat.add_succ_r.
    + exact IH.
Qed.

(** The length of the body of an archive whose headers take one block. *)
Lemma length_body rt objects :
  (forall hdr blk, tar_marshal rt hdr = Ok blk -> List.length blk = Tar.blockSize) ->
  forall tick,
    encodable rt tick objects ->
    List.length (body rt tick objects)
    = list_sum (map (fun o => Tar.blockSize + Benchmark.padded (List.length (Data o)))
                    objects).
Proof.
  intros Hblock. induction objects as [|o rest IH]; intros tick Henc; [reflexivity|].
  cbn [body map]. unfold list_sum. cbn [fold_right]. fold (list_sum (map (fun o => Tar.blockSize + Benchmark.padded (List.length (Data o))) rest)).
  rewrite !length_app. unfold entry, padding. rewrite length_app, length_zeros.
  rewrite IH.
  2:{ intros i o' Hn. rewrite header_S. apply (Henc (S i)). exact Hn. }
  pose proof (Henc 0 o eq_refl) as H0. unfold blocks.
  destruct (tar_marshal rt (header rt tick 0 o)) as [blk|e] eqn:Em; [|discriminate H0].
  rewrite (Hblock _ _ Em). unfold Benchmark.padded. lia.
Qed.

Lemma list_sum_const {A} (f : A -> nat) c l :
  (forall x, In x l -> f x = c) -> list_sum (map f l) = List.length l * c.
Proof.
  induction l as [|x l IH]; intros Hc; [reflexivity|].
  simpl. rewrite IH, (Hc x); [reflexivity|now left|].
  intros y Hy. apply Hc. now right.
Qed.

(** On a writer that never fails [tarify] fails only on a header. *)
Lemma tarify_refused {W} `{Tar.IoWriter W} (law : Tar.Stream W) (Hrel : reliable W)
      rt (w w' : W) objects world world' err :
  tarify rt w objects world = (w', world', Some err) ->
  exists i o e,
    nth_error objects i = Some o
    /\ tar_marshal rt (header rt (ticks world) i o) = Err e
    /\ err = "writing header of " +++ fmt_q (Name o) +++ ", " +++ e.
Proof.
  intros ET. unfold tarify in ET.
  destruct (tarify_loop rt (Tar.NewWriter w) objects world)
    as [[tarw1 world1] [err1|]] eqn:EL.
  - injection ET as <- <- <-.
    destruct (tarify_loop_refused law rt Hrel objects _ _ _ _ _ (idle_NewWriter w) EL)
      as (i & o & e & Hnth & Hm & Hmsg & _).
    exists i, o, e. auto.
  - exfalso.
    pose proof (tarify_loop_spec law rt objects _ _ _ _ _ (idle_NewWriter w) EL) as HS.
    destruct HS as (_ & Hidle & _).
    pose proof (Close_reliable Hrel tarw1 Hidle) as HC.
    destruct (Tar.Close tarw1) as [tarw2 [e|]]; [discriminate HC|discriminate ET].
Qed.

End BenchMore.

Import BenchMore.

(** X9. [GenTarFiles(n, size)] does not return exactly when one of its
    [make] fails: that of the slice of files, on a negative [n] or one the
    runtime does not grant, or that of the payload of a file, on a
    negative [size] or one the runtime does not grant.  When it returns,
    it returns [n] files: the file at place [i] is named by the decimal of
    [i], holds [size] bytes and has the time of the [i]-th reading of the
    clock from the call on; no two files have the same name; [rand.Read]
    has been called [n] times and the clock read [n] times. *)
Theorem generated_files (rt : Runtime) (rand_Read : nat -> nat -> list byte)
        (make_files : Z -> bool) (make_bytes : nat -> Z -> bool)
        (n size : Z) (seed : nat) (world : World) :
  (Benchmark.GenTarFiles rt rand_Read make_files make_bytes n size seed world = None
   <-> ((n < 0)%Z \/ make_files n = false
        \/ exists i, i < Z.to_nat n
                     /\ ((size < 0)%Z \/ make_bytes (seed + i) size = false)))
  /\ forall files seed' world',
      Benchmark.GenTarFiles rt rand_Read make_files make_bytes n size seed world
      = Some (files, seed', world') ->
      List.length files = Z.to_nat n
      /\ (forall i f, nth_error files i = Some f ->
                      Name f = fmt_d i
                      /\ List.length (Data f) = Z.to_nat size
                      /\ LastMod f = time_Now rt (ticks world + i))
      /\ NoDup (map Name files)
      /\ seed' = seed + Z.to_nat n
      /\ ticks world' = ticks world + Z.to_nat n.
Proof.
  split; [apply GenTarFiles_None|].
  intros files seed' world' E.
  destruct (GenTarFiles_inv _ _ _ _ _ _ _ _ _ _ _ E) as (_ & Hs & Hw & Hl & Hf).
  split; [exact Hl|]. split; [|split; [|split; [exact Hs|now rewrite Hw]]].
  - intros i f Hn. destruct (Hf _ _ Hn) as (Hname & Hmod & Hdata).
    split; [exact Hname|]. split; [|exact Hmod].
    rewrite Hdata. apply length_filled.
  - apply NoDup_nth_error. intros i j Hi Hij. unfold Bench.TarFile in *.
    rewrite length_map in Hi. rewrite !nth_error_map in Hij.
    destruct (nth_error files i) as [fi|] eqn:Ei.
    2:{ apply nth_error_None in Ei. lia. }
    destruct (nth_error files j) as [fj|] eqn:Ej; [|discriminate Hij].
    simpl in Hij. injection Hij as Hij.
    destruct (Hf _ _ Ei) as (Hni & _), (Hf _ _ Ej) as (Hnj & _).
    apply fmt_d_inj. congruence.
Qed.

(** Three files of five bytes; and one of 2^62 bytes, which the runtime
    does not grant. *)
Lemma generated_files_witness :
  (exists files seed' world',
      Benchmark.GenTarFiles Demo.rt Demo2.rand_Read Demo2.make_files Demo2.make_bytes
                            3 5 0 world0
      = Some (files, seed', world')
      /\ List.length files = 3
      /\ NoDup (map Name files)
      /\ seed' = 3)
  /\ Benchmark.GenTarFiles Demo.rt Demo2.rand_Read Demo2.make_files Demo2.make_bytes
                           1 (2 ^ 62) 0 world0
     = None.
Proof.
  split.
  - destruct (Benchmark.GenTarFiles Demo.rt Demo2.rand_Read Demo2.make_files
                                    Demo2.make_bytes 3 5 0 world0)
      as [[[files seed'] world']|] eqn:E; [|discriminate E].
    exists files, seed', world'. split; [reflexivity|].
    destruct (proj2 (generated_files Demo.rt Demo2.rand_Read Demo2.make_files
                                     Demo2.make_bytes 3 5 0 world0) _ _ _ E)
      as (Hl & _ & Hnd & Hs & _).
    auto.
  - apply (generated_files Demo.rt Demo2.rand_Read Demo2.make_files Demo2.make_bytes
                           1 (2 ^ 62)%Z 0 world0).
    right. right. exists 0. split; [simpl; lia|]. right. reflexivity.
Defined.

(** X10. A [benchmarkTar] that succeeds, on a stream and with headers of
    one block: the stream has grown by a header block and the payload
    padded to whole blocks for each of the [n] files, and the two blocks
    of the trailer, which is more than the [n] times [size] bytes of the
    payloads; the clock has been read twice for every file. *)
Theorem benchmark_archive_size {W : Type} `{Tar.IoWriter W} (law : Tar.Stream W)
        {K : Type} `{Bench.BenchEach K} `{!Benchmark.BenchKit K}
        (rt : Runtime) (rand_Read : nat -> nat -> list byte)
        (make_files : Z -> bool) (make_bytes : nat -> Z -> bool)
        (Hblock : forall hdr blk,
            tar_marshal rt hdr = Ok blk -> List.length blk = Tar.blockSize)
        (n size : Z) (dst dst' : W) (bench bench' : K) (seed seed' : nat)
        (world world' : World) :
  Benchmark.benchmarkTar rt rand_Read make_files make_bytes n size dst bench seed world
  = Some (dst', world', bench', seed', None) ->
  List.length (Tar.written dst')
  = List.length (Tar.written dst)
    + Z.to_nat n * (Tar.blockSize + Benchmark.padded (Z.to_nat size))
    + 2 * Tar.blockSize
  /\ Benchmark.padded (Z.to_nat size) mod Tar.blockSize = 0
  /\ Z.to_nat n * Z.to_nat size
     < List.length (Tar.written dst') - List.length (Tar.written dst)
  /\ ticks world' = ticks world + 2 * Z.to_nat n.
Proof.
  unfold Benchmark.benchmarkTar.
  destruct (Benchmark.GenTarFiles rt rand_Read make_files make_bytes n size seed world)
    as [[[files seed1] world1]|] eqn:EG; [|discriminate].
  destruct (GenTarFiles_inv _ _ _ _ _ _ _ _ _ _ _ EG) as (_ & _ & Hw1 & Hl & Hf).
  destruct (Bench_tarify rt dst files (Benchmark.Starting (Benchmark.Setup bench)) world1)
    as [Ha Hb].
  destruct (Bench.tarify rt dst files _ world1) as [[[d2 w2] b3] r] eqn:EB.
  intros Eq. injection Eq as <- <- <- <- ->.
  destruct (tarify rt dst files world1) as [[d2' w2'] r'] eqn:ET.
  simpl in Ha, Hb. injection Ha as <- <-. subst r'.
  destruct (tarify_success law rt _ _ _ _ _ ET) as (Hwr & Henc & Hw2).
  assert (Hlen : List.length (Tar.written d2)
                 = List.length (Tar.written dst)
                   + Z.to_nat n * (Tar.blockSize + Benchmark.padded (Z.to_nat size))
                   + 2 * Tar.blockSize).
  { rewrite Hwr, !length_app, (length_body rt files Hblock _ Henc).
    rewrite (list_sum_const _ (Tar.blockSize + Benchmark.padded (Z.to_nat size))).
    - unfold trailer, Tar.zeroBlock. rewrite length_app, length_zeros.
      unfold Bench.TarFile in Hl. rewrite Hl. lia.
    - intros f Hin. apply In_nth_error in Hin. destruct Hin as [i Hi].
      destruct (Hf _ _ Hi) as (_ & _ & ->). now rewrite length_filled. }
  split; [exact Hlen|]. split; [apply blockPadding_aligned|].
  split.
  - rewrite Hlen. unfold Benchmark.padded, Tar.blockSize. nia.
  - rewrite Hw2, Hw1. simpl. unfold Bench.TarFile in Hl. rewrite Hl. lia.
Qed.

(** Two files of five bytes into a buffer: 3072 bytes. *)
Lemma benchmark_archive_size_witness :
  exists dst' world' bench' seed',
    Benchmark.benchmarkTar Demo.rt Demo2.rand_Read Demo2.make_files Demo2.make_bytes
                           2 5 (Tar.NewBuffer []) 0 0 world0
    = Some (dst', world', bench', seed', None)
    /\ List.length (Tar.written dst') = 3072
    /\ ticks world' = 4.
Proof.
  destruct (Benchmark.benchmarkTar Demo.rt Demo2.rand_Read Demo2.make_files Demo2.make_bytes
                           2 5 (Tar.NewBuffer []) 0 0
                                   world0)
    as [[[[[dst' world'] bench'] seed'] r]|] eqn:E; [|discriminate E].
  assert (Hr : r = None) by (vm_compute in E; injection E as _ _ _ _ <-; reflexivity).
  subst r. exists dst', world', bench', seed'. split; [reflexivity|].
  destruct (benchmark_archive_size Buffer_Stream Demo.rt Demo2.rand_Read
              Demo2.make_files Demo2.make_bytes
              length_marshal
              2 5 _ _ _ _ _ _ _ _ E)
    as (Hlen & _ & _ & Ht).
  split; [exact Hlen|exact Ht].
Defined.

(** X11. The measurements of [benchmarkTar]: [Setup], [Starting], then
    [Before(i)] and [After(i)] around each file in turn, then [Teardown].
    When [tarify] fails on file [i], [Before(i)] has been called and
    [After(i)] has not, and when it fails in closing the archive every
    file has had both; [Teardown] is called in each case. *)
Theorem hooks_bracket_entries {W : Type} `{Tar.IoWriter W}
        {K : Type} `{Bench.BenchEach K} `{!Benchmark.BenchKit K}
        (rt : Runtime) (rand_Read : nat -> nat -> list byte)
        (make_files : Z -> bool) (make_bytes : nat -> Z -> bool)
        (n size : Z) (dst dst' : W) (bench bench' : K) (seed seed' : nat)
        (world world' : World) (r : option string) :
  Benchmark.benchmarkTar rt rand_Read make_files make_bytes n size dst bench seed world
  = Some (dst', world', bench', seed', r) ->
  let started := Benchmark.Starting (Benchmark.Setup bench) in
  match r with
  | None =>
      bench' = Benchmark.Teardown (Benchmark.hooks (Z.to_nat n) 0 started)
  | Some err =>
      (exists i e,
          i < Z.to_nat n
          /\ bench' = Benchmark.Teardown
                        (Bench.Before i (Benchmark.hooks i 0 started))
          /\ (err = "writing header of " +++ fmt_q (fmt_d i) +++ ", " +++ e
              \/ err = "writing content of " +++ fmt_q (fmt_d i) +++ ", " +++ e))
      \/ (exists e,
             err = "closing tar buffer, " +++ e
             /\ bench' = Benchmark.Teardown (Benchmark.hooks (Z.to_nat n) 0 started))
  end.
Proof.
  cbv zeta. unfold Benchmark.benchmarkTar.
  destruct (Benchmark.GenTarFiles rt rand_Read make_files make_bytes n size seed world)
    as [[[files seed1] world1]|] eqn:EG; [|discriminate].
  destruct (GenTarFiles_inv _ _ _ _ _ _ _ _ _ _ _ EG) as (_ & _ & _ & Hl & Hf).
  unfold Bench.TarFile in *.
  unfold Bench.tarify.
  destruct (Bench.tarify_loop rt 0 (Tar.NewWriter dst) files world1
                              (Benchmark.Starting (Benchmark.Setup bench)))
    as [[[tarw1 w1] each1] r1] eqn:EL.
  pose proof (tarify_loop_hooks rt files _ _ _ _ _ _ _ _ EL) as HH.
  unfold Bench.TarFile in *.
  destruct r1 as [err1|].
  - intros Eq. injection Eq as <- <- <- <- <-. left.
    destruct HH as (j & o & e & Hn & He & Hm).
    exists j, e. destruct (Hf _ _ Hn) as (Hname & _). rewrite <- Hname.
    split; [|split; [now rewrite He|exact Hm]].
    rewrite <- Hl. apply nth_error_Some. unfold Bench.TarFile in *. congruence.
  - destruct (Tar.Close tarw1) as [tarw2 [e|]];
      intros Eq; injection Eq as <- <- <- <- <-.
    + right. exists e. split; [reflexivity|]. now rewrite HH, Hl.
    + now rewrite HH, Hl.
Qed.

(** Two files into a buffer with the counting kit: seven calls; and into
    a sink of 600 bytes, where the second header does not fit: six, the
    [After] of the second file missing. *)
Lemma hooks_bracket_entries_witness :
  (exists dst' world' seed',
      Benchmark.benchmarkTar Demo.rt Demo2.rand_Read Demo2.make_files Demo2.make_bytes
                           2 5 (Tar.NewBuffer []) 0 0 world0
      = Some (dst', world', 7, seed', None))
  /\ exists dst' world' seed' e,
      Benchmark.benchmarkTar Demo.rt Demo2.rand_Read Demo2.make_files Demo2.make_bytes
                           2 5 Demo.sink 0 0 world0
      = Some (dst', world', 6, seed',
              Some ("writing header of " +++ fmt_q "1" +++ ", " +++ e)).
Proof.
  split.
  - destruct (Benchmark.benchmarkTar Demo.rt Demo2.rand_Read Demo2.make_files Demo2.make_bytes
                           2 5 (Tar.NewBuffer []) 0 0
                                     world0)
      as [[[[[dst' world'] bench'] seed'] r]|] eqn:E; [|discriminate E].
    assert (Hr : r = None) by (vm_compute in E; injection E as _ _ _ _ <-; reflexivity).
    subst r. exists dst', world', seed'.
    now rewrite (hooks_bracket_entries Demo.rt Demo2.rand_Read
                  Demo2.make_files Demo2.make_bytes 2 5 _ _ _ _ _ _ _ _ _ E).
  - destruct (Benchmark.benchmarkTar Demo.rt Demo2.rand_Read Demo2.make_files Demo2.make_bytes
                           2 5 Demo.sink 0 0 world0)
      as [[[[[dst' world'] bench'] seed'] r]|] eqn:E; [|discriminate E].
    assert (Hr : exists e, r = Some ("writing header of " +++ fmt_q "1" +++ ", " +++ e)).
    { vm_compute in E. injection E as _ _ _ _ <-. eexists. reflexivity. }
    destruct Hr as (e0 & ->). exists dst', world', seed', e0.
    pose proof (hooks_bracket_entries Demo.rt Demo2.rand_Read
                  Demo2.make_files Demo2.make_bytes 2 5 _ _ _ _ _ _ _ _ _ E)
      as HH.
    cbv zeta in HH. destruct HH as [(i & e & Hi & Hb & Hm)|(e & Hm & _)].
    + assert (i = 1).
      { destruct i as [|[|i]]; [|reflexivity|simpl in Hi; lia].
        destruct Hm as [Hm|Hm]; vm_compute in Hm; discriminate Hm. }
      subst i. now rewrite Hb.
    + vm_compute in Hm. discriminate Hm.
Defined.

(** X12. The flags of the benchmark, for a [-size] that parses to [size]:
    [main] refuses the flags exactly when [n] is not positive or [size] is
    zero.  With flags that pass, the process dies in a [make] exactly when
    [size] does not fit a signed [int], which [int(size)] turns negative,
    or the runtime does not grant the slice of files or the payload of a
    file; a size of 2^63 or more never gets past the first file.  When
    [tarify] fails it is on the header of a file, as neither destination
    ever returns an error; and measurements come only from a positive [n]
    and a positive [size] below 2^63. *)
Theorem benchmark_flags (rt : Runtime) (rand_Read : nat -> nat -> list byte)
        (make_files : Z -> bool) (make_bytes : nat -> Z -> bool)
        (ParseBytes : string -> Result Z)
        {K : Type} `{Bench.BenchEach K} `{!Benchmark.BenchKit K}
        (n : Z) (sizeStr : string) (discard : bool) (kit : K) (seed : nat)
        (world : World) (size : Z) :
  ParseBytes sizeStr = Ok size ->
  (0 <= size < 2 ^ 64)%Z ->
  let out := Benchmark.main rt rand_Read make_files make_bytes ParseBytes
                            n sizeStr discard kit seed world in
  ((exists msg, out = Benchmark.FlagError msg) <-> (n <= 0 \/ size = 0)%Z)
  /\ (out = Benchmark.Panic
      <-> (0 < n)%Z /\ (0 < size)%Z
          /\ ((2 ^ 63 <= size)%Z \/ make_files n = false
              \/ exists i, i < Z.to_nat n /\ make_bytes (seed + i) size = false))
  /\ (forall msg, out = Benchmark.Fatal msg ->
                  exists i e,
                    (Z.of_nat i < n)%Z
                    /\ msg = "failed to benchmark: writing header of "
                               +++ fmt_q (fmt_d i) +++ ", " +++ e)
  /\ (forall results dst, out = Benchmark.Measured results dst ->
                          (0 < n /\ 0 < size < 2 ^ 63)%Z
                          /\ make_files n = true
                          /\ forall i, i < Z.to_nat n ->
                                       make_bytes (seed + i) size = true).
Proof.
  intros HP Hsize out. subst out. unfold Benchmark.main. rewrite HP.
  destruct (n <=? 0)%Z eqn:En.
  { apply Z.leb_le in En. split; [split; eauto|].
    split; [split; [discriminate|lia]|]. split; discriminate. }
  apply Z.leb_gt in En.
  destruct (size <=? 0)%Z eqn:Es.
  { apply Z.leb_le in Es. split; [split; [intros _; lia|eauto]|].
    split; [split; [discriminate|lia]|]. split; discriminate. }
  apply Z.leb_gt in Es.
  set (dst := if discard then _ else _).
  assert (Hdies : Benchmark.GenTarFiles rt rand_Read make_files make_bytes n
                                        (Benchmark.int_of_uint64 size) seed world = None
                  <-> ((2 ^ 63 <= size)%Z \/ make_files n = false
                       \/ exists i, i < Z.to_nat n
                                    /\ make_bytes (seed + i) size = false)).
  { rewrite GenTarFiles_None. unfold Benchmark.int_of_uint64.
    destruct (size <? 2 ^ 63)%Z eqn:Ef.
    - apply Z.ltb_lt in Ef. split.
      + intros [Hn|[Hm|(i & Hi & [Hs|Hb])]];
          [lia|right; now left|lia|right; right; exists i; now split].
      + intros [Hs|[Hm|(i & Hi & Hb)]];
          [lia|right; now left|right; right; exists i; split; [exact Hi|now right]].
    - apply Z.ltb_ge in Ef. split; [intros _; now left|].
      intros _. right. right. exists 0. split; [lia|]. left. lia. }
  destruct (Benchmark.benchmarkTar rt rand_Read make_files make_bytes n
                                   (Benchmark.int_of_uint64 size) dst kit seed world)
    as [[[[[dst' world'] results] seed'] r]|] eqn:EB.
  - unfold Benchmark.benchmarkTar in EB.
    destruct (Benchmark.GenTarFiles rt rand_Read make_files make_bytes n
                                    (Benchmark.int_of_uint64 size) seed world)
      as [[[files seed1] world1]|] eqn:EG; [|discriminate EB].
    assert (Hlives : ~ ((2 ^ 63 <= size)%Z \/ make_files n = false
                        \/ exists i, i < Z.to_nat n
                                     /\ make_bytes (seed + i) size = false)).
    { intros Hbad. apply Hdies in Hbad. discriminate Hbad. }
    destruct r as [err|].
    + split; [split; [intros [msg Hm]; discriminate Hm|lia]|].
      split; [split; [discriminate|intros (_ & _ & Hbad); now elim Hlives]|].
      split; [|discriminate].
      intros msg Hm. injection Hm as <-.
      destruct (GenTarFiles_inv _ _ _ _ _ _ _ _ _ _ _ EG) as (_ & _ & _ & Hl & Hf).
      unfold Bench.TarFile in *.
      destruct (Bench_tarify rt dst files (Benchmark.Starting (Benchmark.Setup kit))
                             world1) as [Ha Hb].
      destruct (Bench.tarify rt dst files _ world1) as [[[d2 w2] b3] r2] eqn:ET.
      injection EB as <- <- <- <- ->.
      destruct (tarify rt dst files world1) as [[d2' w2'] r'] eqn:ET'.
      simpl in Ha, Hb. subst r'.
      destruct (tarify_refused Dst_Stream Dst_reliable rt _ _ _ _ _ _ ET')
        as (i & o & e & Hn & _ & ->).
      destruct (Hf _ _ Hn) as (Hname & _). rewrite Hname.
      exists i, e. split; [|reflexivity].
      assert (Hi : i < List.length files)
        by (apply nth_error_Some; unfold Bench.TarFile in *; congruence).
      lia.
    + split; [split; [intros [msg Hm]; discriminate Hm|lia]|].
      split; [split; [discriminate|intros (_ & _ & Hbad); now elim Hlives]|].
      split; [discriminate|].
      intros _ _ _.
      assert (Hfit : (size < 2 ^ 63)%Z).
      { destruct (Z.lt_ge_cases size (2 ^ 63)) as [Hlt|Hge]; [exact Hlt|].
        exfalso. apply Hlives. now left. }
      split; [lia|]. split.
      * destruct (make_files n) eqn:Em; [reflexivity|].
        exfalso. apply Hlives. right. now left.
      * intros i Hi. destruct (make_bytes (seed + i) size) eqn:Eb; [reflexivity|].
        exfalso. apply Hlives. right. right. eauto.
  - split; [split; [intros [msg Hm]; discriminate Hm|lia]|].
    split; [|split; discriminate]. split; [intros _|reflexivity].
    split; [exact En|]. split; [exact Es|].
    apply Hdies. unfold Benchmark.benchmarkTar in EB.
    destruct (Benchmark.GenTarFiles rt rand_Read make_files make_bytes n
                                    (Benchmark.int_of_uint64 size) seed world)
      as [[[files seed1] world1]|] eqn:EG; [|reflexivity].
    destruct (Bench.tarify rt dst files _ world1) as [[[d2 w2] b3] r2].
    discriminate EB.
Qed.

(** A size of 8EiB passes the flags and the process dies, as it does for
    a size of 4EiB, which fits an [int] and which the runtime does not
    grant. *)
Lemma benchmark_flags_witness :
  Benchmark.main Demo.rt Demo2.rand_Read Demo2.make_files Demo2.make_bytes
                 Demo2.ParseBytes 2 "8EiB" true 0 0 world0
  = Benchmark.Panic
  /\ Benchmark.main Demo.rt Demo2.rand_Read Demo2.make_files Demo2.make_bytes
                    Demo2.ParseBytes 1 "4EiB" true 0 0 world0
     = Benchmark.Panic.
Proof.
  split.
  - pose proof (benchmark_flags Demo.rt Demo2.rand_Read Demo2.make_files
                                Demo2.make_bytes Demo2.ParseBytes
                                2 "8EiB" true 0 0 world0 (2 ^ 63)%Z eq_refl
                                ltac:(lia)) as (_ & HP & _).
    apply HP. split; [lia|]. split; [lia|]. left. lia.
  - pose proof (benchmark_flags Demo.rt Demo2.rand_Read Demo2.make_files
                                Demo2.make_bytes Demo2.ParseBytes
                                1 "4EiB" true 0 0 world0 (2 ^ 62)%Z eq_refl
                                ltac:(lia)) as (_ & HP & _).
    apply HP. split; [lia|]. split; [lia|]. right. right.
    exists 0. split; [simpl; lia|reflexivity].
Defined.

(** ** The size of the archive *)

Module SizeMore.
Import GoString Taring Archive.
Import TarFacts MainFacts.

Lemma whole_blocks n : n mod Tar.blockSize = 0 -> exists k, n = k * Tar.blockSize.
Proof.
  intros Hm. exists (n / Tar.blockSize).
  rewrite Nat.mul_comm. now apply Nat.Div0.div_exact.
Qed.

(** The body of an archive is a whole number of blocks, a block or more
    for each entry, when each header is. *)
Lemma body_blocks rt objects :
  (forall hdr blk, tar_marshal rt hdr = Ok blk ->
                   blk <> [] /\ List.length blk mod Tar.blockSize = 0) ->
  forall tick,
    encodable rt tick objects ->
    exists k, List.length (body rt tick objects) = k * Tar.blockSize
              /\ List.length objects <= k.
Proof.
  intros Hblock. induction objects as [|o rest IH]; intros tick Henc.
  - exists 0. split; reflexivity.
  - destruct (IH (S tick)) as (k & Hk & Hle).
    { intros i o' Hn. rewrite header_S. apply (Henc (S i)). exact Hn. }
    pose proof (Henc 0 o eq_refl) as H0.
    cbn [body]. unfold entry, padding, blocks.
    destruct (tar_marshal rt (header rt tick 0 o)) as [blk|e] eqn:Em; [|discriminate H0].
    destruct (Hblock _ _ Em) as [Hne Hmod].
    destruct (whole_blocks _ Hmod) as (kh & Hkh).
    destruct (whole_blocks _ (blockPadding_aligned (List.length (Data o)))) as (kd & Hkd).
    exists (kh + kd + k). rewrite !length_app, length_zeros, Hk.
    assert (Hpos : 0 < kh).
    { destruct kh; [|lia]. destruct blk; [now elim Hne|discriminate Hkh]. }
    split; [|simpl; lia]. rewrite Hkh. nia.
Qed.

(** The headers of [Demo.marshal] take one block. *)
Lemma marshal_blocks hdr blk :
  Demo.marshal hdr = Ok blk ->
  blk <> [] /\ List.length blk mod Tar.blockSize = 0.
Proof.
  intros E. pose proof (length_marshal hdr blk E) as Hlen. split.
  - intros ->. discriminate Hlen.
  - rewrite Hlen. reflexivity.
Qed.

End SizeMore.

Import SizeMore.

(** X13. An archive that [tarify] has written in full is a whole number
    of blocks of 512 bytes when each header is: a block or more for each
    object, and the two blocks of the trailer. *)
Theorem archive_whole_blocks {W : Type} `{Tar.IoWriter W} (law : Tar.Stream W)
        (rt : Runtime)
        (Hblock : forall hdr blk,
            tar_marshal rt hdr = Ok blk ->
            blk <> [] /\ List.length blk mod Tar.blockSize = 0)
        (w w' : W) (objects : list S3Content) (world world' : World) :
  tarify rt w objects world = (w', world', None) ->
  exists k,
    List.length (Tar.written w')
    = List.length (Tar.written w) + (k + 2) * Tar.blockSize
    /\ List.length objects <= k.
Proof.
  intros ET. destruct (tarify_success law rt _ _ _ _ _ ET) as (Hwr & Henc & _).
  destruct (body_blocks rt objects Hblock _ Henc) as (k & Hk & Hle).
  exists k. split; [|exact Hle].
  rewrite Hwr, !length_app, Hk. unfold trailer, Tar.zeroBlock.
  rewrite length_app, length_zeros. lia.
Qed.

(** The objects [x] and [sub/y] into a buffer. *)
Lemma archive_whole_blocks_witness :
  exists w' world' k,
    tarify Demo.rt (Tar.NewBuffer []) [Demo.objX; Demo.objY] world0
    = (w', world', None)
    /\ List.length (Tar.written w') = (k + 2) * Tar.blockSize
    /\ 2 <= k.
Proof.
  destruct (tarify Demo.rt (Tar.NewBuffer []) [Demo.objX; Demo.objY] world0)
    as [[w' world'] r] eqn:ET.
  assert (Hr : r = None) by (vm_compute in ET; injection ET as _ _ <-; reflexivity).
  subst r.
  destruct (archive_whole_blocks Buffer_Stream Demo.rt marshal_blocks _ _ _ _ _ ET)
    as (k & Hk & Hle).
  exists w', world', k. split; [reflexivity|]. split; [exact Hk|exact Hle].
Defined.
